(** * An integer arithmetic expression evaluator: lexer, parser, interpreter

    Shallow embedding of [src/interpreter.py] and the properties its
    specification states about it.

    Modelling conventions.
    - A Python [str] is a Rocq [string]; a character is an [ascii] read as
      the code point of the same number (code points 0..255).  The
      predicates [isdigit], [isdecimal] and [isspace] are Python's, restricted
      to that range.
    - A Python [int] is a [Z].
    - Every method that can raise returns a [result]; a method that mutates
      [self] takes the object and returns the new one.
    - Loops and recursion run on a fuel argument; each entry point computes
      its own fuel from the state and is proved never to exhaust it
      (section "Totality").  Interpreter limits (recursion depth, the length
      limit of [int] on a str) are not modelled. *)

From Stdlib Require Import ZArith String Ascii List Bool Lia.
From Stdlib Require Import DecimalString DecimalZ DecimalN DecimalPos DecimalFacts.
Import ListNotations.

Set Implicit Arguments.

Open Scope string_scope.
Open Scope Z_scope.

(** ** Exceptions and results *)

Inductive exn : Type :=
| Exception (msg : string)
| ValueError
| IndexError
| AttributeError
| KeyError
| TypeError
| ZeroDivisionError
| EOFError.

Inductive result (A : Type) : Type :=
| Ok (a : A)
| Raise (e : exn)
| OutOfFuel.

Arguments Ok {A} a.
Arguments Raise {A} e.
Arguments OutOfFuel {A}.

Definition bind {A B : Type} (m : result A) (k : A -> result B) : result B :=
  match m with
  | Ok a => k a
  | Raise e => Raise e
  | OutOfFuel => OutOfFuel
  end.

Notation "x <- m ;; k" := (bind m (fun x => k))
  (at level 61, m at next level, right associativity).
Notation "' pat <- m ;; k" := (bind m (fun x => match x with pat => k end))
  (at level 61, pat pattern, m at next level, right associativity).

(** ** Python's str operations used by the program *)

Definition code (c : ascii) : Z := Z.of_nat (nat_of_ascii c).

(** [c.isdecimal()]: the ten ASCII digits. *)
Definition isdecimal (c : ascii) : bool :=
  (48 <=? code c) && (code c <=? 57).

(** [c.isdigit()]: the ASCII digits and the superscripts U+00B2, U+00B3,
    U+00B9. *)
Definition isdigit (c : ascii) : bool :=
  isdecimal c || (code c =? 178) || (code c =? 179) || (code c =? 185).

(** [c.isspace()]: U+0009..U+000D, U+001C..U+0020, U+0085, U+00A0. *)
Definition isspace (c : ascii) : bool :=
  ((9 <=? code c) && (code c <=? 13)) || ((28 <=? code c) && (code c <=? 32))
  || (code c =? 133) || (code c =? 160).

Definition len (s : string) : Z := Z.of_nat (String.length s).

(** [s[i]], with Python's negative indices. *)
Definition str_index (s : string) (i : Z) : result ascii :=
  let j := if i <? 0 then i + len s else i in
  if j <? 0 then Raise IndexError
  else match String.get (Z.to_nat j) s with
       | Some c => Ok c
       | None => Raise IndexError
       end.

Fixpoint str_forallb (f : ascii -> bool) (s : string) : bool :=
  match s with
  | EmptyString => true
  | String c s' => f c && str_forallb f s'
  end.

Definition digit_value (c : ascii) : Z := code c - 48.

Fixpoint int_acc (acc : Z) (s : string) : Z :=
  match s with
  | EmptyString => acc
  | String c s' => int_acc (10 * acc + digit_value c) s'
  end.

(** [int(s)] for a str [s] of [isdigit] characters (the only strs the lexer
    converts): the base-10 value when [s] is a non-empty run of decimal
    characters, [ValueError] otherwise. *)
Definition int_of_str (s : string) : result Z :=
  match s with
  | EmptyString => Raise ValueError
  | _ => if str_forallb isdecimal s then Ok (int_acc 0 s) else Raise ValueError
  end.

Fixpoint join (sep : string) (l : list string) : string :=
  match l with
  | [] => ""
  | [x] => x
  | x :: l' => x ++ sep ++ join sep l'
  end.

(** ** Tokens *)

Inductive TokenType : Type :=
| START | INTEGER | PLUS | MINUS | MULT | DIV | SPACE | LPAREN | RPAREN | EOF.

Definition TokenType_eqb (a b : TokenType) : bool :=
  match a, b with
  | START, START | INTEGER, INTEGER | PLUS, PLUS | MINUS, MINUS
  | MULT, MULT | DIV, DIV | SPACE, SPACE | LPAREN, LPAREN
  | RPAREN, RPAREN | EOF, EOF => true
  | _, _ => false
  end.

(** [t.name] *)
Definition name (t : TokenType) : string :=
  match t with
  | START => "START" | INTEGER => "INTEGER" | PLUS => "PLUS"
  | MINUS => "MINUS" | MULT => "MULT" | DIV => "DIV" | SPACE => "SPACE"
  | LPAREN => "LPAREN" | RPAREN => "RPAREN" | EOF => "EOF"
  end.

(** The Python values that occur as [Token.value] and as results of the
    interpreter: [None], an [int], a [str]. *)
Inductive Value : Type :=
| VNone
| VInt (z : Z)
| VStr (s : string).

Record Token : Type := mkToken { type : TokenType; value : Value }.

(** [x in tys], for a tuple of token types. *)
Definition type_in (x : TokenType) (tys : list TokenType) : bool :=
  existsb (TokenType_eqb x) tys.

(** ** Lexical analyzer *)

Module Lexer.

(** What [self.curr_char] holds: [None], a one-character str, or the
    [Token] that [advance(reverse=True)] stores in it. *)
Inductive CurrChar : Type :=
| CNone
| CChr (c : ascii)
| CTok (t : Token).

Record t : Type := mk {
  source : string;
  pos : Z;
  curr_char : CurrChar;
  curr_token : Token
}.

Definition operations : list (ascii * TokenType) :=
  [("+"%char, PLUS); ("-"%char, MINUS); ("*"%char, MULT); ("/"%char, DIV)].

Fixpoint lookup (c : ascii) (d : list (ascii * TokenType)) : option TokenType :=
  match d with
  | [] => None
  | (k, v) :: d' => if Ascii.eqb c k then Some v else lookup c d'
  end.

Definition __init__ (source : string) : t :=
  mk source (-1) CNone (mkToken START VNone).

Definition set_curr_char (l : t) (c : CurrChar) : t :=
  mk (source l) (pos l) c (curr_token l).

Definition set_curr_token (l : t) (k : Token) : t :=
  mk (source l) (pos l) (curr_char l) k.

Definition advance (reverse : bool) (l : t) : result t :=
  if reverse then
    let l := mk (source l) (pos l - 1) (curr_char l) (curr_token l) in
    if pos l >? 0 then
      c <- str_index (source l) (pos l) ;;
      Ok (set_curr_char l (CChr c))
    else
      Ok (set_curr_char l (CTok (mkToken START VNone)))
  else
    let l := mk (source l) (pos l + 1) (curr_char l) (curr_token l) in
    if pos l <? len (source l) then
      c <- str_index (source l) (pos l) ;;
      Ok (set_curr_char l (CChr c))
    else
      Ok (set_curr_token (set_curr_char l CNone) (mkToken EOF VNone)).

(** [self.curr_char and self.curr_char.isdigit()], as a truth value. *)
Definition curr_char_is_digit (l : t) : result bool :=
  match curr_char l with
  | CNone => Ok false
  | CChr c => Ok (isdigit c)
  | CTok _ => Raise AttributeError
  end.

Definition curr_char_is_operation (l : t) : result bool :=
  match curr_char l with
  | CNone => Ok false
  | CChr c => Ok (match lookup c operations with Some _ => true | None => false end)
  | CTok _ => Ok false
  end.

Definition curr_char_is_space (l : t) : result bool :=
  match curr_char l with
  | CNone => Ok false
  | CChr c => Ok (isspace c)
  | CTok _ => Raise AttributeError
  end.

Definition curr_char_is_lparen (l : t) : result bool :=
  match curr_char l with
  | CChr c => Ok (Ascii.eqb c "("%char)
  | _ => Ok false
  end.

Definition curr_char_is_rparen (l : t) : result bool :=
  match curr_char l with
  | CChr c => Ok (Ascii.eqb c ")"%char)
  | _ => Ok false
  end.

(** Characters from the cursor to the end of the source, the bound on the
    iterations of the two loops below. *)
Definition remaining (l : t) : nat := Z.to_nat (len (source l) - pos l).

(** The [while] loop of [take_full_integer]. *)
Fixpoint take_digits (fuel : nat) (full_number : string) (l : t)
  : result (string * t) :=
  match fuel with
  | O => OutOfFuel
  | S fuel' =>
    d <- curr_char_is_digit l ;;
    if d then
      match curr_char l with
      | CChr c =>
        l' <- advance false l ;;
        take_digits fuel' (full_number ++ String c "") l'
      | _ => Raise TypeError
      end
    else Ok (full_number, l)
  end.

Definition take_full_integer (l : t) : result (Z * t) :=
  '(full_number, l) <- take_digits (S (S (remaining l))) "" l ;;
  l <- advance true l ;;
  n <- int_of_str full_number ;;
  Ok (n, l).

(** [self.curr_token == TokenType.EOF] compares a [Token] object with an
    enumeration member: it is [False] for every token. *)
Definition token_eq_type (k : Token) (ty : TokenType) : bool := false.

Fixpoint get_next_token_aux (fuel : nat) (l : t) : result (Token * t) :=
  match fuel with
  | O => OutOfFuel
  | S fuel' =>
    l <- advance false l ;;
    if token_eq_type (curr_token l) EOF || (pos l >=? len (source l)) then
      let l := set_curr_token l (mkToken EOF VNone) in
      Ok (curr_token l, l)
    else
      d <- curr_char_is_digit l ;;
      if d then
        '(n, l) <- take_full_integer l ;;
        let l := set_curr_token l (mkToken INTEGER (VInt n)) in
        Ok (curr_token l, l)
      else
        o <- curr_char_is_operation l ;;
        if o then
          match curr_char l with
          | CChr c =>
            match lookup c operations with
            | Some ty =>
              let l := set_curr_token l (mkToken ty (VStr (String c ""))) in
              Ok (curr_token l, l)
            | None => Raise KeyError
            end
          | _ => Raise KeyError
          end
        else
          lp <- curr_char_is_lparen l ;;
          if lp then
            let l := set_curr_token l (mkToken LPAREN (VStr "(")) in
            Ok (curr_token l, l)
          else
            rp <- curr_char_is_rparen l ;;
            if rp then
              let l := set_curr_token l (mkToken RPAREN (VStr ")")) in
              Ok (curr_token l, l)
            else
              sp <- curr_char_is_space l ;;
              if sp then get_next_token_aux fuel' l
              else
                let l := set_curr_token l (mkToken EOF VNone) in
                Ok (curr_token l, l)
  end.

Definition get_next_token (l : t) : result (Token * t) :=
  get_next_token_aux (S (remaining l)) l.

(** [__next__]: the iterator protocol stops once the current token is EOF;
    [None] stands for [StopIteration]. *)
Definition __next__ (l : t) : result (option (Token * t)) :=
  if TokenType_eqb (type (curr_token l)) EOF then Ok None
  else r <- get_next_token l ;; Ok (Some r).

End Lexer.

(** ** Parser / syntax analyzer *)

(** The node classes: [Ast] itself and its subclasses [UnaryOp], [BinOp],
    [Num]. *)
Inductive Ast : Type :=
| AstNode (token : Token)
| UnaryOp (token : Token) (expr : Ast)
| BinOp (token : Token) (left_ right_ : Ast)
| Num (token : Token).

Module Parser.

Record t : Type := mk {
  lexer : Lexer.t;
  curr_token : Token
}.

Definition __init__ (lexical_analyzer : Lexer.t) : result t :=
  '(k, l) <- Lexer.get_next_token lexical_analyzer ;;
  Ok (mk l k).

Definition eat (p : t) (or_ : list TokenType) : result t :=
  if type_in (type (curr_token p)) or_ then
    '(k, l) <- Lexer.get_next_token (lexer p) ;;
    Ok (mk l k)
  else
    let expected := join " or " (map name or_) in
    let got := name (type (curr_token p)) in
    Raise (Exception
             ("I was expecting for " ++ expected ++ " but got " ++ got ++ ".")).

(** [factor], [term] and [expr] with the two [while] loops, [term_loop]
    and [expr_loop], which carry the tree built so far. *)
Fixpoint factor (fuel : nat) (p : t) : result (Ast * t) :=
  match fuel with
  | O => OutOfFuel
  | S fuel' =>
    let token := curr_token p in
    if TokenType_eqb (type token) INTEGER then
      p <- eat p [INTEGER] ;;
      Ok (Num token, p)
    else if TokenType_eqb (type token) LPAREN then
      p <- eat p [LPAREN] ;;
      '(ast_node, p) <- expr fuel' p ;;
      p <- eat p [RPAREN] ;;
      Ok (ast_node, p)
    else if type_in (type token) [PLUS; MINUS] then
      p <- eat p [PLUS; MINUS] ;;
      '(operand, p) <- factor fuel' p ;;
      Ok (UnaryOp token operand, p)
    else Raise (Exception "Invalid Factor")
  end

with term_loop (fuel : nat) (factor_ : Ast) (p : t) : result (Ast * t) :=
  match fuel with
  | O => OutOfFuel
  | S fuel' =>
    if type_in (type (curr_token p)) [MULT; DIV] then
      let token := curr_token p in
      p <- eat p [MULT; DIV] ;;
      '(right_, p) <- factor fuel' p ;;
      term_loop fuel' (BinOp token factor_ right_) p
    else Ok (factor_, p)
  end

with term (fuel : nat) (p : t) : result (Ast * t) :=
  match fuel with
  | O => OutOfFuel
  | S fuel' =>
    '(factor_, p) <- factor fuel' p ;;
    term_loop fuel' factor_ p
  end

with expr_loop (fuel : nat) (term_ : Ast) (p : t) : result (Ast * t) :=
  match fuel with
  | O => OutOfFuel
  | S fuel' =>
    if type_in (type (curr_token p)) [PLUS; MINUS] then
      let op := curr_token p in
      p <- eat p [PLUS; MINUS] ;;
      '(right_, p) <- term fuel' p ;;
      expr_loop fuel' (BinOp op term_ right_) p
    else Ok (term_, p)
  end

with expr (fuel : nat) (p : t) : result (Ast * t) :=
  match fuel with
  | O => OutOfFuel
  | S fuel' =>
    '(term_, p) <- term fuel' p ;;
    expr_loop fuel' term_ p
  end.

(** What is left to read: the characters after the cursor, and the
    lookahead unless it is EOF. *)
Definition measure (p : t) : nat :=
  ((if TokenType_eqb (type (curr_token p)) EOF then 0 else 1)
   + Lexer.remaining (lexer p))%nat.

Definition parse (p : t) : result (Ast * t) :=
  expr (3 + 3 * measure p) p.

End Parser.

(** ** Interpreter *)

Fixpoint str_repeat (s : string) (n : nat) : string :=
  match n with
  | O => ""
  | S n' => s ++ str_repeat s n'
  end.

(** Python's [x + y], [x - y], [x * y], [x // y], [-x], [+x] on the values
    above. *)
Definition py_add (x y : Value) : result Value :=
  match x, y with
  | VInt a, VInt b => Ok (VInt (a + b))
  | VStr a, VStr b => Ok (VStr (a ++ b))
  | _, _ => Raise TypeError
  end.

Definition py_sub (x y : Value) : result Value :=
  match x, y with
  | VInt a, VInt b => Ok (VInt (a - b))
  | _, _ => Raise TypeError
  end.

Definition py_mul (x y : Value) : result Value :=
  match x, y with
  | VInt a, VInt b => Ok (VInt (a * b))
  | VStr a, VInt b => Ok (VStr (str_repeat a (Z.to_nat b)))
  | VInt a, VStr b => Ok (VStr (str_repeat b (Z.to_nat a)))
  | _, _ => Raise TypeError
  end.

Definition py_floordiv (x y : Value) : result Value :=
  match x, y with
  | VInt a, VInt b => if b =? 0 then Raise ZeroDivisionError else Ok (VInt (a / b))
  | _, _ => Raise TypeError
  end.

Definition py_neg (x : Value) : result Value :=
  match x with
  | VInt a => Ok (VInt (- a))
  | _ => Raise TypeError
  end.

Definition py_pos (x : Value) : result Value :=
  match x with
  | VInt a => Ok (VInt a)
  | _ => Raise TypeError
  end.

Module Interpreter.

Record t : Type := mk { ast : Ast }.

(** The constructor call, on its positional arguments: it takes exactly
    one tree. *)
Definition __init__ (args : list Ast) : result t :=
  match args with
  | [a] => Ok (mk a)
  | _ => Raise TypeError
  end.

Definition operations : list (TokenType * (Value -> Value -> result Value)) :=
  [(PLUS, py_add); (MINUS, py_sub); (MULT, py_mul); (DIV, py_floordiv)].

Fixpoint lookup (ty : TokenType)
         (d : list (TokenType * (Value -> Value -> result Value)))
  : result (Value -> Value -> result Value) :=
  match d with
  | [] => Raise KeyError
  | (k, f) :: d' => if TokenType_eqb ty k then Ok f else lookup ty d'
  end.

(** [visit] with its dispatch on the class of the node: [visit_BinOp],
    [visit_Num], [visit_UnaryOp], and [generic_visit] for a bare [Ast]. *)
Fixpoint visit (node : Ast) : result Value :=
  match node with
  | BinOp token left_ right_ =>
    op <- lookup (type token) operations ;;
    x <- visit left_ ;;
    y <- visit right_ ;;
    op x y
  | Num token => Ok (value token)
  | UnaryOp token expr =>
    if TokenType_eqb (type token) MINUS then
      x <- visit expr ;; py_neg x
    else
      x <- visit expr ;; py_pos x
  | AstNode _ =>
    Raise (Exception "visit_Ast or a generic_visit is not implemented")
  end.

Definition execute (self : t) : result Value := visit (ast self).

End Interpreter.

(** The front half of the pipeline, as [main] runs it: [Lexer(source)],
    [Parser(lexer)], [parser.parse()]. *)
Definition parse_line (source : string) : result Ast :=
  let lexer := Lexer.__init__ source in
  parser <- Parser.__init__ lexer ;;
  '(ast, _) <- Parser.parse parser ;;
  Ok ast.

(** The pipeline from a line to its value: [Lexer(source)],
    [Parser(lexer)], [parser.parse()], [Interpreter(ast).execute()]. *)
Definition evaluate (source : string) : result Value :=
  let lexer := Lexer.__init__ source in
  parser <- Parser.__init__ lexer ;;
  '(ast, _) <- Parser.parse parser ;;
  interpreter <- Interpreter.__init__ [ast] ;;
  Interpreter.execute interpreter.

(** ** The read-evaluate-print loop *)

(** [str(x)], what [print] writes. *)
Definition str (x : Value) : string :=
  match x with
  | VNone => "None"
  | VInt z => NilZero.string_of_int (Z.to_int z)
  | VStr s => s
  end.

(** What [main] writes to standard output. *)
Inductive event : Type :=
| Prompt (s : string)
| Print (s : string).

(** How [main] ends: it returns, an exception leaves it, or (in the model
    only) a callee runs out of fuel. *)
Inductive exit : Type :=
| Returned
| Uncaught (e : exn)
| Exhausted.

Definition emit (e : event) (r : list event * exit) : list event * exit :=
  (e :: fst r, snd r).

(** [main] on the lines that [input] will deliver; at the end of the input
    stream [input] raises [EOFError]. *)
Fixpoint main (stdin : list string) : list event * exit :=
  emit (Prompt "pyparser > ")
    match stdin with
    | [] => ([], Uncaught EOFError)
    | source_code :: stdin' =>
      if String.eqb source_code ":q" then ([Print "Oui oui"], Returned)
      else
        let lexer := Lexer.__init__ source_code in
        match Parser.__init__ lexer with
        | Raise e => ([], Uncaught e)
        | OutOfFuel => ([], Exhausted)
        | Ok parser =>
          match Parser.parse parser with
          | Raise _ => emit (Print "Invalid Input") (main stdin')
          | OutOfFuel => ([], Exhausted)
          | Ok (ast, _) =>
            match Interpreter.__init__ [] with
            | Raise e => ([], Uncaught e)
            | OutOfFuel => ([], Exhausted)
            | Ok interpreter =>
              match Interpreter.execute interpreter with
              | Raise e => ([], Uncaught e)
              | OutOfFuel => ([], Exhausted)
              | Ok v => emit (Print (str v)) (main stdin')
              end
            end
          end
        end
    end.


(** * Vocabulary of the properties *)

(** After a forward [advance] the current character is the one under the
    cursor, or [None] past the end. *)
Definition synced (l : Lexer.t) : Prop :=
  (Lexer.pos l < len (Lexer.source l) /\ exists c, Lexer.curr_char l = Lexer.CChr c)
  \/ (len (Lexer.source l) <= Lexer.pos l /\ Lexer.curr_char l = Lexer.CNone).

(** The cursor stands just before [s]: the source is [pre ++ s] and [pos]
    is the index of the last character of [pre]. *)
Definition before (l : Lexer.t) (pre s : string) : Prop :=
  Lexer.source l = pre ++ s /\ Lexer.pos l = len pre - 1.

Definition is_operation (c : ascii) : bool :=
  match Lexer.lookup c Lexer.operations with Some _ => true | None => false end.

(** Not a digit, not one of [+ - * /], not a parenthesis, not whitespace. *)
Definition unrecognized (c : ascii) : bool :=
  negb (isdigit c) && negb (is_operation c) && negb (Ascii.eqb c "(")
  && negb (Ascii.eqb c ")") && negb (isspace c).

(** The lines without a token: empty, whitespace only, or with an
    unrecognized character after the leading whitespace. *)
Fixpoint no_tokens (s : string) : bool :=
  match s with
  | EmptyString => true
  | String c s' => if isspace c then no_tokens s' else unrecognized c
  end.

(** The cursor stands on the first character of [s]. *)
Definition cursor_on (l : Lexer.t) (pre s : string) : Prop :=
  Lexer.source l = pre ++ s /\ Lexer.pos l = len pre
  /\ Lexer.curr_char l
     = match s with
       | EmptyString => Lexer.CNone
       | String c _ => Lexer.CChr c
       end.

(** [s] does not continue a run of digits. *)
Definition ends_run (s : string) : Prop :=
  match s with
  | EmptyString => True
  | String c _ => isdigit c = false
  end.

Definition is_int (v : Value) : bool :=
  match v with VInt _ => true | _ => false end.

(** Numbers carry an INTEGER token with an [int], unary nodes a sign,
    binary nodes one of the four operators. *)
Fixpoint well_formed (a : Ast) : bool :=
  match a with
  | AstNode _ => false
  | Num k => TokenType_eqb (type k) INTEGER && is_int (value k)
  | UnaryOp k e => type_in (type k) [PLUS; MINUS] && well_formed e
  | BinOp k l r =>
    type_in (type k) [PLUS; MINUS; MULT; DIV] && well_formed l && well_formed r
  end.

(** An INTEGER token carries an [int]. *)
Definition token_ok (k : Token) : bool :=
  negb (TokenType_eqb (type k) INTEGER) || is_int (value k).

(** [factor] on [p] ends with [r], with whatever fuel that takes. *)
Definition Factor (p : Parser.t) (r : result (Ast * Parser.t)) : Prop :=
  exists fuel, Parser.factor fuel p = r /\ r <> OutOfFuel.

Definition TermLoop (f : Ast) (p : Parser.t) (r : result (Ast * Parser.t)) : Prop :=
  exists fuel, Parser.term_loop fuel f p = r /\ r <> OutOfFuel.

Definition Term (p : Parser.t) (r : result (Ast * Parser.t)) : Prop :=
  exists fuel, Parser.term fuel p = r /\ r <> OutOfFuel.

Definition ExprLoop (f : Ast) (p : Parser.t) (r : result (Ast * Parser.t)) : Prop :=
  exists fuel, Parser.expr_loop fuel f p = r /\ r <> OutOfFuel.

Definition Expr (p : Parser.t) (r : result (Ast * Parser.t)) : Prop :=
  exists fuel, Parser.expr fuel p = r /\ r <> OutOfFuel.

(** The token of a character that is a token by itself: an operator or a
    parenthesis. *)
Definition single_char_token (c : ascii) : option Token :=
  if isdigit c then None
  else match Lexer.lookup c Lexer.operations with
       | Some ty => Some (mkToken ty (VStr (String c "")))
       | None =>
         if Ascii.eqb c "(" then Some (mkToken LPAREN (VStr "("))
         else if Ascii.eqb c ")" then Some (mkToken RPAREN (VStr ")"))
         else None
       end.

(** The lookahead of [p] was read from a cursor just before [s]. *)
Definition ready (p : Parser.t) (pre s : string) : Prop :=
  exists l0, before l0 pre s
             /\ Lexer.get_next_token l0 = Ok (Parser.curr_token p, Parser.lexer p).

(** From a cursor just before [s] the lexer returns a token. *)
Definition readable (s : string) : Prop :=
  forall pre l, before l pre s ->
                exists k l', Lexer.get_next_token l = Ok (k, l').

(** [s] can follow an operand: it does not continue a run of digits, and its
    first token is of one of the [allowed] kinds. *)
Definition follows (allowed : list TokenType) (s : string) : Prop :=
  ends_run s
  /\ forall pre l, before l pre s ->
                   exists k l', Lexer.get_next_token l = Ok (k, l')
                                /\ type_in (type k) allowed = true.

(** ** Expressions and their text *)

Inductive BinKind : Type := Add | Sub | Mul | Div.

(** Arithmetic expressions over integer literals, each literal with its
    digits. *)
Inductive expression : Type :=
| Lit (d : ascii) (ds : string)
| Unary (minus : bool) (e : expression)
| Binary (op : BinKind) (l r : expression).

(** The level of the grammar at which an operator is parsed: 0 for [expr],
    1 for [term]; 2 is [factor]. *)
Definition prec (op : BinKind) : nat :=
  match op with Add | Sub => 0 | Mul | Div => 1 end.

Definition symbol (op : BinKind) : ascii :=
  match op with Add => "+" | Sub => "-" | Mul => "*" | Div => "/" end%char.

Definition op_token (op : BinKind) : Token :=
  mkToken (match op with Add => PLUS | Sub => MINUS | Mul => MULT | Div => DIV end)
          (VStr (String (symbol op) "")).

Definition sign_token (minus : bool) : Token :=
  if minus then mkToken MINUS (VStr "-") else mkToken PLUS (VStr "+").

(** The text of an expression at a level of the grammar: binary operators
    between single spaces, the left operand at the level of the operator and
    the right operand one level up (left associativity), parentheses only
    around an operator met above its level. *)
Fixpoint print (lvl : nat) (e : expression) : string :=
  match e with
  | Lit d ds => String d ds
  | Unary minus e' => String (if minus then "-" else "+")%char (print 2 e')
  | Binary op l r =>
    let s := print (prec op) l
             ++ String " " (String (symbol op) (String " " (print (S (prec op)) r))) in
    if (lvl <=? prec op)%nat then s else "(" ++ s ++ ")"
  end.

(** The tree of an expression, with the tokens the lexer makes. *)
Fixpoint to_ast (e : expression) : Ast :=
  match e with
  | Lit d ds => Num (mkToken INTEGER (VInt (int_acc 0 (String d ds))))
  | Unary minus e' => UnaryOp (sign_token minus) (to_ast e')
  | Binary op l r => BinOp (op_token op) (to_ast l) (to_ast r)
  end.

Fixpoint literals_ok (e : expression) : bool :=
  match e with
  | Lit d ds => str_forallb isdecimal (String d ds)
  | Unary _ e' => literals_ok e'
  | Binary _ l r => literals_ok l && literals_ok r
  end.

(** The value of an expression in integer arithmetic with floor division;
    [None] when it divides by zero. *)
Fixpoint denote (e : expression) : option Z :=
  match e with
  | Lit d ds => Some (int_acc 0 (String d ds))
  | Unary minus e' =>
    match denote e' with
    | Some z => Some (if minus then - z else z)
    | None => None
    end
  | Binary op l r =>
    match denote l, denote r with
    | Some x, Some y =>
      match op with
      | Add => Some (x + y)
      | Sub => Some (x - y)
      | Mul => Some (x * y)
      | Div => if y =? 0 then None else Some (x / y)
      end
    | _, _ => None
    end
  end.

(** The kinds of token that may follow the text of an operand at a level. *)
Definition allowed (lvl : nat) : list TokenType :=
  match lvl with
  | O => [EOF; RPAREN; PLUS; MINUS]
  | _ => [EOF; RPAREN; PLUS; MINUS; MULT; DIV]
  end.

(** What parsing the text of a tree [a] at a level achieves, from the
    parser [p] before the text to the parser [p'] after it: at level 2
    [factor] returns [a]; at levels 1 and 0 [term] and [expr] go on as their
    loop does from [a]. *)
Definition parsed (lvl : nat) (a : Ast) (p p' : Parser.t) : Prop :=
  match lvl with
  | O => forall r, ExprLoop a p' r -> Expr p r
  | S O => forall r, TermLoop a p' r -> Term p r
  | _ => Factor p (Ok (a, p'))
  end.

(** ** The tokens of a text *)

(** The longest run of [isdigit] characters at the head of a text, and the
    rest of the text. *)
Fixpoint span_digits (s : string) : string * string :=
  match s with
  | EmptyString => ("", "")
  | String c s' =>
    if isdigit c then
      let (ds, rest) := span_digits s' in (String c ds, rest)
    else ("", s)
  end.

(** What [get_next_token] does, told on the unread text alone: the first
    token of the text and the text after that token. *)
Fixpoint next_token (s : string) : result (Token * string) :=
  match s with
  | EmptyString => Ok (mkToken EOF VNone, "")
  | String c s' =>
    if isdigit c then
      let (ds, rest) := span_digits s in
      n <- int_of_str ds ;;
      Ok (mkToken INTEGER (VInt n), rest)
    else
      match single_char_token c with
      | Some k => Ok (k, s')
      | None =>
        if isspace c then next_token s'
        else Ok (mkToken EOF VNone, s')
      end
  end.

(** Two texts with the same tokens up to the first EOF, or up to the same
    exception of the lexer. *)
Inductive same_tokens : string -> string -> Prop :=
| same_raise (s1 s2 : string) (e : exn) :
    next_token s1 = Raise e -> next_token s2 = Raise e -> same_tokens s1 s2
| same_EOF (s1 s2 : string) (k : Token) (r1 r2 : string) :
    next_token s1 = Ok (k, r1) -> next_token s2 = Ok (k, r2) ->
    type k = EOF -> same_tokens s1 s2
| same_token (s1 s2 : string) (k : Token) (r1 r2 : string) :
    next_token s1 = Ok (k, r1) -> next_token s2 = Ok (k, r2) ->
    same_tokens r1 r2 -> same_tokens s1 s2.

(** Two lexers that stand before texts with the same tokens. *)
Definition lexers_agree (l1 l2 : Lexer.t) : Prop :=
  exists pre1 pre2 s1 s2,
    before l1 pre1 s1 /\ before l2 pre2 s2 /\ same_tokens s1 s2.

(** Two parsers with the same lookahead whose lexers agree, unless the
    lookahead is EOF (after which the lexers are not called). *)
Definition parsers_agree (p1 p2 : Parser.t) : Prop :=
  Parser.curr_token p1 = Parser.curr_token p2
  /\ (type (Parser.curr_token p1) = EOF
      \/ lexers_agree (Parser.lexer p1) (Parser.lexer p2)).

(** Two results that agree: the same exception, or values related by [R]. *)
Definition results_agree {A : Type} (R : A -> A -> Prop) (r1 r2 : result A) : Prop :=
  match r1, r2 with
  | Ok a1, Ok a2 => R a1 a2
  | Raise e1, Raise e2 => e1 = e2
  | OutOfFuel, OutOfFuel => True
  | _, _ => False
  end.

Definition trees_agree (x1 x2 : Ast * Parser.t) : Prop :=
  fst x1 = fst x2 /\ parsers_agree (snd x1) (snd x2).

(** The last character of a text is a digit. *)
Fixpoint ends_with_digit (s : string) : bool :=
  match s with
  | EmptyString => false
  | String c EmptyString => isdigit c
  | String _ s' => ends_with_digit s'
  end.

(** The tokens the lexer makes: an INTEGER with a non-negative [int], an
    operator or a parenthesis with its character, EOF with [None]. *)
Definition valid_token (k : Token) : bool :=
  match type k, value k with
  | INTEGER, VInt n => 0 <=? n
  | PLUS, VStr s => String.eqb s "+"
  | MINUS, VStr s => String.eqb s "-"
  | MULT, VStr s => String.eqb s "*"
  | DIV, VStr s => String.eqb s "/"
  | LPAREN, VStr s => String.eqb s "("
  | RPAREN, VStr s => String.eqb s ")"
  | EOF, VNone => true
  | _, _ => false
  end.

(** The exceptions that leave the lexer and the parser: [ValueError] from
    [int], 'Invalid Factor', and the message of [eat] for a missing right
    parenthesis. *)
Definition parse_exn (e : exn) : Prop :=
  e = ValueError
  \/ e = Exception "Invalid Factor"
  \/ exists ty, e = Exception ("I was expecting for RPAREN but got "
                               ++ name ty ++ ".").

(** The lexer of [p] stands before some text, unless the lookahead is EOF. *)
Definition in_text (p : Parser.t) : Prop :=
  type (Parser.curr_token p) = EOF
  \/ exists pre s, before (Parser.lexer p) pre s.

(** A result that is a value satisfying [P] or one of the exceptions of
    parsing. *)
Definition parse_result {A : Type} (P : A -> Prop) (r : result A) : Prop :=
  match r with
  | Ok a => P a
  | Raise e => parse_exn e
  | OutOfFuel => True
  end.

(** A line that [main] answers with 'Invalid Input': it is not the quit
    command, its first token is read, and [parse] raises. *)
Definition rejected (line : string) : bool :=
  negb (String.eqb line ":q")
  && match Parser.__init__ (Lexer.__init__ line) with
     | Ok p => match Parser.parse p with Raise _ => true | _ => false end
     | _ => false
     end.

(** What [main] writes for a rejected line. *)
Definition invalid_input : list event :=
  [Prompt "pyparser > "; Print "Invalid Input"].

(** ** The grammar *)

(** The token sequences of the grammar, with the tree that each one stands
    for, by level: 0 for [expr], 1 for [term], 2 for [factor].

      expr   := term ((PLUS | MINUS) term)*
      term   := factor ((MULT | DIV) factor)*
      factor := INTEGER | (PLUS | MINUS) factor | LPAREN expr RPAREN

    The repetitions fold to the left. *)
Inductive derives : nat -> list Token -> Ast -> Prop :=
| derives_integer (k : Token) :
    type k = INTEGER -> derives 2 [k] (Num k)
| derives_sign (k : Token) (ts : list Token) (a : Ast) :
    type_in (type k) [PLUS; MINUS] = true -> derives 2 ts a ->
    derives 2 (k :: ts) (UnaryOp k a)
| derives_paren (l r : Token) (ts : list Token) (a : Ast) :
    type l = LPAREN -> derives 0 ts a -> type r = RPAREN ->
    derives 2 (l :: ts ++ [r])%list a
| derives_factor (ts : list Token) (a : Ast) :
    derives 2 ts a -> derives 1 ts a
| derives_mult (ts1 ts2 : list Token) (k : Token) (a b : Ast) :
    derives 1 ts1 a -> type_in (type k) [MULT; DIV] = true -> derives 2 ts2 b ->
    derives 1 (ts1 ++ k :: ts2)%list (BinOp k a b)
| derives_term (ts : list Token) (a : Ast) :
    derives 1 ts a -> derives 0 ts a
| derives_add (ts1 ts2 : list Token) (k : Token) (a b : Ast) :
    derives 0 ts1 a -> type_in (type k) [PLUS; MINUS] = true -> derives 1 ts2 b ->
    derives 0 (ts1 ++ k :: ts2)%list (BinOp k a b).

(** The text [s] starts with the tokens [ts], and [s'] is the text after
    them. *)
Inductive reads : string -> list Token -> string -> Prop :=
| reads_nil (s : string) : reads s [] s
| reads_cons (s r s' : string) (k : Token) (ts : list Token) :
    next_token s = Ok (k, r) -> reads r ts s' -> reads s (k :: ts) s'.

(** The first token of [s] is not an operator: it is EOF, an integer or a
    parenthesis. *)
Definition stops (s : string) : Prop :=
  exists k r, next_token s = Ok (k, r)
              /\ type_in (type k) [PLUS; MINUS; MULT; DIV] = false.

(** The line [s] begins with an expression of the grammar, whose tree is
    [a], and goes on with a token that is not an operator. *)
Definition begins_with (s : string) (a : Ast) : Prop :=
  exists ts s', derives 0 ts a /\ reads s ts s' /\ stops s'.

(** The parser stands at the text [s]: its lookahead is the first token of
    [s], and its lexer stands before the text after that token (unless the
    lookahead is EOF, after which the lexer is not called). *)
Definition stands_at (p : Parser.t) (s : string) : Prop :=
  exists r, next_token s = Ok (Parser.curr_token p, r)
            /\ (type (Parser.curr_token p) = EOF
                \/ exists pre, before (Parser.lexer p) pre r).

(** * Properties *)

Arguments Lexer.advance : simpl never.
Arguments Lexer.take_full_integer : simpl never.
Arguments Lexer.get_next_token : simpl never.
Arguments str_index : simpl never.
Arguments int_of_str : simpl never.
Arguments Parser.eat : simpl never.
Arguments Parser.parse : simpl never.

(** ** The cursor *)

Lemma bind_Ok {A B : Type} (m : result A) (k : A -> result B) (b : B) :
  bind m k = Ok b -> exists a, m = Ok a /\ k a = Ok b.
Proof.
  destruct m as [a | e |]; simpl; intros H; try discriminate.
  exists a; split; [reflexivity | exact H].
Qed.

Lemma bind_not_OutOfFuel {A B : Type} (m : result A) (k : A -> result B) :
  m <> OutOfFuel -> (forall a, m = Ok a -> k a <> OutOfFuel) ->
  bind m k <> OutOfFuel.
Proof.
  destruct m as [a | e |]; simpl; intros Hm Hk.
  - apply Hk; reflexivity.
  - discriminate.
  - congruence.
Qed.

Lemma str_index_not_OutOfFuel (s : string) (i : Z) : str_index s i <> OutOfFuel.
Proof.
  unfold str_index.
  destruct (_ <? 0); [discriminate |].
  destruct (String.get _ s); discriminate.
Qed.

Lemma advance_not_OutOfFuel (r : bool) (l : Lexer.t) :
  Lexer.advance r l <> OutOfFuel.
Proof.
  unfold Lexer.advance.
  destruct r; simpl.
  - destruct (_ >? 0); [| discriminate].
    apply bind_not_OutOfFuel; [apply str_index_not_OutOfFuel | discriminate].
  - destruct (_ <? _); [| discriminate].
    apply bind_not_OutOfFuel; [apply str_index_not_OutOfFuel | discriminate].
Qed.

Lemma advance_forward (l l' : Lexer.t) :
  Lexer.advance false l = Ok l' ->
  Lexer.source l' = Lexer.source l /\ Lexer.pos l' = Lexer.pos l + 1 /\ synced l'.
Proof.
  unfold Lexer.advance; simpl.
  destruct (Lexer.pos l + 1 <? len (Lexer.source l)) eqn:E.
  - intros H. apply bind_Ok in H. destruct H as (c & _ & H).
    injection H as <-. unfold synced; simpl.
    repeat split; try reflexivity.
    left. split; [lia | eauto].
  - intros H. injection H as <-. unfold synced; simpl.
    repeat split; try reflexivity.
    right. split; [lia | reflexivity].
Qed.

Lemma advance_reverse (l l' : Lexer.t) :
  Lexer.advance true l = Ok l' ->
  Lexer.source l' = Lexer.source l /\ Lexer.pos l' = Lexer.pos l - 1
  /\ Lexer.curr_token l' = Lexer.curr_token l.
Proof.
  unfold Lexer.advance; simpl.
  destruct (Lexer.pos l - 1 >? 0).
  - intros H. apply bind_Ok in H. destruct H as (c & _ & H).
    injection H as <-. simpl. auto.
  - intros H. injection H as <-. simpl. auto.
Qed.

Ltac bind_inv H :=
  let a := fresh "a" in
  let Ha := fresh "Ha" in
  apply bind_Ok in H; destruct H as (a & Ha & H).

Lemma synced_remaining (l : Lexer.t) (c : ascii) :
  synced l -> Lexer.curr_char l = Lexer.CChr c -> (0 < Lexer.remaining l)%nat.
Proof.
  intros [[Hp _] | [_ Hc]] E; [| congruence].
  unfold Lexer.remaining. lia.
Qed.

Lemma take_digits_fuel (fuel : nat) :
  forall (full : string) (l : Lexer.t),
    synced l -> (Lexer.remaining l < fuel)%nat ->
    Lexer.take_digits fuel full l <> OutOfFuel.
Proof.
  induction fuel as [| fuel IH]; intros full l Hs Hf; [lia |].
  simpl. unfold Lexer.curr_char_is_digit.
  destruct (Lexer.curr_char l) as [| c | k] eqn:Ec; simpl; try discriminate.
  destruct (isdigit c); [| discriminate].
  apply bind_not_OutOfFuel; [apply advance_not_OutOfFuel |].
  intros l' Hl'. apply advance_forward in Hl' as (Hsrc & Hpos & Hs').
  apply IH; [exact Hs' |].
  pose proof (synced_remaining Hs Ec) as Hr.
  unfold Lexer.remaining in *. rewrite Hsrc, Hpos. lia.
Qed.

Lemma take_digits_cursor (fuel : nat) :
  forall (full s : string) (l l' : Lexer.t),
    synced l ->
    Lexer.take_digits fuel full l = Ok (s, l') ->
    Lexer.source l' = Lexer.source l
    /\ Lexer.pos l <= Lexer.pos l'
    /\ (Lexer.pos l' <= len (Lexer.source l) \/ l' = l)
    /\ (Lexer.curr_char_is_digit l = Ok true -> Lexer.pos l < Lexer.pos l').
Proof.
  induction fuel as [| fuel IH]; intros full s l l' Hs H; [discriminate |].
  simpl in H. bind_inv H. destruct a.
  - destruct (Lexer.curr_char l) as [| c | k] eqn:Ec; try discriminate.
    bind_inv H. apply advance_forward in Ha0 as (Hsrc & Hpos & Hs').
    apply IH in H as (Hsrc' & Hle & Hlen & _); [| exact Hs'].
    destruct Hs as [[Hp _] | [_ Hc]]; [| congruence].
    repeat split.
    + congruence.
    + lia.
    + left. destruct Hlen as [Hlen | ->]; [rewrite <- Hsrc; exact Hlen | lia].
    + intros _. lia.
  - injection H as <- <-. repeat split.
    + lia.
    + right; reflexivity.
    + congruence.
Qed.

Lemma take_digits_fuel_any (fuel : nat) (full : string) (l : Lexer.t) :
  (Lexer.remaining l < fuel)%nat ->
  Lexer.take_digits (S fuel) full l <> OutOfFuel.
Proof.
  intros Hf. simpl. unfold Lexer.curr_char_is_digit.
  destruct (Lexer.curr_char l) as [| c | k] eqn:Ec; simpl; try discriminate.
  destruct (isdigit c); [| discriminate].
  apply bind_not_OutOfFuel; [apply advance_not_OutOfFuel |].
  intros l' Hl'. apply advance_forward in Hl' as (Hsrc & Hpos & Hs').
  apply take_digits_fuel; [exact Hs' |].
  unfold Lexer.remaining in *. rewrite Hsrc, Hpos. lia.
Qed.

Lemma int_of_str_not_OutOfFuel (s : string) : int_of_str s <> OutOfFuel.
Proof.
  unfold int_of_str. destruct s; [discriminate |].
  destruct (str_forallb _ _); discriminate.
Qed.

Lemma take_full_integer_not_OutOfFuel (l : Lexer.t) :
  Lexer.take_full_integer l <> OutOfFuel.
Proof.
  unfold Lexer.take_full_integer.
  apply bind_not_OutOfFuel.
  - apply take_digits_fuel_any. lia.
  - intros [s l1] _.
    apply bind_not_OutOfFuel; [apply advance_not_OutOfFuel |].
    intros l2 _.
    apply bind_not_OutOfFuel; [apply int_of_str_not_OutOfFuel | discriminate].
Qed.

Lemma take_full_integer_cursor (l l' : Lexer.t) (n : Z) :
  synced l -> Lexer.curr_char_is_digit l = Ok true ->
  Lexer.take_full_integer l = Ok (n, l') ->
  Lexer.source l' = Lexer.source l
  /\ Lexer.pos l <= Lexer.pos l' < len (Lexer.source l).
Proof.
  intros Hs Hd H. unfold Lexer.take_full_integer in H.
  bind_inv H. destruct a as [s l1].
  bind_inv H. bind_inv H. injection H as _ <-.
  apply take_digits_cursor in Ha as (Hsrc & Hle & Hlen & Hlt); [| exact Hs].
  apply advance_reverse in Ha0 as (Hsrc' & Hpos & _).
  specialize (Hlt Hd).
  split; [congruence |].
  destruct Hlen as [Hlen | ->]; lia.
Qed.

(** ** Totality: the lexer *)

Lemma get_next_token_aux_fuel (fuel : nat) :
  forall l : Lexer.t,
    (Lexer.remaining l < fuel)%nat ->
    Lexer.get_next_token_aux fuel l <> OutOfFuel.
Proof.
  induction fuel as [| fuel IH]; intros l Hf; [lia |].
  cbn [Lexer.get_next_token_aux].
  apply bind_not_OutOfFuel; [apply advance_not_OutOfFuel |].
  intros l1 Hl1. apply advance_forward in Hl1 as (Hsrc & Hpos & Hs).
  unfold Lexer.token_eq_type. cbn [orb].
  destruct (Lexer.pos l1 >=? len (Lexer.source l1)) eqn:Eend; [discriminate |].
  unfold Lexer.curr_char_is_digit, Lexer.curr_char_is_operation,
    Lexer.curr_char_is_lparen, Lexer.curr_char_is_rparen,
    Lexer.curr_char_is_space.
  destruct (Lexer.curr_char l1) as [| c | k]; cbn [bind]; try discriminate.
  destruct (isdigit c).
  { apply bind_not_OutOfFuel; [apply take_full_integer_not_OutOfFuel |].
    intros [n l2] _. discriminate. }
  destruct (Lexer.lookup c Lexer.operations); [discriminate |].
  destruct (Ascii.eqb c "("); [discriminate |].
  destruct (Ascii.eqb c ")"); [discriminate |].
  destruct (isspace c); [| discriminate].
  apply IH. unfold Lexer.remaining in *. rewrite Hsrc, Hpos in *. lia.
Qed.

Lemma get_next_token_total (l : Lexer.t) : Lexer.get_next_token l <> OutOfFuel.
Proof.
  unfold Lexer.get_next_token. apply get_next_token_aux_fuel. lia.
Qed.

(** A call of [get_next_token] moves the cursor forward, keeps the source,
    and leaves the cursor inside the source when the token is not EOF. *)
Lemma get_next_token_aux_cursor (fuel : nat) :
  forall (l l' : Lexer.t) (k : Token),
    Lexer.get_next_token_aux fuel l = Ok (k, l') ->
    Lexer.source l' = Lexer.source l
    /\ Lexer.pos l < Lexer.pos l'
    /\ (type k <> EOF -> Lexer.pos l' < len (Lexer.source l))
    /\ Lexer.curr_token l' = k.
Proof.
  induction fuel as [| fuel IH]; intros l l' k H; [discriminate |].
  cbn [Lexer.get_next_token_aux] in H.
  bind_inv H. rename a into l1.
  pose proof (advance_forward _ Ha) as (Hsrc & Hpos & Hs).
  unfold Lexer.token_eq_type in H. cbn [orb] in H.
  destruct (Lexer.pos l1 >=? len (Lexer.source l1)) eqn:Eend.
  { injection H as <- <-. simpl. repeat split; try congruence; lia. }
  bind_inv H. destruct a.
  { bind_inv H. destruct a as [n l2]. injection H as <- <-.
    apply take_full_integer_cursor in Ha1 as (Hsrc2 & Hp2); [| exact Hs | exact Ha0].
    simpl. rewrite Hsrc in *. repeat split; try congruence; lia. }
  bind_inv H. destruct a.
  { destruct (Lexer.curr_char l1) as [| c | k']; try discriminate.
    destruct (Lexer.lookup c Lexer.operations); try discriminate.
    injection H as <- <-. simpl. rewrite Hsrc in *.
    repeat split; try congruence; lia. }
  bind_inv H. destruct a.
  { injection H as <- <-. simpl. rewrite Hsrc in *.
    repeat split; try congruence; lia. }
  bind_inv H. destruct a.
  { injection H as <- <-. simpl. rewrite Hsrc in *.
    repeat split; try congruence; lia. }
  bind_inv H. destruct a.
  { apply IH in H as (Hsrc' & Hlt & Hin & Hk). rewrite Hsrc in *.
    repeat split; try congruence; try lia.
    intros Hne. specialize (Hin Hne). lia. }
  injection H as <- <-. simpl. repeat split; try congruence; lia.
Qed.

(** ** Totality: the parser *)

Lemma eat_not_OutOfFuel (p : Parser.t) (tys : list TokenType) :
  Parser.eat p tys <> OutOfFuel.
Proof.
  unfold Parser.eat. destruct (type_in _ tys); [| discriminate].
  apply bind_not_OutOfFuel; [apply get_next_token_total |].
  intros [k l] _. discriminate.
Qed.

Lemma eat_Ok (p p' : Parser.t) (tys : list TokenType) :
  Parser.eat p tys = Ok p' ->
  type_in (type (Parser.curr_token p)) tys = true
  /\ Lexer.get_next_token (Parser.lexer p)
     = Ok (Parser.curr_token p', Parser.lexer p').
Proof.
  unfold Parser.eat. destruct (type_in _ tys); [| discriminate].
  intros H. bind_inv H. destruct a as [k l]. injection H as <-.
  split; [reflexivity | exact Ha].
Qed.

Lemma TokenType_eqb_eq (a b : TokenType) : TokenType_eqb a b = true <-> a = b.
Proof.
  split; [| intros ->; destruct b; reflexivity].
  destruct a, b; simpl; intros H; try discriminate; reflexivity.
Qed.

(** Every successful [eat] of a token other than EOF brings the parser
    closer to the end of the source. *)
Lemma eat_measure (p p' : Parser.t) (tys : list TokenType) :
  type_in EOF tys = false ->
  Parser.eat p tys = Ok p' ->
  (Parser.measure p' < Parser.measure p)%nat.
Proof.
  intros Hn H. apply eat_Ok in H as (Hin & Hg).
  assert (Hne : TokenType_eqb (type (Parser.curr_token p)) EOF = false).
  { destruct (TokenType_eqb _ EOF) eqn:E; [| reflexivity].
    apply TokenType_eqb_eq in E. rewrite E in Hin. congruence. }
  unfold Lexer.get_next_token in Hg.
  apply get_next_token_aux_cursor in Hg as (Hsrc & Hlt & Hinside & _).
  unfold Parser.measure, Lexer.remaining. rewrite Hne, Hsrc.
  destruct (TokenType_eqb (type (Parser.curr_token p')) EOF) eqn:E.
  - lia.
  - assert (Hk : type (Parser.curr_token p') <> EOF).
    { intros Hk. rewrite Hk in E. discriminate. }
    specialize (Hinside Hk). lia.
Qed.

Ltac eat_step H Hm :=
  let p1 := fresh "p" in
  let He := fresh "He" in
  apply bind_Ok in H; destruct H as (p1 & He & H);
  pose proof He as Hm; apply eat_measure in Hm; [| reflexivity].

Lemma parser_measure (fuel : nat) :
  forall (p p' : Parser.t) (a : Ast),
    (Parser.factor fuel p = Ok (a, p') ->
     (Parser.measure p' < Parser.measure p)%nat)
    /\ (forall f, Parser.term_loop fuel f p = Ok (a, p') ->
        (Parser.measure p' <= Parser.measure p)%nat)
    /\ (Parser.term fuel p = Ok (a, p') ->
        (Parser.measure p' < Parser.measure p)%nat)
    /\ (forall f, Parser.expr_loop fuel f p = Ok (a, p') ->
        (Parser.measure p' <= Parser.measure p)%nat)
    /\ (Parser.expr fuel p = Ok (a, p') ->
        (Parser.measure p' < Parser.measure p)%nat).
Proof.
  induction fuel as [| fuel IH]; intros p p' a.
  { repeat split; intros; discriminate. }
  repeat split.
  - intros H. cbn [Parser.factor] in H.
    destruct (TokenType_eqb (type (Parser.curr_token p)) INTEGER).
    { eat_step H Hm. injection H as _ <-. exact Hm. }
    destruct (TokenType_eqb (type (Parser.curr_token p)) LPAREN).
    { eat_step H Hm. bind_inv H. destruct a0 as [n p1].
      eat_step H Hm2. injection H as _ <-.
      apply IH in Ha. lia. }
    destruct (type_in (type (Parser.curr_token p)) [PLUS; MINUS]);
      [| discriminate].
    eat_step H Hm. bind_inv H. destruct a0 as [n p1]. injection H as _ <-.
    apply IH in Ha. lia.
  - intros f H. cbn [Parser.term_loop] in H.
    destruct (type_in (type (Parser.curr_token p)) [MULT; DIV]).
    + eat_step H Hm. bind_inv H. destruct a0 as [n p1].
      apply IH in Ha. apply IH in H. lia.
    + injection H as _ <-. lia.
  - intros H. cbn [Parser.term] in H.
    bind_inv H. destruct a0 as [n p1].
    apply IH in Ha. apply IH in H. lia.
  - intros f H. cbn [Parser.expr_loop] in H.
    destruct (type_in (type (Parser.curr_token p)) [PLUS; MINUS]).
    + eat_step H Hm. bind_inv H. destruct a0 as [n p1].
      apply IH in Ha. apply IH in H. lia.
    + injection H as _ <-. lia.
  - intros H. cbn [Parser.expr] in H.
    bind_inv H. destruct a0 as [n p1].
    apply IH in Ha. apply IH in H. lia.
Qed.

Ltac eat_total p1 Hm :=
  let He := fresh "He" in
  apply bind_not_OutOfFuel; [apply eat_not_OutOfFuel |];
  intros p1 He; pose proof He as Hm; apply eat_measure in Hm; [| reflexivity].

Lemma parser_fuel (n : nat) :
  forall p : Parser.t,
    (Parser.measure p < n)%nat ->
    (forall fuel, (3 * Parser.measure p + 1 <= fuel)%nat ->
                  Parser.factor fuel p <> OutOfFuel)
    /\ (forall fuel f, (3 * Parser.measure p + 1 <= fuel)%nat ->
                       Parser.term_loop fuel f p <> OutOfFuel)
    /\ (forall fuel, (3 * Parser.measure p + 2 <= fuel)%nat ->
                     Parser.term fuel p <> OutOfFuel)
    /\ (forall fuel f, (3 * Parser.measure p + 2 <= fuel)%nat ->
                       Parser.expr_loop fuel f p <> OutOfFuel)
    /\ (forall fuel, (3 * Parser.measure p + 3 <= fuel)%nat ->
                     Parser.expr fuel p <> OutOfFuel).
Proof.
  induction n as [| n IH]; intros p Hp; [lia |].
  assert (Hfactor : forall fuel, (3 * Parser.measure p + 1 <= fuel)%nat ->
                                 Parser.factor fuel p <> OutOfFuel).
  { intros [| fuel] Hf; [lia |]. cbn [Parser.factor].
    destruct (TokenType_eqb (type (Parser.curr_token p)) INTEGER).
    { eat_total p1 Hm. discriminate. }
    destruct (TokenType_eqb (type (Parser.curr_token p)) LPAREN).
    { eat_total p1 Hm.
      apply bind_not_OutOfFuel; [apply IH; lia |].
      intros [a p2] _.
      apply bind_not_OutOfFuel; [apply eat_not_OutOfFuel | discriminate]. }
    destruct (type_in (type (Parser.curr_token p)) [PLUS; MINUS]);
      [| discriminate].
    eat_total p1 Hm.
    apply bind_not_OutOfFuel; [apply IH; lia |].
    intros [a p2] _. discriminate. }
  assert (Hterm : forall fuel, (3 * Parser.measure p + 2 <= fuel)%nat ->
                               Parser.term fuel p <> OutOfFuel).
  { intros [| fuel] Hf; [lia |]. cbn [Parser.term].
    apply bind_not_OutOfFuel; [apply Hfactor; lia |].
    intros [a p1] Ha. apply parser_measure in Ha.
    apply IH; lia. }
  repeat split.
  - exact Hfactor.
  - intros [| fuel] f Hf; [lia |]. cbn [Parser.term_loop].
    destruct (type_in (type (Parser.curr_token p)) [MULT; DIV]);
      [| discriminate].
    eat_total p1 Hm.
    apply bind_not_OutOfFuel; [apply IH; lia |].
    intros [a p2] Ha. apply parser_measure in Ha.
    apply IH; lia.
  - exact Hterm.
  - intros [| fuel] f Hf; [lia |]. cbn [Parser.expr_loop].
    destruct (type_in (type (Parser.curr_token p)) [PLUS; MINUS]);
      [| discriminate].
    eat_total p1 Hm.
    apply bind_not_OutOfFuel; [apply IH; lia |].
    intros [a p2] Ha. apply parser_measure in Ha.
    apply IH; lia.
  - intros [| fuel] Hf; [lia |]. cbn [Parser.expr].
    apply bind_not_OutOfFuel; [apply Hterm; lia |].
    intros [a p1] Ha. apply parser_measure in Ha.
    apply IH; lia.
Qed.

(** [parse] never exhausts the fuel it gives itself. *)
Lemma parse_total (p : Parser.t) : Parser.parse p <> OutOfFuel.
Proof.
  unfold Parser.parse.
  apply (parser_fuel (n := S (Parser.measure p))); lia.
Qed.

Lemma Parser_init_total (l : Lexer.t) : Parser.__init__ l <> OutOfFuel.
Proof.
  unfold Parser.__init__.
  apply bind_not_OutOfFuel; [apply get_next_token_total |].
  intros [k l'] _. discriminate.
Qed.

Lemma visit_total (a : Ast) : Interpreter.visit a <> OutOfFuel.
Proof.
  induction a as [k | k e IHe | k l IHl r IHr | k]; simpl; try discriminate.
  - destruct (TokenType_eqb (type k) MINUS);
      (apply bind_not_OutOfFuel; [exact IHe |]);
      intros [| z | s] _; discriminate.
  - apply bind_not_OutOfFuel.
    { destruct (type k); simpl; discriminate. }
    intros op Hop.
    apply bind_not_OutOfFuel; [exact IHl |]. intros x _.
    apply bind_not_OutOfFuel; [exact IHr |]. intros y _.
    destruct (type k); simpl in Hop; try discriminate;
      injection Hop as <-; destruct x, y; simpl; try discriminate.
    destruct (_ =? 0); discriminate.
Qed.

(** The whole pipeline returns a value or raises: it never exhausts the
    fuel of the model. *)
Lemma evaluate_total (s : string) : evaluate s <> OutOfFuel.
Proof.
  unfold evaluate.
  apply bind_not_OutOfFuel; [apply Parser_init_total |]. intros p _.
  apply bind_not_OutOfFuel; [apply parse_total |]. intros [a p'] _.
  simpl. apply visit_total.
Qed.

(** ** Reading the source from a known position *)

Lemma length_append (a b : string) :
  String.length (a ++ b) = (String.length a + String.length b)%nat.
Proof. induction a as [| c a IH]; simpl; [reflexivity | now rewrite IH]. Qed.

Lemma get_append (a b : string) (c : ascii) :
  String.get (String.length a) (a ++ String c b) = Some c.
Proof. induction a as [| x a IH]; simpl; [reflexivity | exact IH]. Qed.

Lemma append_snoc (a b : string) (c : ascii) :
  (a ++ String c "") ++ b = a ++ String c b.
Proof. induction a as [| x a IH]; simpl; [reflexivity | now rewrite IH]. Qed.

Lemma append_nil_r (a : string) : a ++ "" = a.
Proof. induction a as [| x a IH]; simpl; [reflexivity | now rewrite IH]. Qed.

Lemma append_assoc (a b c : string) : (a ++ b) ++ c = a ++ (b ++ c).
Proof. induction a as [| x a IH]; simpl; [reflexivity | now rewrite IH]. Qed.

Lemma len_append (a b : string) : len (a ++ b) = len a + len b.
Proof. unfold len. rewrite length_append. lia. Qed.

Lemma len_String (c : ascii) (s : string) : len (String c s) = 1 + len s.
Proof. unfold len. simpl String.length. lia. Qed.

Lemma len_nonneg (s : string) : 0 <= len s.
Proof. unfold len. lia. Qed.

Lemma str_index_append (pre s : string) (c : ascii) :
  str_index (pre ++ String c s) (len pre) = Ok c.
Proof.
  unfold str_index. pose proof (len_nonneg pre) as Hn.
  destruct (len pre <? 0) eqn:E; [lia |]. rewrite E.
  unfold len. rewrite Nat2Z.id, get_append. reflexivity.
Qed.

Lemma advance_before_char (l : Lexer.t) (pre s : string) (c : ascii) :
  before l pre (String c s) ->
  Lexer.advance false l
  = Ok (Lexer.mk (Lexer.source l) (len pre) (Lexer.CChr c) (Lexer.curr_token l)).
Proof.
  intros [Hsrc Hpos]. unfold Lexer.advance. cbn [Lexer.source Lexer.pos].
  rewrite Hpos, Hsrc.
  replace (len pre - 1 + 1) with (len pre) by lia.
  rewrite len_append, len_String. pose proof (len_nonneg s) as Hn.
  destruct (len pre <? len pre + (1 + len s)) eqn:E; [| lia].
  rewrite str_index_append. reflexivity.
Qed.

Lemma advance_before_end (l : Lexer.t) (pre : string) :
  before l pre "" ->
  Lexer.advance false l
  = Ok (Lexer.mk (Lexer.source l) (len pre) Lexer.CNone (mkToken EOF VNone)).
Proof.
  intros [Hsrc Hpos]. unfold Lexer.advance. cbn [Lexer.source Lexer.pos].
  rewrite Hpos, Hsrc, append_nil_r.
  replace (len pre - 1 + 1) with (len pre) by lia.
  destruct (len pre <? len pre) eqn:E; [lia |]. reflexivity.
Qed.

Lemma before_init (s : string) : before (Lexer.__init__ s) "" s.
Proof. split; reflexivity. Qed.

(** ** Characters the lexer does not recognize *)

Lemma unrecognized_inv (c : ascii) :
  unrecognized c = true ->
  isdigit c = false /\ Lexer.lookup c Lexer.operations = None
  /\ Ascii.eqb c "(" = false /\ Ascii.eqb c ")" = false /\ isspace c = false.
Proof.
  unfold unrecognized, is_operation. intros H.
  repeat (apply andb_true_iff in H; destruct H as [H ?]).
  repeat match goal with
         | X : negb _ = true |- _ => apply negb_true_iff in X
         end.
  destruct (Lexer.lookup c Lexer.operations); [discriminate |].
  repeat split; assumption.
Qed.

Lemma isspace_not_token (c : ascii) :
  isspace c = true ->
  isdigit c = false /\ Lexer.lookup c Lexer.operations = None
  /\ Ascii.eqb c "(" = false /\ Ascii.eqb c ")" = false.
Proof.
  destruct c as [b0 b1 b2 b3 b4 b5 b6 b7].
  destruct b0, b1, b2, b3, b4, b5, b6, b7; vm_compute; intros H;
    try discriminate; repeat split.
Qed.

Lemma get_next_token_aux_unrecognized (fuel : nat) (l l1 : Lexer.t) (c : ascii) :
  Lexer.advance false l = Ok l1 ->
  Lexer.pos l1 < len (Lexer.source l1) ->
  Lexer.curr_char l1 = Lexer.CChr c ->
  unrecognized c = true ->
  Lexer.get_next_token_aux (S fuel) l
  = Ok (mkToken EOF VNone, Lexer.set_curr_token l1 (mkToken EOF VNone)).
Proof.
  intros Ha Hpos Hc Hu.
  apply unrecognized_inv in Hu as (Hd & Ho & Hl & Hr & Hs).
  cbn [Lexer.get_next_token_aux]. rewrite Ha. cbn [bind].
  unfold Lexer.token_eq_type. cbn [orb].
  destruct (Lexer.pos l1 >=? len (Lexer.source l1)) eqn:E; [lia |].
  unfold Lexer.curr_char_is_digit, Lexer.curr_char_is_operation,
    Lexer.curr_char_is_lparen, Lexer.curr_char_is_rparen,
    Lexer.curr_char_is_space.
  rewrite Hc. cbn [bind]. rewrite Hd, Ho. cbn [bind]. rewrite Hl, Hr, Hs.
  reflexivity.
Qed.

(** From a cursor just before [s], the next token is EOF exactly when [s]
    holds no token. *)
Lemma get_next_token_aux_no_tokens (s : string) :
  forall (pre : string) (fuel : nat) (l : Lexer.t),
    before l pre s -> (String.length s < fuel)%nat ->
    if no_tokens s
    then exists l', Lexer.get_next_token_aux fuel l = Ok (mkToken EOF VNone, l')
    else forall k l', Lexer.get_next_token_aux fuel l = Ok (k, l') ->
                      type k <> EOF.
Proof.
  induction s as [| c s IH]; intros pre fuel l Hb Hf.
  - destruct fuel as [| fuel]; [simpl in Hf; lia |].
    cbn [no_tokens Lexer.get_next_token_aux].
    rewrite (advance_before_end Hb). cbn [bind Lexer.pos Lexer.source].
    unfold Lexer.token_eq_type. cbn [orb].
    destruct Hb as [Hsrc _]. rewrite Hsrc, append_nil_r.
    destruct (len pre >=? len pre) eqn:E; [| lia].
    eexists. reflexivity.
  - destruct fuel as [| fuel]; [simpl in Hf; lia |].
    simpl in Hf. pose proof (advance_before_char Hb) as Ha.
    assert (Hin : len pre < len (Lexer.source l)).
    { destruct Hb as [Hsrc _]. rewrite Hsrc, len_append, len_String.
      pose proof (len_nonneg s). lia. }
    cbn [no_tokens]. destruct (isspace c) eqn:Esp.
    + assert (Hrec : Lexer.get_next_token_aux (S fuel) l
                     = Lexer.get_next_token_aux fuel
                         (Lexer.mk (Lexer.source l) (len pre) (Lexer.CChr c)
                                   (Lexer.curr_token l))).
      { apply isspace_not_token in Esp as Hn. destruct Hn as (Hd & Ho & Hl & Hr).
        cbn [Lexer.get_next_token_aux]. rewrite Ha.
        cbn [bind Lexer.pos Lexer.source].
        unfold Lexer.token_eq_type. cbn [orb].
        destruct (len pre >=? len (Lexer.source l)) eqn:E; [lia |].
        unfold Lexer.curr_char_is_digit, Lexer.curr_char_is_operation,
          Lexer.curr_char_is_lparen, Lexer.curr_char_is_rparen,
          Lexer.curr_char_is_space.
        cbn [Lexer.curr_char bind]. rewrite Hd, Ho. cbn [bind].
        rewrite Hl, Hr, Esp. reflexivity. }
      rewrite Hrec. apply (IH (pre ++ String c "")); [| lia].
      destruct Hb as [Hsrc Hpos]. split; cbn [Lexer.source Lexer.pos].
      * rewrite append_snoc. exact Hsrc.
      * rewrite len_append, len_String. change (len "") with 0. lia.
    + destruct (unrecognized c) eqn:Eu.
      * eexists. apply get_next_token_aux_unrecognized with (c := c);
          [exact Ha | exact Hin | reflexivity | exact Eu].
      * intros k l' H. cbn [Lexer.get_next_token_aux] in H. rewrite Ha in H.
        cbn [bind Lexer.pos Lexer.source] in H.
        unfold Lexer.token_eq_type in H. cbn [orb] in H.
        destruct (len pre >=? len (Lexer.source l)) eqn:E; [lia |].
        unfold Lexer.curr_char_is_digit, Lexer.curr_char_is_operation,
          Lexer.curr_char_is_lparen, Lexer.curr_char_is_rparen,
          Lexer.curr_char_is_space in H.
        cbn [Lexer.curr_char bind] in H.
        destruct (isdigit c) eqn:Ed.
        { bind_inv H. destruct a as [n l2]. injection H as <- _.
          simpl. discriminate. }
        cbn [bind] in H.
        destruct (Lexer.lookup c Lexer.operations) as [ty |] eqn:Eo.
        { cbn [bind] in H. injection H as <- _. simpl.
          unfold Lexer.operations in Eo. simpl in Eo.
          repeat match type of Eo with
                 | (if ?b then _ else _) = _ => destruct b
                 end; try discriminate; injection Eo as <-; discriminate. }
        cbn [bind] in H.
        destruct (Ascii.eqb c "(") eqn:El.
        { injection H as <- _. simpl. discriminate. }
        destruct (Ascii.eqb c ")") eqn:Er.
        { injection H as <- _. simpl. discriminate. }
        rewrite Esp in H. exfalso.
        unfold unrecognized, is_operation in Eu.
        rewrite Ed, Eo, El, Er, Esp in Eu. discriminate.
Qed.

(** ** Lexing a run of digits *)

Lemma advance_to (l : Lexer.t) (pre s : string) :
  Lexer.source l = pre ++ s -> Lexer.pos l + 1 = len pre ->
  exists l', Lexer.advance false l = Ok l' /\ cursor_on l' pre s.
Proof.
  intros Hsrc Hpos. unfold Lexer.advance.
  cbn [Lexer.source Lexer.pos]. rewrite Hpos, Hsrc.
  destruct s as [| c s].
  - rewrite append_nil_r.
    destruct (len pre <? len pre) eqn:E; [lia |].
    eexists. split; [reflexivity |].
    repeat split; cbn [Lexer.source Lexer.pos Lexer.curr_char
                         Lexer.set_curr_token Lexer.set_curr_char].
    now rewrite append_nil_r.
  - rewrite str_index_append, len_append, len_String.
    pose proof (len_nonneg s) as Hn.
    destruct (len pre <? len pre + (1 + len s)) eqn:E; [| lia].
    cbn [bind]. eexists. split; [reflexivity |].
    repeat split.
Qed.

Lemma advance_cursor_on (l : Lexer.t) (pre s : string) (c : ascii) :
  cursor_on l pre (String c s) ->
  exists l', Lexer.advance false l = Ok l'
             /\ cursor_on l' (pre ++ String c "") s.
Proof.
  intros (Hsrc & Hpos & _). apply advance_to.
  - rewrite append_snoc. exact Hsrc.
  - rewrite len_append, len_String. change (len "") with 0. lia.
Qed.

Lemma take_digits_run (ds : string) :
  forall (pre rest : string) (fuel : nat) (full : string) (l : Lexer.t),
    str_forallb isdigit ds = true -> ends_run rest ->
    cursor_on l pre (ds ++ rest) -> (String.length ds < fuel)%nat ->
    exists l', Lexer.take_digits fuel full l = Ok (full ++ ds, l')
               /\ cursor_on l' (pre ++ ds) rest.
Proof.
  induction ds as [| d ds IH]; intros pre rest fuel full l Hd He Hc Hf;
    (destruct fuel as [| fuel]; [simpl in Hf; lia |]).
  - cbn [Lexer.take_digits]. unfold Lexer.curr_char_is_digit.
    destruct Hc as (Hsrc & Hpos & Hch). simpl in Hsrc, Hch.
    rewrite !append_nil_r.
    exists l. split; [| repeat split; assumption].
    rewrite Hch. destruct rest as [| c rest]; [reflexivity |].
    simpl in He. cbn [bind]. rewrite He. reflexivity.
  - simpl in Hd. apply andb_true_iff in Hd as [Hd Hds].
    pose proof Hc as (_ & _ & Hch). simpl in Hch.
    apply advance_cursor_on in Hc as (l1 & Ha & Hc1).
    cbn [Lexer.take_digits]. unfold Lexer.curr_char_is_digit.
    rewrite Hch. cbn [bind]. rewrite Hd, Ha. cbn [bind].
    destruct (IH (pre ++ String d "") rest fuel (full ++ String d "") l1)
      as (l' & Ht & Hc'); try assumption.
    { simpl in Hf. lia. }
    exists l'. rewrite Ht, !append_snoc in *. split; [reflexivity | exact Hc'].
Qed.

Lemma get_in_range (s : string) :
  forall n : nat, (n < String.length s)%nat -> exists c, String.get n s = Some c.
Proof.
  induction s as [| x s IH]; intros n Hn; simpl in Hn; [lia |].
  destruct n as [| n]; simpl; [eauto |]. apply IH. lia.
Qed.

Lemma advance_reverse_Ok (l : Lexer.t) :
  Lexer.pos l - 1 < len (Lexer.source l) ->
  exists l', Lexer.advance true l = Ok l'.
Proof.
  intros H. unfold Lexer.advance. cbn [Lexer.source Lexer.pos].
  destruct (Lexer.pos l - 1 >? 0) eqn:E; [| eauto].
  unfold str_index. destruct (Lexer.pos l - 1 <? 0) eqn:E0; [lia |].
  rewrite E0.
  destruct (@get_in_range (Lexer.source l) (Z.to_nat (Lexer.pos l - 1)))
    as (c & Hc).
  { unfold len in H. lia. }
  rewrite Hc. cbn [bind]. eauto.
Qed.

Lemma isdecimal_isdigit (c : ascii) : isdecimal c = true -> isdigit c = true.
Proof. unfold isdigit. intros ->. reflexivity. Qed.

Lemma str_forallb_impl (f g : ascii -> bool) (s : string) :
  (forall c, f c = true -> g c = true) ->
  str_forallb f s = true -> str_forallb g s = true.
Proof.
  intros Hfg. induction s as [| c s IH]; simpl; [reflexivity |].
  intros H. apply andb_true_iff in H as [Hc Hs].
  rewrite (Hfg _ Hc), (IH Hs). reflexivity.
Qed.

(** On a run [ds] of digit characters that ends where [rest] begins,
    [take_full_integer] reads the whole run, steps back onto its last
    character, and converts the run. *)
Lemma take_full_integer_run (l : Lexer.t) (pre ds rest : string) :
  str_forallb isdigit ds = true -> ends_run rest ->
  cursor_on l pre (ds ++ rest) ->
  exists l', before l' (pre ++ ds) rest
             /\ Lexer.take_full_integer l
                = (n <- int_of_str ds ;; Ok (n, l')).
Proof.
  intros Hd He Hc.
  destruct (@take_digits_run ds pre rest (S (S (Lexer.remaining l))) "" l)
    as (l1 & Ht & Hsrc1 & Hpos1 & _); try assumption.
  { destruct Hc as (Hsrc & Hpos & _). unfold Lexer.remaining.
    rewrite Hsrc, Hpos, !len_append. unfold len. lia. }
  destruct (@advance_reverse_Ok l1) as (l2 & Ha).
  { rewrite Hsrc1, Hpos1, !len_append. pose proof (len_nonneg rest). lia. }
  pose proof (advance_reverse _ Ha) as (Hsrc2 & Hpos2 & _).
  exists l2. split.
  - split; [congruence | lia].
  - unfold Lexer.take_full_integer. rewrite Ht. cbn [bind append].
    rewrite Ha. reflexivity.
Qed.

(** From a cursor just before a maximal run [ds] of decimal digits,
    [get_next_token] returns the INTEGER token of its base-10 value and
    leaves the cursor on the last digit. *)
Lemma get_next_token_digits (l : Lexer.t) (pre rest : string) (d : ascii) (ds : string) :
  str_forallb isdecimal (String d ds) = true -> ends_run rest ->
  before l pre (String d ds ++ rest) ->
  exists l', before l' (pre ++ String d ds) rest
             /\ Lexer.get_next_token l
                = Ok (mkToken INTEGER (VInt (int_acc 0 (String d ds))), l').
Proof.
  intros Hd He Hb.
  pose proof (advance_before_char Hb) as Ha.
  assert (Hdig : str_forallb isdigit (String d ds) = true).
  { revert Hd. apply str_forallb_impl, isdecimal_isdigit. }
  destruct (@take_full_integer_run
              (Lexer.mk (Lexer.source l) (len pre) (Lexer.CChr d)
                        (Lexer.curr_token l)) pre (String d ds) rest)
    as (l1 & Hb1 & Ht); try assumption.
  { destruct Hb as [Hsrc _]. repeat split. exact Hsrc. }
  exists (Lexer.set_curr_token l1
            (mkToken INTEGER (VInt (int_acc 0 (String d ds))))).
  split; [exact Hb1 |].
  unfold Lexer.get_next_token. cbn [Lexer.get_next_token_aux].
  rewrite Ha. cbn [bind Lexer.pos Lexer.source].
  unfold Lexer.token_eq_type. cbn [orb].
  destruct (len pre >=? len (Lexer.source l)) eqn:E.
  { destruct Hb as [Hsrc _]. rewrite Hsrc, len_append in E.
    cbn [append] in E. rewrite len_String in E.
    pose proof (len_nonneg (ds ++ rest)). lia. }
  unfold Lexer.curr_char_is_digit. cbn [Lexer.curr_char bind].
  simpl in Hdig. apply andb_true_iff in Hdig as [Hdd _]. rewrite Hdd.
  rewrite Ht. unfold int_of_str. rewrite Hd. reflexivity.
Qed.

(** ** Decimal notation *)

Lemma int_acc_of_uint_acc (u : Decimal.uint) :
  forall acc : positive,
    int_acc (Zpos acc) (NilEmpty.string_of_uint u) = Zpos (Pos.of_uint_acc u acc).
Proof.
  induction u as [| u IH | u IH | u IH | u IH | u IH
                  | u IH | u IH | u IH | u IH | u IH];
    intros acc; cbn [NilEmpty.string_of_uint int_acc Pos.of_uint_acc];
    [reflexivity
    | rewrite <- IH; f_equal;
      match goal with
      | |- context [digit_value ?c] =>
        let v := eval vm_compute in (digit_value c) in
        change (digit_value c) with v
      end; lia ..].
Qed.

Lemma int_acc_of_uint (u : Decimal.uint) :
  int_acc 0 (NilEmpty.string_of_uint u) = Z.of_N (Pos.of_uint u).
Proof.
  induction u as [| u IH | u IH | u IH | u IH | u IH
                  | u IH | u IH | u IH | u IH | u IH];
    cbn [NilEmpty.string_of_uint int_acc Pos.of_uint];
    [reflexivity | exact IH | apply int_acc_of_uint_acc ..].
Qed.

Lemma string_of_uint_decimal (u : Decimal.uint) :
  str_forallb isdecimal (NilEmpty.string_of_uint u) = true.
Proof.
  induction u; cbn [NilEmpty.string_of_uint str_forallb];
    [reflexivity | rewrite IHu; reflexivity ..].
Qed.

(** [str(z)] for [z >= 0] is a non-empty run of decimal digits whose base-10
    value is [z]. *)
Lemma str_nonneg (z : Z) :
  0 <= z ->
  exists d ds, str (VInt z) = String d ds
               /\ str_forallb isdecimal (String d ds) = true
               /\ int_acc 0 (String d ds) = z.
Proof.
  intros Hz. destruct z as [| p | p]; [| | lia].
  - exists "0"%char, "". repeat split.
  - cbn [str Z.to_int NilZero.string_of_int].
    pose proof (DecimalPos.Unsigned.to_uint_nonnil p) as Hn.
    pose proof (DecimalPos.Unsigned.of_to p) as Hp.
    pose proof (string_of_uint_decimal (Pos.to_uint p)) as Hd.
    pose proof (int_acc_of_uint (Pos.to_uint p)) as Hv.
    rewrite Hp in Hv. cbn [Z.of_N] in Hv.
    assert (He : NilZero.string_of_uint (Pos.to_uint p)
                 = NilEmpty.string_of_uint (Pos.to_uint p)).
    { destruct (Pos.to_uint p); [congruence | reflexivity ..]. }
    rewrite He.
    destruct (NilEmpty.string_of_uint (Pos.to_uint p)) as [| d ds] eqn:E.
    + destruct (Pos.to_uint p); try congruence; discriminate.
    + exists d, ds. repeat split; assumption.
Qed.

(** ** Steps of the parser *)

Lemma parse_unfold (p : Parser.t) :
  Parser.parse p
  = ('(term_, p1) <- ('(factor_, p0) <- Parser.factor (S (3 * Parser.measure p)) p ;;
                      Parser.term_loop (S (3 * Parser.measure p)) factor_ p0) ;;
     Parser.expr_loop (S (S (3 * Parser.measure p))) term_ p1).
Proof. reflexivity. Qed.

Lemma factor_invalid (fuel : nat) (p : Parser.t) :
  type_in (type (Parser.curr_token p)) [INTEGER; LPAREN; PLUS; MINUS] = false ->
  Parser.factor (S fuel) p = Raise (Exception "Invalid Factor").
Proof.
  intros H. cbn [Parser.factor].
  destruct (type (Parser.curr_token p)); try discriminate; reflexivity.
Qed.

(** A lookahead that cannot start a factor makes [parse] raise. *)
Lemma parse_invalid_factor (p : Parser.t) :
  type_in (type (Parser.curr_token p)) [INTEGER; LPAREN; PLUS; MINUS] = false ->
  Parser.parse p = Raise (Exception "Invalid Factor").
Proof.
  intros H. rewrite parse_unfold, (factor_invalid _ _ H). reflexivity.
Qed.

Lemma eat_match (p : Parser.t) (tys : list TokenType) (k : Token) (l : Lexer.t) :
  type_in (type (Parser.curr_token p)) tys = true ->
  Lexer.get_next_token (Parser.lexer p) = Ok (k, l) ->
  Parser.eat p tys = Ok (Parser.mk l k).
Proof.
  intros Hin Hg. unfold Parser.eat. rewrite Hin, Hg. reflexivity.
Qed.

(** [eat] on a lookahead of another kind raises, naming what it expected and
    what it found. *)
Lemma eat_mismatch (p : Parser.t) (tys : list TokenType) :
  type_in (type (Parser.curr_token p)) tys = false ->
  Parser.eat p tys
  = Raise (Exception ("I was expecting for " ++ join " or " (map name tys)
                      ++ " but got " ++ name (type (Parser.curr_token p)) ++ ".")).
Proof.
  intros Hin. unfold Parser.eat. rewrite Hin. reflexivity.
Qed.

Lemma term_loop_exit (fuel : nat) (f : Ast) (p : Parser.t) :
  type_in (type (Parser.curr_token p)) [MULT; DIV] = false ->
  Parser.term_loop (S fuel) f p = Ok (f, p).
Proof. intros H. cbn [Parser.term_loop]. rewrite H. reflexivity. Qed.

Lemma expr_loop_exit (fuel : nat) (f : Ast) (p : Parser.t) :
  type_in (type (Parser.curr_token p)) [PLUS; MINUS] = false ->
  Parser.expr_loop (S fuel) f p = Ok (f, p).
Proof. intros H. cbn [Parser.expr_loop]. rewrite H. reflexivity. Qed.

(** An INTEGER lookahead followed by a token that is no operator parses to
    the number alone. *)
Lemma parse_single_integer (p : Parser.t) (k : Token) (l : Lexer.t) :
  type (Parser.curr_token p) = INTEGER ->
  Lexer.get_next_token (Parser.lexer p) = Ok (k, l) ->
  type_in (type k) [PLUS; MINUS; MULT; DIV] = false ->
  Parser.parse p = Ok (Num (Parser.curr_token p), Parser.mk l k).
Proof.
  intros Hi Hg Hk. rewrite parse_unfold. cbn [Parser.factor].
  rewrite Hi. cbn [TokenType_eqb].
  rewrite (@eat_match p [INTEGER] k l); [| rewrite Hi; reflexivity | exact Hg].
  cbn [bind].
  rewrite term_loop_exit; [cbn [bind] |]; [rewrite expr_loop_exit |];
    [reflexivity | |]; cbn [Parser.curr_token];
    destruct (type k); try discriminate; reflexivity.
Qed.

Lemma get_next_token_at_end (l : Lexer.t) (pre : string) :
  before l pre "" ->
  exists l', Lexer.get_next_token l = Ok (mkToken EOF VNone, l').
Proof.
  intros Hb. unfold Lexer.get_next_token.
  apply (@get_next_token_aux_no_tokens "" pre _ l Hb). simpl. lia.
Qed.

(** A line made of decimal digits evaluates to their base-10 value. *)
Lemma evaluate_decimal (d : ascii) (ds : string) :
  str_forallb isdecimal (String d ds) = true ->
  evaluate (String d ds) = Ok (VInt (int_acc 0 (String d ds))).
Proof.
  intros Hd.
  destruct (@get_next_token_digits (Lexer.__init__ (String d ds)) "" "" d ds)
    as (l1 & Hb1 & Hg1); [exact Hd | exact I | |].
  { rewrite append_nil_r. apply before_init. }
  destruct (get_next_token_at_end Hb1) as (l2 & Hg2).
  unfold evaluate, Parser.__init__. rewrite Hg1. cbn [bind].
  rewrite (@parse_single_integer _ (mkToken EOF VNone) l2);
    [reflexivity | reflexivity | exact Hg2 | reflexivity].
Qed.

(** ** Trees the parser builds *)

(** On such a tree the interpreter returns an [int] or divides by zero. *)
Lemma visit_well_formed (a : Ast) :
  well_formed a = true ->
  (exists z, Interpreter.visit a = Ok (VInt z))
  \/ Interpreter.visit a = Raise ZeroDivisionError.
Proof.
  induction a as [k | k e IHe | k l IHl r IHr | k]; cbn [well_formed];
    intros H; try discriminate.
  - apply andb_true_iff in H as [Hk He].
    cbn [Interpreter.visit].
    destruct (IHe He) as [[z Hz] | Hz]; rewrite Hz;
      destruct (TokenType_eqb (type k) MINUS); cbn [bind py_neg py_pos]; eauto.
  - apply andb_true_iff in H as [H Hr]. apply andb_true_iff in H as [Hk Hl].
    cbn [Interpreter.visit].
    destruct (IHl Hl) as [[x Hx] | Hx], (IHr Hr) as [[y Hy] | Hy];
      rewrite Hx, ?Hy;
      destruct (type k); try discriminate; simpl; eauto.
    destruct (y =? 0); eauto.
  - apply andb_true_iff in H as [_ Hv]. cbn [Interpreter.visit].
    destruct (value k); try discriminate. eauto.
Qed.

Lemma get_next_token_aux_token_ok (fuel : nat) :
  forall (l l' : Lexer.t) (k : Token),
    Lexer.get_next_token_aux fuel l = Ok (k, l') -> token_ok k = true.
Proof.
  induction fuel as [| fuel IH]; intros l l' k H; [discriminate |].
  cbn [Lexer.get_next_token_aux] in H.
  bind_inv H. rename a into l1.
  unfold Lexer.token_eq_type in H. cbn [orb] in H.
  destruct (Lexer.pos l1 >=? len (Lexer.source l1)).
  { injection H as <- _. reflexivity. }
  bind_inv H. destruct a.
  { bind_inv H. destruct a as [n l2]. injection H as <- _. reflexivity. }
  bind_inv H. destruct a.
  { destruct (Lexer.curr_char l1) as [| c | k']; try discriminate.
    destruct (Lexer.lookup c Lexer.operations) as [ty |] eqn:Eo;
      try discriminate.
    injection H as <- _. unfold Lexer.operations in Eo. simpl in Eo.
    repeat match type of Eo with
           | (if ?b then _ else _) = _ => destruct b
           end; try discriminate; injection Eo as <-; reflexivity. }
  bind_inv H. destruct a.
  { injection H as <- _. reflexivity. }
  bind_inv H. destruct a.
  { injection H as <- _. reflexivity. }
  bind_inv H. destruct a.
  { eapply IH, H. }
  injection H as <- _. reflexivity.
Qed.

Lemma eat_token_ok (p p' : Parser.t) (tys : list TokenType) :
  Parser.eat p tys = Ok p' -> token_ok (Parser.curr_token p') = true.
Proof.
  intros H. apply eat_Ok in H as [_ H].
  unfold Lexer.get_next_token in H.
  eapply get_next_token_aux_token_ok, H.
Qed.

Ltac eat_ok H Hk :=
  let p1 := fresh "p" in
  let He := fresh "He" in
  apply bind_Ok in H; destruct H as (p1 & He & H);
  pose proof (eat_token_ok _ _ He) as Hk.

Lemma parser_well_formed (fuel : nat) :
  forall (p p' : Parser.t) (a : Ast),
    token_ok (Parser.curr_token p) = true ->
    (Parser.factor fuel p = Ok (a, p') ->
     well_formed a = true /\ token_ok (Parser.curr_token p') = true)
    /\ (forall f, well_formed f = true ->
                  Parser.term_loop fuel f p = Ok (a, p') ->
                  well_formed a = true /\ token_ok (Parser.curr_token p') = true)
    /\ (Parser.term fuel p = Ok (a, p') ->
        well_formed a = true /\ token_ok (Parser.curr_token p') = true)
    /\ (forall f, well_formed f = true ->
                  Parser.expr_loop fuel f p = Ok (a, p') ->
                  well_formed a = true /\ token_ok (Parser.curr_token p') = true)
    /\ (Parser.expr fuel p = Ok (a, p') ->
        well_formed a = true /\ token_ok (Parser.curr_token p') = true).
Proof.
  induction fuel as [| fuel IH]; intros p p' a Hp.
  { repeat split; intros; discriminate. }
  split; [| split; [| split; [| split]]].
  - intros H. cbn [Parser.factor] in H.
    destruct (TokenType_eqb (type (Parser.curr_token p)) INTEGER) eqn:Ei.
    { eat_ok H Hk. injection H as <- <-. split; [| exact Hk].
      cbn [well_formed]. rewrite Ei. unfold token_ok in Hp.
      rewrite Ei in Hp. exact Hp. }
    destruct (TokenType_eqb (type (Parser.curr_token p)) LPAREN).
    { eat_ok H Hk. bind_inv H. destruct a0 as [n p1].
      eat_ok H Hk2. injection H as <- <-.
      apply IH in Ha as [Hw _]; [| exact Hk]. split; assumption. }
    destruct (type_in (type (Parser.curr_token p)) [PLUS; MINUS]) eqn:Es;
      [| discriminate].
    eat_ok H Hk. bind_inv H. destruct a0 as [n p1]. injection H as <- <-.
    apply IH in Ha as [Hw Hk1]; [| exact Hk]. split; [| exact Hk1].
    cbn [well_formed]. rewrite Es, Hw. reflexivity.
  - intros f Hf H. cbn [Parser.term_loop] in H.
    destruct (type_in (type (Parser.curr_token p)) [MULT; DIV]) eqn:Eo.
    + eat_ok H Hk. bind_inv H. destruct a0 as [n p1].
      apply IH in Ha as [Hw Hk1]; [| exact Hk].
      apply IH in H; [exact H | exact Hk1 |].
      cbn [well_formed]. rewrite Hf, Hw.
      destruct (type (Parser.curr_token p)); try discriminate; reflexivity.
    + injection H as <- <-. split; assumption.
  - intros H. cbn [Parser.term] in H.
    bind_inv H. destruct a0 as [n p1].
    apply IH in Ha as [Hw Hk1]; [| exact Hp].
    apply IH in H; assumption.
  - intros f Hf H. cbn [Parser.expr_loop] in H.
    destruct (type_in (type (Parser.curr_token p)) [PLUS; MINUS]) eqn:Eo.
    + eat_ok H Hk. bind_inv H. destruct a0 as [n p1].
      apply IH in Ha as [Hw Hk1]; [| exact Hk].
      apply IH in H; [exact H | exact Hk1 |].
      cbn [well_formed]. rewrite Hf, Hw.
      destruct (type (Parser.curr_token p)); try discriminate; reflexivity.
    + injection H as <- <-. split; assumption.
  - intros H. cbn [Parser.expr] in H.
    bind_inv H. destruct a0 as [n p1].
    apply IH in Ha as [Hw Hk1]; [| exact Hp].
    apply IH in H; assumption.
Qed.

(** Every tree that [parse] returns for a line is well formed. *)
Lemma parse_line_well_formed (s : string) (a : Ast) :
  parse_line s = Ok a -> well_formed a = true.
Proof.
  unfold parse_line, Parser.__init__. intros H.
  destruct (Lexer.get_next_token (Lexer.__init__ s)) as [[k l] | e |] eqn:Eg;
    try discriminate.
  cbn [bind] in H.
  destruct (Parser.parse (Parser.mk l k)) as [[a' p'] | e |] eqn:Ep;
    try discriminate.
  injection H as <-.
  unfold Lexer.get_next_token in Eg.
  apply get_next_token_aux_token_ok in Eg.
  unfold Parser.parse in Ep.
  apply parser_well_formed in Ep; [apply Ep | exact Eg].
Qed.

Lemma evaluate_parse_line (s : string) :
  evaluate s = (a <- parse_line s ;; Interpreter.visit a).
Proof.
  unfold evaluate, parse_line.
  destruct (Parser.__init__ (Lexer.__init__ s)) as [p | e |]; cbn [bind];
    try reflexivity.
  destruct (Parser.parse p) as [[a p'] | e |]; reflexivity.
Qed.

(** A line evaluates to an [int] or raises; nothing else comes out of the
    pipeline. *)
Lemma evaluate_outcome (s : string) :
  (exists z, evaluate s = Ok (VInt z)) \/ (exists e, evaluate s = Raise e).
Proof.
  rewrite evaluate_parse_line.
  destruct (parse_line s) as [a | e |] eqn:E; cbn [bind].
  - apply parse_line_well_formed, visit_well_formed in E.
    destruct E as [[z Hz] | Hz]; rewrite Hz; eauto.
  - eauto.
  - exfalso. revert E. unfold parse_line.
    apply bind_not_OutOfFuel; [apply Parser_init_total |]. intros p _.
    apply bind_not_OutOfFuel; [apply parse_total |]. intros [a p'] _.
    discriminate.
Qed.

(** ** The result does not depend on the fuel *)

Lemma factor_S (fuel : nat) (p : Parser.t) :
  Parser.factor (S fuel) p
  = (let token := Parser.curr_token p in
     if TokenType_eqb (type token) INTEGER then
       p <- Parser.eat p [INTEGER] ;; Ok (Num token, p)
     else if TokenType_eqb (type token) LPAREN then
       p <- Parser.eat p [LPAREN] ;;
       '(ast_node, p) <- Parser.expr fuel p ;;
       p <- Parser.eat p [RPAREN] ;; Ok (ast_node, p)
     else if type_in (type token) [PLUS; MINUS] then
       p <- Parser.eat p [PLUS; MINUS] ;;
       '(operand, p) <- Parser.factor fuel p ;; Ok (UnaryOp token operand, p)
     else Raise (Exception "Invalid Factor")).
Proof. reflexivity. Qed.

Lemma term_loop_S (fuel : nat) (f : Ast) (p : Parser.t) :
  Parser.term_loop (S fuel) f p
  = (if type_in (type (Parser.curr_token p)) [MULT; DIV] then
       let token := Parser.curr_token p in
       p <- Parser.eat p [MULT; DIV] ;;
       '(right_, p) <- Parser.factor fuel p ;;
       Parser.term_loop fuel (BinOp token f right_) p
     else Ok (f, p)).
Proof. reflexivity. Qed.

Lemma term_S (fuel : nat) (p : Parser.t) :
  Parser.term (S fuel) p
  = ('(factor_, p) <- Parser.factor fuel p ;; Parser.term_loop fuel factor_ p).
Proof. reflexivity. Qed.

Lemma expr_loop_S (fuel : nat) (f : Ast) (p : Parser.t) :
  Parser.expr_loop (S fuel) f p
  = (if type_in (type (Parser.curr_token p)) [PLUS; MINUS] then
       let op := Parser.curr_token p in
       p <- Parser.eat p [PLUS; MINUS] ;;
       '(right_, p) <- Parser.term fuel p ;;
       Parser.expr_loop fuel (BinOp op f right_) p
     else Ok (f, p)).
Proof. reflexivity. Qed.

Lemma expr_S (fuel : nat) (p : Parser.t) :
  Parser.expr (S fuel) p
  = ('(term_, p) <- Parser.term fuel p ;; Parser.expr_loop fuel term_ p).
Proof. reflexivity. Qed.

Lemma bind_mono {A B : Type} (m m' : result A) (k k' : A -> result B) :
  bind m k <> OutOfFuel ->
  (m <> OutOfFuel -> m' = m) ->
  (forall a, m = Ok a -> k a <> OutOfFuel -> k' a = k a) ->
  bind m' k' = bind m k.
Proof.
  intros H Hm Hk. destruct m as [a | e |]; cbn [bind] in *.
  - rewrite Hm by discriminate. cbn [bind]. apply Hk; [reflexivity | exact H].
  - rewrite Hm by discriminate. reflexivity.
  - congruence.
Qed.

Lemma parser_mono (fuel : nat) :
  forall p : Parser.t,
    (Parser.factor fuel p <> OutOfFuel ->
     Parser.factor (S fuel) p = Parser.factor fuel p)
    /\ (forall f, Parser.term_loop fuel f p <> OutOfFuel ->
                  Parser.term_loop (S fuel) f p = Parser.term_loop fuel f p)
    /\ (Parser.term fuel p <> OutOfFuel ->
        Parser.term (S fuel) p = Parser.term fuel p)
    /\ (forall f, Parser.expr_loop fuel f p <> OutOfFuel ->
                  Parser.expr_loop (S fuel) f p = Parser.expr_loop fuel f p)
    /\ (Parser.expr fuel p <> OutOfFuel ->
        Parser.expr (S fuel) p = Parser.expr fuel p).
Proof.
  induction fuel as [| fuel IH]; intros p.
  { repeat split; intros; cbn in *; congruence. }
  split; [| split; [| split; [| split]]].
  - intros H. rewrite (factor_S (S fuel)). rewrite factor_S in H |- *.
    cbv zeta in *.
    destruct (TokenType_eqb (type (Parser.curr_token p)) INTEGER);
      [reflexivity |].
    destruct (TokenType_eqb (type (Parser.curr_token p)) LPAREN).
    { apply bind_mono; [exact H | reflexivity |]. intros p1 _ H1.
      apply bind_mono; [exact H1 | apply IH |]. intros [a p2] _ _.
      reflexivity. }
    destruct (type_in (type (Parser.curr_token p)) [PLUS; MINUS]);
      [| reflexivity].
    apply bind_mono; [exact H | reflexivity |]. intros p1 _ H1.
    apply bind_mono; [exact H1 | apply IH |]. intros [a p2] _ _.
    reflexivity.
  - intros f H. rewrite (term_loop_S (S fuel)). rewrite term_loop_S in H |- *.
    cbv zeta in *.
    destruct (type_in (type (Parser.curr_token p)) [MULT; DIV]);
      [| reflexivity].
    apply bind_mono; [exact H | reflexivity |]. intros p1 _ H1.
    apply bind_mono; [exact H1 | apply IH |]. intros [a p2] _ H2.
    apply IH, H2.
  - intros H. rewrite (term_S (S fuel)). rewrite term_S in H |- *.
    apply bind_mono; [exact H | apply IH |]. intros [a p1] _ H1.
    apply IH, H1.
  - intros f H. rewrite (expr_loop_S (S fuel)). rewrite expr_loop_S in H |- *.
    cbv zeta in *.
    destruct (type_in (type (Parser.curr_token p)) [PLUS; MINUS]);
      [| reflexivity].
    apply bind_mono; [exact H | reflexivity |]. intros p1 _ H1.
    apply bind_mono; [exact H1 | apply IH |]. intros [a p2] _ H2.
    apply IH, H2.
  - intros H. rewrite (expr_S (S fuel)). rewrite expr_S in H |- *.
    apply bind_mono; [exact H | apply IH |]. intros [a p1] _ H1.
    apply IH, H1.
Qed.

Lemma expr_more_fuel (n fuel : nat) (p : Parser.t) :
  Parser.expr fuel p <> OutOfFuel ->
  Parser.expr (n + fuel) p = Parser.expr fuel p.
Proof.
  intros H. induction n as [| n IH]; [reflexivity |].
  cbn [Nat.add]. rewrite <- IH.
  apply parser_mono. rewrite IH. exact H.
Qed.

(** Whatever fuel lets [expr] finish, [parse] returns the same result. *)
Lemma parse_fuel_independent (fuel : nat) (p : Parser.t) :
  Parser.expr fuel p <> OutOfFuel -> Parser.parse p = Parser.expr fuel p.
Proof.
  intros H. pose proof (parse_total p) as Ht. unfold Parser.parse in *.
  destruct (Nat.le_ge_cases fuel (3 + 3 * Parser.measure p)) as [Hle | Hle].
  - replace (3 + 3 * Parser.measure p)%nat
      with ((3 + 3 * Parser.measure p - fuel) + fuel)%nat by lia.
    apply expr_more_fuel, H.
  - replace fuel
      with ((fuel - (3 + 3 * Parser.measure p)) + (3 + 3 * Parser.measure p))%nat
      by lia.
    symmetry. apply expr_more_fuel, Ht.
Qed.

Lemma parser_more_fuel (n fuel : nat) (p : Parser.t) :
  (Parser.factor fuel p <> OutOfFuel ->
   Parser.factor (n + fuel) p = Parser.factor fuel p)
  /\ (forall f, Parser.term_loop fuel f p <> OutOfFuel ->
                Parser.term_loop (n + fuel) f p = Parser.term_loop fuel f p)
  /\ (Parser.term fuel p <> OutOfFuel ->
      Parser.term (n + fuel) p = Parser.term fuel p)
  /\ (forall f, Parser.expr_loop fuel f p <> OutOfFuel ->
                Parser.expr_loop (n + fuel) f p = Parser.expr_loop fuel f p)
  /\ (Parser.expr fuel p <> OutOfFuel ->
      Parser.expr (n + fuel) p = Parser.expr fuel p).
Proof.
  induction n as [| n IH]; [repeat split |].
  destruct IH as (IH1 & IH2 & IH3 & IH4 & IH5).
  cbn [Nat.add].
  split; [| split; [| split; [| split]]].
  - intros H. rewrite <- (IH1 H). apply parser_mono. rewrite (IH1 H). exact H.
  - intros f H. rewrite <- (IH2 f H). apply parser_mono.
    rewrite (IH2 f H). exact H.
  - intros H. rewrite <- (IH3 H). apply parser_mono. rewrite (IH3 H). exact H.
  - intros f H. rewrite <- (IH4 f H). apply parser_mono.
    rewrite (IH4 f H). exact H.
  - intros H. rewrite <- (IH5 H). apply parser_mono. rewrite (IH5 H). exact H.
Qed.

(** ** The parser without fuel

    [Factor p r] says that [factor] on [p] ends with [r], with whatever
    fuel that takes; likewise for the other functions of the parser. *)

Lemma Factor_more (p : Parser.t) (r : result (Ast * Parser.t)) (fuel fuel' : nat) :
  Parser.factor fuel p = r -> r <> OutOfFuel -> (fuel <= fuel')%nat ->
  Parser.factor fuel' p = r.
Proof.
  intros H Hr Hle. subst r.
  replace fuel' with ((fuel' - fuel) + fuel)%nat by lia.
  apply parser_more_fuel, Hr.
Qed.

Lemma TermLoop_more (f : Ast) (p : Parser.t) (r : result (Ast * Parser.t))
      (fuel fuel' : nat) :
  Parser.term_loop fuel f p = r -> r <> OutOfFuel -> (fuel <= fuel')%nat ->
  Parser.term_loop fuel' f p = r.
Proof.
  intros H Hr Hle. subst r.
  replace fuel' with ((fuel' - fuel) + fuel)%nat by lia.
  apply parser_more_fuel, Hr.
Qed.

Lemma Term_more (p : Parser.t) (r : result (Ast * Parser.t)) (fuel fuel' : nat) :
  Parser.term fuel p = r -> r <> OutOfFuel -> (fuel <= fuel')%nat ->
  Parser.term fuel' p = r.
Proof.
  intros H Hr Hle. subst r.
  replace fuel' with ((fuel' - fuel) + fuel)%nat by lia.
  apply parser_more_fuel, Hr.
Qed.

Lemma ExprLoop_more (f : Ast) (p : Parser.t) (r : result (Ast * Parser.t))
      (fuel fuel' : nat) :
  Parser.expr_loop fuel f p = r -> r <> OutOfFuel -> (fuel <= fuel')%nat ->
  Parser.expr_loop fuel' f p = r.
Proof.
  intros H Hr Hle. subst r.
  replace fuel' with ((fuel' - fuel) + fuel)%nat by lia.
  apply parser_more_fuel, Hr.
Qed.

Lemma Expr_more (p : Parser.t) (r : result (Ast * Parser.t)) (fuel fuel' : nat) :
  Parser.expr fuel p = r -> r <> OutOfFuel -> (fuel <= fuel')%nat ->
  Parser.expr fuel' p = r.
Proof.
  intros H Hr Hle. subst r.
  replace fuel' with ((fuel' - fuel) + fuel)%nat by lia.
  apply parser_more_fuel, Hr.
Qed.

Lemma Factor_integer (p p' : Parser.t) :
  type (Parser.curr_token p) = INTEGER ->
  Parser.eat p [INTEGER] = Ok p' ->
  Factor p (Ok (Num (Parser.curr_token p), p')).
Proof.
  intros Ht He. exists 1%nat. split; [| discriminate].
  rewrite factor_S. cbv zeta. rewrite Ht. cbn [TokenType_eqb].
  rewrite He. reflexivity.
Qed.

Lemma Factor_unary (p p1 p2 : Parser.t) (a : Ast) :
  type_in (type (Parser.curr_token p)) [PLUS; MINUS] = true ->
  Parser.eat p [PLUS; MINUS] = Ok p1 ->
  Factor p1 (Ok (a, p2)) ->
  Factor p (Ok (UnaryOp (Parser.curr_token p) a, p2)).
Proof.
  intros Ht He (fuel & Hf & _). exists (S fuel). split; [| discriminate].
  rewrite factor_S. cbv zeta.
  destruct (type (Parser.curr_token p)); try discriminate;
    cbn [TokenType_eqb type_in existsb orb]; rewrite He; cbn [bind];
    rewrite Hf; reflexivity.
Qed.

Lemma Factor_paren (p p1 p2 p3 : Parser.t) (a : Ast) :
  type (Parser.curr_token p) = LPAREN ->
  Parser.eat p [LPAREN] = Ok p1 ->
  Expr p1 (Ok (a, p2)) ->
  Parser.eat p2 [RPAREN] = Ok p3 ->
  Factor p (Ok (a, p3)).
Proof.
  intros Ht He (fuel & Hf & _) He'. exists (S fuel). split; [| discriminate].
  rewrite factor_S. cbv zeta. rewrite Ht. cbn [TokenType_eqb].
  rewrite He. cbn [bind]. rewrite Hf. cbn [bind]. rewrite He'. reflexivity.
Qed.

Lemma TermLoop_exit (f : Ast) (p : Parser.t) :
  type_in (type (Parser.curr_token p)) [MULT; DIV] = false ->
  TermLoop f p (Ok (f, p)).
Proof.
  intros H. exists 1%nat. split; [| discriminate]. apply term_loop_exit, H.
Qed.

Lemma TermLoop_step (f a : Ast) (p p1 p2 : Parser.t)
      (r : result (Ast * Parser.t)) :
  type_in (type (Parser.curr_token p)) [MULT; DIV] = true ->
  Parser.eat p [MULT; DIV] = Ok p1 ->
  Factor p1 (Ok (a, p2)) ->
  TermLoop (BinOp (Parser.curr_token p) f a) p2 r ->
  TermLoop f p r.
Proof.
  intros Ht He (fuel1 & Hf & Hn1) (fuel2 & Hl & Hn2).
  exists (S (fuel1 + fuel2)). split; [| exact Hn2].
  rewrite term_loop_S, Ht. cbv zeta. rewrite He. cbn [bind].
  rewrite (@Factor_more _ _ _ _ Hf Hn1) by lia. cbn [bind].
  apply (@TermLoop_more _ _ _ _ _ Hl Hn2). lia.
Qed.

Lemma Term_intro (f : Ast) (p p1 : Parser.t) (r : result (Ast * Parser.t)) :
  Factor p (Ok (f, p1)) -> TermLoop f p1 r -> Term p r.
Proof.
  intros (fuel1 & Hf & Hn1) (fuel2 & Hl & Hn2).
  exists (S (fuel1 + fuel2)). split; [| exact Hn2].
  rewrite term_S, (@Factor_more _ _ _ _ Hf Hn1) by lia. cbn [bind].
  apply (@TermLoop_more _ _ _ _ _ Hl Hn2). lia.
Qed.

Lemma ExprLoop_exit (f : Ast) (p : Parser.t) :
  type_in (type (Parser.curr_token p)) [PLUS; MINUS] = false ->
  ExprLoop f p (Ok (f, p)).
Proof.
  intros H. exists 1%nat. split; [| discriminate]. apply expr_loop_exit, H.
Qed.

Lemma ExprLoop_step (f a : Ast) (p p1 p2 : Parser.t)
      (r : result (Ast * Parser.t)) :
  type_in (type (Parser.curr_token p)) [PLUS; MINUS] = true ->
  Parser.eat p [PLUS; MINUS] = Ok p1 ->
  Term p1 (Ok (a, p2)) ->
  ExprLoop (BinOp (Parser.curr_token p) f a) p2 r ->
  ExprLoop f p r.
Proof.
  intros Ht He (fuel1 & Hf & Hn1) (fuel2 & Hl & Hn2).
  exists (S (fuel1 + fuel2)). split; [| exact Hn2].
  rewrite expr_loop_S, Ht. cbv zeta. rewrite He. cbn [bind].
  rewrite (@Term_more _ _ _ _ Hf Hn1) by lia. cbn [bind].
  apply (@ExprLoop_more _ _ _ _ _ Hl Hn2). lia.
Qed.

Lemma Expr_intro (f : Ast) (p p1 : Parser.t) (r : result (Ast * Parser.t)) :
  Term p (Ok (f, p1)) -> ExprLoop f p1 r -> Expr p r.
Proof.
  intros (fuel1 & Hf & Hn1) (fuel2 & Hl & Hn2).
  exists (S (fuel1 + fuel2)). split; [| exact Hn2].
  rewrite expr_S, (@Term_more _ _ _ _ Hf Hn1) by lia. cbn [bind].
  apply (@ExprLoop_more _ _ _ _ _ Hl Hn2). lia.
Qed.

(** What [expr] ends with, [parse] returns. *)
Lemma Expr_parse (p : Parser.t) (r : result (Ast * Parser.t)) :
  Expr p r -> Parser.parse p = r.
Proof.
  intros (fuel & H & Hn). rewrite <- H. apply parse_fuel_independent.
  rewrite H. exact Hn.
Qed.

(** ** Whitespace and trailing tokens *)

(** A whitespace character just after the cursor is skipped: the call
    continues from the next position. *)
Lemma get_next_token_skip_space (l : Lexer.t) (pre s : string) (c : ascii) :
  before l pre (String c s) -> isspace c = true ->
  exists l1, before l1 (pre ++ String c "") s
             /\ Lexer.get_next_token l = Lexer.get_next_token l1.
Proof.
  intros Hb Hsp.
  pose proof (advance_before_char Hb) as Ha.
  destruct Hb as [Hsrc Hpos].
  exists (Lexer.mk (Lexer.source l) (len pre) (Lexer.CChr c) (Lexer.curr_token l)).
  split.
  { split; cbn [Lexer.source Lexer.pos].
    - rewrite append_snoc. exact Hsrc.
    - rewrite len_append, len_String. change (len "") with 0. lia. }
  assert (Hin : len pre < len (Lexer.source l)).
  { rewrite Hsrc, len_append, len_String. pose proof (len_nonneg s). lia. }
  apply isspace_not_token in Hsp as Hn. destruct Hn as (Hd & Ho & Hl & Hr).
  unfold Lexer.get_next_token at 1. cbn [Lexer.get_next_token_aux].
  rewrite Ha. cbn [bind Lexer.pos Lexer.source].
  unfold Lexer.token_eq_type. cbn [orb].
  destruct (len pre >=? len (Lexer.source l)) eqn:E; [lia |].
  unfold Lexer.curr_char_is_digit, Lexer.curr_char_is_operation,
    Lexer.curr_char_is_lparen, Lexer.curr_char_is_rparen,
    Lexer.curr_char_is_space.
  cbn [Lexer.curr_char bind]. rewrite Hd, Ho. cbn [bind].
  rewrite Hl, Hr, Hsp. unfold Lexer.get_next_token.
  f_equal. unfold Lexer.remaining. cbn [Lexer.source Lexer.pos].
  rewrite Hpos. lia.
Qed.

(** Two integer literals separated by a space: [parse] returns the first
    and leaves the second unread. *)
Lemma evaluate_two_literals (a b : ascii) (as_ bs : string) :
  str_forallb isdecimal (String a as_) = true ->
  str_forallb isdecimal (String b bs) = true ->
  evaluate (String a as_ ++ " " ++ String b bs)
  = Ok (VInt (int_acc 0 (String a as_))).
Proof.
  intros Ha Hb.
  destruct (@get_next_token_digits
              (Lexer.__init__ (String a as_ ++ " " ++ String b bs))
              "" (" " ++ String b bs) a as_)
    as (l1 & Hb1 & Hg1); [exact Ha | reflexivity | apply before_init |].
  cbn [append] in Hb1.
  destruct (@get_next_token_skip_space l1 (String a as_) (String b bs) " "%char)
    as (l2 & Hb2 & Hg2); [exact Hb1 | reflexivity |].
  destruct (@get_next_token_digits l2 (String a as_ ++ " ") "" b bs)
    as (l3 & Hb3 & Hg3); [exact Hb | exact I | |].
  { rewrite append_nil_r. exact Hb2. }
  unfold evaluate, Parser.__init__. rewrite Hg1. cbn [bind].
  rewrite (@parse_single_integer _ (mkToken INTEGER (VInt (int_acc 0 (String b bs)))) l3);
    [reflexivity | reflexivity | | reflexivity].
  cbn [Parser.lexer]. rewrite Hg2. exact Hg3.
Qed.

(** ** Reading one token *)

Lemma get_next_token_char (l : Lexer.t) (pre s : string) (c : ascii) (k : Token) :
  before l pre (String c s) -> single_char_token c = Some k ->
  exists l', Lexer.get_next_token l = Ok (k, l')
             /\ before l' (pre ++ String c "") s.
Proof.
  intros Hb Hk.
  pose proof (advance_before_char Hb) as Ha.
  destruct Hb as [Hsrc Hpos].
  assert (Hin : len pre < len (Lexer.source l)).
  { rewrite Hsrc, len_append, len_String. pose proof (len_nonneg s). lia. }
  exists (Lexer.set_curr_token
            (Lexer.mk (Lexer.source l) (len pre) (Lexer.CChr c) (Lexer.curr_token l))
            k).
  split.
  - unfold Lexer.get_next_token. cbn [Lexer.get_next_token_aux].
    rewrite Ha. cbn [bind Lexer.pos Lexer.source].
    unfold Lexer.token_eq_type. cbn [orb].
    destruct (len pre >=? len (Lexer.source l)) eqn:E; [lia |].
    unfold Lexer.curr_char_is_digit, Lexer.curr_char_is_operation,
      Lexer.curr_char_is_lparen, Lexer.curr_char_is_rparen,
      Lexer.curr_char_is_space.
    cbn [Lexer.curr_char bind]. unfold single_char_token in Hk.
    destruct (isdigit c); [discriminate |].
    destruct (Lexer.lookup c Lexer.operations) as [ty |].
    { injection Hk as <-. reflexivity. }
    cbn [bind].
    destruct (Ascii.eqb c "("); [injection Hk as <-; reflexivity |].
    destruct (Ascii.eqb c ")"); [injection Hk as <-; reflexivity |].
    discriminate.
  - split; cbn [Lexer.source Lexer.pos Lexer.set_curr_token].
    + rewrite append_snoc. exact Hsrc.
    + rewrite len_append, len_String. change (len "") with 0. lia.
Qed.

Lemma ready_digits (p : Parser.t) (pre rest : string) (d : ascii) (ds : string) :
  str_forallb isdecimal (String d ds) = true -> ends_run rest ->
  ready p pre (String d ds ++ rest) ->
  Parser.curr_token p = mkToken INTEGER (VInt (int_acc 0 (String d ds)))
  /\ before (Parser.lexer p) (pre ++ String d ds) rest.
Proof.
  intros Hd He (l0 & Hb & Hg).
  destruct (@get_next_token_digits l0 pre rest d ds Hd He Hb) as (l' & Hb' & Hg').
  rewrite Hg in Hg'. injection Hg' as -> ->. split; [reflexivity | exact Hb'].
Qed.

Lemma ready_char (p : Parser.t) (pre s : string) (c : ascii) (k : Token) :
  single_char_token c = Some k ->
  ready p pre (String c s) ->
  Parser.curr_token p = k /\ before (Parser.lexer p) (pre ++ String c "") s.
Proof.
  intros Hk (l0 & Hb & Hg).
  destruct (@get_next_token_char l0 pre s c k Hb Hk) as (l' & Hg' & Hb').
  rewrite Hg in Hg'. injection Hg' as -> ->. split; [reflexivity | exact Hb'].
Qed.

Lemma ready_space (p : Parser.t) (pre s : string) (c : ascii) :
  isspace c = true -> ready p pre (String c s) ->
  ready p (pre ++ String c "") s.
Proof.
  intros Hc (l0 & Hb & Hg).
  destruct (@get_next_token_skip_space l0 pre s c Hb Hc) as (l1 & Hb1 & Hg1).
  exists l1. split; [exact Hb1 |]. rewrite <- Hg1. exact Hg.
Qed.

(** [eat] of the expected lookahead reads the next token from where the
    lexer stands. *)
Lemma eat_ready (p : Parser.t) (tys : list TokenType) (pre s : string) :
  type_in (type (Parser.curr_token p)) tys = true ->
  before (Parser.lexer p) pre s -> readable s ->
  exists p', Parser.eat p tys = Ok p' /\ ready p' pre s.
Proof.
  intros Ht Hb Hr. destruct (Hr pre _ Hb) as (k & l' & Hg).
  exists (Parser.mk l' k). split.
  - apply eat_match; assumption.
  - exists (Parser.lexer p). split; [exact Hb | exact Hg].
Qed.

Lemma follows_readable (tys : list TokenType) (s : string) :
  follows tys s -> readable s.
Proof.
  intros [_ H] pre l Hb. destruct (H pre l Hb) as (k & l' & Hg & _). eauto.
Qed.

Lemma ready_follows (p : Parser.t) (tys : list TokenType) (pre s : string) :
  ready p pre s -> follows tys s ->
  type_in (type (Parser.curr_token p)) tys = true.
Proof.
  intros (l0 & Hb & Hg) [_ H].
  destruct (H pre l0 Hb) as (k & l' & Hg' & Hk).
  rewrite Hg in Hg'. injection Hg' as -> _. exact Hk.
Qed.

Lemma follows_weaken (lvl : nat) (s : string) :
  follows (allowed 0) s -> follows (allowed lvl) s.
Proof.
  intros [He H]. split; [exact He |]. intros pre l Hb.
  destruct (H pre l Hb) as (k & l' & Hg & Hk). exists k, l'.
  split; [exact Hg |].
  destruct lvl; [exact Hk |].
  cbn [allowed] in *. destruct (type k); try discriminate; reflexivity.
Qed.

Lemma follows_level (lvl : nat) (s : string) :
  follows (allowed lvl) s -> follows (allowed 1) s.
Proof.
  intros H. destruct lvl; [apply follows_weaken |]; exact H.
Qed.

Lemma follows_end : follows (allowed 0) "".
Proof.
  split; [exact I |]. intros pre l Hb.
  destruct (get_next_token_at_end Hb) as (l' & Hg).
  exists (mkToken EOF VNone), l'. split; [exact Hg | reflexivity].
Qed.

Lemma follows_rparen (s : string) : follows (allowed 0) (String ")" s).
Proof.
  split; [reflexivity |]. intros pre l Hb.
  destruct (@get_next_token_char l pre s ")"%char (mkToken RPAREN (VStr ")")) Hb eq_refl)
    as (l' & Hg & _).
  eauto.
Qed.

(** A space and an operator follow an operand at the level of that
    operator. *)
Lemma follows_operator (op : BinKind) (s : string) :
  follows (allowed (prec op)) (String " " (String (symbol op) s)).
Proof.
  split; [reflexivity |]. intros pre l Hb.
  destruct (@get_next_token_skip_space l pre (String (symbol op) s) " "%char Hb eq_refl)
    as (l1 & Hb1 & Hg1).
  assert (Hk : single_char_token (symbol op) = Some (op_token op))
    by (destruct op; reflexivity).
  destruct (@get_next_token_char l1 _ s _ _ Hb1 Hk) as (l' & Hg & _).
  exists (op_token op), l'. rewrite Hg1. split; [exact Hg |].
  destruct op; reflexivity.
Qed.

(** ** Parsing the text of an expression *)

Lemma readable_space (s : string) : readable s -> readable (String " " s).
Proof.
  intros H pre l Hb.
  destruct (@get_next_token_skip_space l pre s " "%char Hb eq_refl)
    as (l1 & Hb1 & Hg1).
  rewrite Hg1. apply (H _ _ Hb1).
Qed.

Lemma sign_char_token (minus : bool) :
  single_char_token (if minus then "-" else "+")%char = Some (sign_token minus).
Proof. destruct minus; reflexivity. Qed.

Lemma symbol_token (op : BinKind) :
  single_char_token (symbol op) = Some (op_token op).
Proof. destruct op; reflexivity. Qed.

(** The text of an expression starts with a token. *)
Lemma print_readable (e : expression) :
  literals_ok e = true ->
  forall lvl rest, ends_run rest -> readable (print lvl e ++ rest).
Proof.
  induction e as [d ds | minus e IH | op l IHl r IHr];
    cbn [literals_ok print]; intros Hok lvl rest He pre lx Hb.
  - destruct (@get_next_token_digits lx pre rest d ds Hok He Hb)
      as (l' & _ & Hg).
    eauto.
  - cbn [append] in Hb.
    destruct (@get_next_token_char lx pre _ _ _ Hb (sign_char_token minus))
      as (l' & Hg & _).
    eauto.
  - apply andb_true_iff in Hok as [Hl Hr]. cbv zeta in Hb.
    destruct (lvl <=? prec op)%nat.
    + rewrite append_assoc in Hb.
      apply (IHl Hl (prec op) _ (eq_refl : ends_run (String " " _)) pre lx Hb).
    + cbn [append] in Hb.
      destruct (@get_next_token_char lx pre _ _ _ Hb
                  (eq_refl : single_char_token "(" = Some (mkToken LPAREN (VStr "("))))
        as (l' & Hg & _).
      eauto.
Qed.

Lemma parsed_lift (lvl : nat) (a : Ast) (p p' : Parser.t) (pre rest : string) :
  Factor p (Ok (a, p')) -> ready p' pre rest -> follows (allowed lvl) rest ->
  parsed lvl a p p'.
Proof.
  intros Hf Hr Hfo. destruct lvl as [| [| lvl]]; cbn [parsed].
  - intros r Hl. apply Expr_intro with (f := a) (p1 := p'); [| exact Hl].
    apply Term_intro with (f := a) (p1 := p'); [exact Hf |].
    apply TermLoop_exit.
    pose proof (ready_follows Hr Hfo) as Hk. cbn [allowed] in Hk.
    destruct (type (Parser.curr_token p')); try discriminate; reflexivity.
  - intros r Hl. apply Term_intro with (f := a) (p1 := p'); assumption.
  - exact Hf.
Qed.

Lemma parsed_term_to_expr (a : Ast) (p p' : Parser.t) (pre rest : string) :
  parsed 1 a p p' -> ready p' pre rest -> follows (allowed 0) rest ->
  parsed 0 a p p'.
Proof.
  intros Ht Hr Hfo r Hl. apply Expr_intro with (f := a) (p1 := p'); [| exact Hl].
  apply Ht, TermLoop_exit.
  pose proof (ready_follows Hr Hfo) as Hk. cbn [allowed] in Hk.
  destruct (type (Parser.curr_token p')); try discriminate; reflexivity.
Qed.

(** The operator and right operand of a binary expression, from the parser
    [p1] that stands after the left operand. *)
Lemma operator_and_operand (op : BinKind) (r : expression) (rest pre1 : string)
      (p1 : Parser.t) :
  literals_ok r = true ->
  follows (allowed (prec op)) rest ->
  (forall pre p,
      ready p pre (print (S (prec op)) r ++ rest) ->
      exists p' pre', ready p' pre' rest
                      /\ parsed (S (prec op)) (to_ast r) p p') ->
  ready p1 pre1
        (String " " (String (symbol op) (String " " (print (S (prec op)) r ++ rest)))) ->
  exists p2 p3 pre3,
    Parser.curr_token p1 = op_token op
    /\ Parser.eat p1 (match prec op with
                      | O => [PLUS; MINUS]
                      | _ => [MULT; DIV]
                      end) = Ok p2
    /\ ready p3 pre3 rest
    /\ parsed (S (prec op)) (to_ast r) p2 p3.
Proof.
  intros Hr Hfo IHr Hp1.
  apply ready_space in Hp1; [| reflexivity].
  apply (ready_char (symbol_token op)) in Hp1 as [Hk Hb1].
  assert (Hrd : readable (String " " (print (S (prec op)) r ++ rest))).
  { apply readable_space, print_readable; [exact Hr | apply Hfo]. }
  assert (Ht : type_in (type (Parser.curr_token p1))
                       (match prec op with
                        | O => [PLUS; MINUS]
                        | _ => [MULT; DIV]
                        end) = true).
  { rewrite Hk. destruct op; reflexivity. }
  destruct (@eat_ready p1 _ _ _ Ht Hb1 Hrd) as (p2 & He & Hp2).
  apply ready_space in Hp2; [| reflexivity].
  destruct (IHr _ _ Hp2) as (p3 & pre3 & Hp3 & Hpar).
  exists p2, p3, pre3. repeat split; assumption.
Qed.

(** Parsing the text of an expression at a level of the grammar builds the
    tree of the expression and stops before what follows the text. *)
Lemma parse_print_level (e : expression) :
  literals_ok e = true ->
  forall lvl pre rest p,
    follows (allowed lvl) rest ->
    ready p pre (print lvl e ++ rest) ->
    exists p' pre', ready p' pre' rest /\ parsed lvl (to_ast e) p p'.
Proof.
  induction e as [d ds | minus e IH | op l IHl r IHr];
    cbn [literals_ok]; intros Hok lvl pre rest p Hfo Hp.
  - (* a literal *)
    cbn [print] in Hp.
    apply (ready_digits Hok (proj1 Hfo)) in Hp as [Hk Hb].
    assert (Ht : type_in (type (Parser.curr_token p)) [INTEGER] = true).
    { rewrite Hk. reflexivity. }
    destruct (@eat_ready p _ _ _ Ht Hb (follows_readable Hfo))
      as (p' & He & Hp').
    exists p', (pre ++ String d ds). split; [exact Hp' |].
    apply parsed_lift with (pre := pre ++ String d ds) (rest := rest);
      [| exact Hp' | exact Hfo].
    cbn [to_ast]. rewrite <- Hk. apply Factor_integer; [| exact He].
    rewrite Hk. reflexivity.
  - (* a sign and its operand *)
    cbn [print append] in Hp.
    apply (ready_char (sign_char_token minus)) in Hp as [Hk Hb].
    assert (Ht : type_in (type (Parser.curr_token p)) [PLUS; MINUS] = true).
    { rewrite Hk. destruct minus; reflexivity. }
    destruct (@eat_ready p _ _ _ Ht Hb
                (@print_readable e Hok 2%nat rest (proj1 Hfo)))
      as (p1 & He & Hp1).
    destruct (IH Hok 2%nat _ rest p1 (@follows_level _ _ Hfo) Hp1)
      as (p2 & pre2 & Hp2 & Hf).
    cbn [parsed] in Hf.
    exists p2, pre2. split; [exact Hp2 |].
    apply parsed_lift with (pre := pre2) (rest := rest);
      [| exact Hp2 | exact Hfo].
    cbn [to_ast]. rewrite <- Hk.
    apply Factor_unary with (p1 := p1); [| exact He | exact Hf].
    rewrite Hk. destruct minus; reflexivity.
  - (* an operator between its operands *)
    apply andb_true_iff in Hok as [Hl Hr].
    (* the text without parentheses, at the level of the operator *)
    assert (Hcore : forall pre rest p,
               follows (allowed (prec op)) rest ->
               ready p pre (print (prec op) (Binary op l r) ++ rest) ->
               exists p' pre', ready p' pre' rest
                               /\ parsed (prec op) (to_ast (Binary op l r)) p p').
    { clear pre rest p Hfo Hp. intros pre rest p Hfo Hp.
      cbn [print] in Hp. cbv zeta in Hp. rewrite Nat.leb_refl in Hp.
      rewrite append_assoc in Hp. cbn [append] in Hp.
      destruct (IHl Hl (prec op) pre _ p (follows_operator op _) Hp)
        as (p1 & pre1 & Hp1 & Hparl).
      destruct (@operator_and_operand op r rest pre1 p1 Hr Hfo)
        as (p2 & p3 & pre3 & Hk & He & Hp3 & Hparr); [| exact Hp1 |].
      { intros pre' p' Hp'.
        apply (IHr Hr (S (prec op)) pre' rest p'); [| exact Hp'].
        apply (@follows_level _ _ Hfo). }
      exists p3, pre3. split; [exact Hp3 |].
      cbn [to_ast]. rewrite <- Hk.
      destruct op; cbn [prec parsed] in *; intros res Hres; apply Hparl.
      - apply ExprLoop_step with (a := to_ast r) (p1 := p2) (p2 := p3);
          [rewrite Hk; reflexivity | exact He | | exact Hres].
        apply Hparr, TermLoop_exit.
        pose proof (ready_follows Hp3 Hfo) as Hk3. cbn [allowed] in Hk3.
        destruct (type (Parser.curr_token p3)); try discriminate; reflexivity.
      - apply ExprLoop_step with (a := to_ast r) (p1 := p2) (p2 := p3);
          [rewrite Hk; reflexivity | exact He | | exact Hres].
        apply Hparr, TermLoop_exit.
        pose proof (ready_follows Hp3 Hfo) as Hk3. cbn [allowed] in Hk3.
        destruct (type (Parser.curr_token p3)); try discriminate; reflexivity.
      - apply TermLoop_step with (a := to_ast r) (p1 := p2) (p2 := p3);
          [rewrite Hk; reflexivity | exact He | exact Hparr | exact Hres].
      - apply TermLoop_step with (a := to_ast r) (p1 := p2) (p2 := p3);
          [rewrite Hk; reflexivity | exact He | exact Hparr | exact Hres]. }
    (* the same text where an [expr] is read *)
    assert (Hexpr : forall pre rest p,
               follows (allowed 0) rest ->
               ready p pre (print (prec op) (Binary op l r) ++ rest) ->
               exists p' pre', ready p' pre' rest
                               /\ parsed 0 (to_ast (Binary op l r)) p p').
    { clear pre rest p Hfo Hp. intros pre rest p Hfo Hp.
      destruct (Hcore pre rest p (@follows_weaken _ _ Hfo) Hp)
        as (p' & pre' & Hp' & Hpar).
      exists p', pre'. split; [exact Hp' |].
      destruct op; cbn [prec] in Hpar; try exact Hpar;
        apply parsed_term_to_expr with (pre := pre') (rest := rest); assumption. }
    destruct (lvl <=? prec op)%nat eqn:Elvl.
    + (* no parentheses *)
      assert (Hsame : print lvl (Binary op l r) = print (prec op) (Binary op l r)).
      { cbn [print]. cbv zeta. rewrite Elvl, Nat.leb_refl. reflexivity. }
      rewrite Hsame in Hp. apply Nat.leb_le in Elvl.
      destruct lvl as [| lvl].
      * apply (Hexpr pre rest p Hfo Hp).
      * assert (Hlvl : prec op = S lvl).
        { destruct op; cbn [prec] in *; lia. }
        destruct (Hcore pre rest p) as (p' & pre' & Hp' & Hpar);
          [rewrite Hlvl; exact Hfo | exact Hp |].
        exists p', pre'. split; [exact Hp' |]. rewrite Hlvl in Hpar. exact Hpar.
    + (* parentheses *)
      assert (Hpar : print lvl (Binary op l r)
                     = String "(" (print (prec op) (Binary op l r) ++ ")")).
      { cbn [print]. cbv zeta. rewrite Elvl, Nat.leb_refl. reflexivity. }
      rewrite Hpar in Hp. cbn [append] in Hp. rewrite append_assoc in Hp.
      cbn [append] in Hp.
      apply (@ready_char p pre _ "("%char (mkToken LPAREN (VStr "(")) eq_refl)
        in Hp as [Hk Hb].
      assert (Ht : type_in (type (Parser.curr_token p)) [LPAREN] = true).
      { rewrite Hk. reflexivity. }
      destruct (@eat_ready p _ _ _ Ht Hb
                  (@print_readable (Binary op l r)
                     (proj2 (andb_true_iff _ _) (conj Hl Hr))
                     (prec op) (String ")" rest) eq_refl))
        as (p1 & He1 & Hp1).
      destruct (Hexpr _ _ p1 (follows_rparen rest) Hp1)
        as (p2 & pre2 & Hp2 & Hpar2).
      pose proof Hp2 as Hp2'.
      apply (@ready_char p2 pre2 _ ")"%char (mkToken RPAREN (VStr ")")) eq_refl)
        in Hp2' as [Hk2 Hb2].
      assert (Ht2 : type_in (type (Parser.curr_token p2)) [RPAREN] = true).
      { rewrite Hk2. reflexivity. }
      destruct (@eat_ready p2 _ _ _ Ht2 Hb2 (follows_readable Hfo))
        as (p3 & He3 & Hp3).
      exists p3, (pre2 ++ ")"). split; [exact Hp3 |].
      apply parsed_lift with (pre := pre2 ++ ")") (rest := rest);
        [| exact Hp3 | exact Hfo].
      apply Factor_paren with (p1 := p1) (p2 := p2);
        [rewrite Hk; reflexivity | exact He1 | | exact He3].
      apply Hpar2, ExprLoop_exit. rewrite Hk2. reflexivity.
Qed.

(** The text of an expression parses to the tree of the expression. *)
Lemma parse_line_print (e : expression) :
  literals_ok e = true -> parse_line (print 0 e) = Ok (to_ast e).
Proof.
  intros Hok.
  pose proof (before_init (print 0 e)) as Hb.
  rewrite <- (append_nil_r (print 0 e)) in Hb at 2.
  destruct (@print_readable e Hok 0%nat "" I "" _ Hb) as (k & l' & Hg).
  assert (Hp : ready (Parser.mk l' k) "" (print 0 e ++ "")).
  { exists (Lexer.__init__ (print 0 e)). split; [exact Hb | exact Hg]. }
  destruct (@parse_print_level e Hok 0%nat "" "" _ follows_end Hp)
    as (p' & pre' & Hp' & Hpar).
  destruct Hp' as (l0 & Hb0 & Hg0).
  destruct (get_next_token_at_end Hb0) as (l1 & Hg1).
  rewrite Hg0 in Hg1. injection Hg1 as Hk _.
  cbn [parsed] in Hpar.
  assert (He : Expr (Parser.mk l' k) (Ok (to_ast e, p'))).
  { apply Hpar, ExprLoop_exit. rewrite Hk. reflexivity. }
  apply Expr_parse in He.
  unfold parse_line, Parser.__init__. rewrite Hg. cbn [bind].
  rewrite He. reflexivity.
Qed.

(** The interpreter computes the value of the expression. *)
Lemma visit_to_ast (e : expression) :
  Interpreter.visit (to_ast e)
  = match denote e with
    | Some z => Ok (VInt z)
    | None => Raise ZeroDivisionError
    end.
Proof.
  induction e as [d ds | minus e IH | op l IHl r IHr]; cbn [to_ast denote].
  - reflexivity.
  - destruct minus; cbn [Interpreter.visit sign_token type TokenType_eqb];
      rewrite IH; destruct (denote e); reflexivity.
  - destruct op;
      cbn [Interpreter.visit op_token type Interpreter.lookup
             Interpreter.operations TokenType_eqb bind];
      rewrite IHl, IHr; destruct (denote l), (denote r); cbn [bind];
        try reflexivity.
    cbn [py_floordiv]. destruct (_ =? 0); reflexivity.
Qed.

(** Evaluating the text of an expression gives the value of the
    expression. *)
Lemma evaluate_print (e : expression) :
  literals_ok e = true ->
  evaluate (print 0 e)
  = match denote e with
    | Some z => Ok (VInt z)
    | None => Raise ZeroDivisionError
    end.
Proof.
  intros Hok.
  rewrite evaluate_parse_line, (parse_line_print _ Hok). cbn [bind].
  apply visit_to_ast.
Qed.

(** ** Lines without a token *)

(** The first token of a line is EOF exactly when the line holds no token. *)
Lemma first_token_EOF_iff (s : string) :
  (exists k l, Lexer.get_next_token (Lexer.__init__ s) = Ok (k, l)
               /\ type k = EOF)
  <-> no_tokens s = true.
Proof.
  pose proof (@get_next_token_aux_no_tokens s ""
                (S (Lexer.remaining (Lexer.__init__ s)))
                (Lexer.__init__ s) (before_init s)) as H.
  assert (Hf : (String.length s < S (Lexer.remaining (Lexer.__init__ s)))%nat).
  { unfold Lexer.remaining, len. cbn [Lexer.source Lexer.pos Lexer.__init__].
    lia. }
  specialize (H Hf). unfold Lexer.get_next_token.
  destruct (no_tokens s).
  - split; [reflexivity |]. intros _. destruct H as (l & Hg).
    exists (mkToken EOF VNone), l. split; [exact Hg | reflexivity].
  - split; [| discriminate]. intros (k & l & Hg & Hk).
    exfalso. exact (H k l Hg Hk).
Qed.

(** A superscript digit passes [isdigit] and fails [int]: the lexer raises
    [ValueError] on it. *)
Lemma superscript_digit_raises :
  evaluate (String (ascii_of_nat 178) "") = Raise ValueError
  /\ evaluate (String "1" (String (ascii_of_nat 178) "")) = Raise ValueError.
Proof. split; vm_compute; reflexivity. Qed.

(** ** End of input *)

(** At the end of the string the lexer keeps answering EOF. *)
Lemma eof_at_end_is_sticky (l : Lexer.t) :
  len (Lexer.source l) <= Lexer.pos l + 1 ->
  exists l', Lexer.get_next_token l = Ok (mkToken EOF VNone, l')
             /\ len (Lexer.source l') <= Lexer.pos l' + 1.
Proof.
  intros H. unfold Lexer.get_next_token. cbn [Lexer.get_next_token_aux].
  unfold Lexer.advance. cbn [Lexer.source Lexer.pos].
  destruct (Lexer.pos l + 1 <? len (Lexer.source l)) eqn:E; [lia |].
  cbn [bind Lexer.set_curr_token Lexer.set_curr_char Lexer.pos Lexer.source].
  unfold Lexer.token_eq_type. cbn [orb].
  destruct (Lexer.pos l + 1 >=? len (Lexer.source l)) eqn:E'; [| lia].
  eexists. split; [reflexivity |]. simpl. lia.
Qed.

(** The iterator protocol does stop at EOF: [__next__] makes no further
    call of [get_next_token] once the current token is EOF. *)
Lemma next_stops_at_EOF (l : Lexer.t) :
  type (Lexer.curr_token l) = EOF -> Lexer.__next__ l = Ok None.
Proof. intros H. unfold Lexer.__next__. rewrite H. reflexivity. Qed.

(** ** The loop *)

Lemma main_invalid_input (line : string) (stdin : list string) (e : exn) :
  line <> ":q" -> parse_line line = Raise e ->
  (exists p, Parser.__init__ (Lexer.__init__ line) = Ok p) ->
  main (line :: stdin)
  = emit (Prompt "pyparser > ") (emit (Print "Invalid Input") (main stdin)).
Proof.
  intros Hq Hp [p Hi]. cbn [main].
  apply String.eqb_neq in Hq. rewrite Hq, Hi.
  unfold parse_line in Hp. rewrite Hi in Hp. cbn [bind] in Hp.
  destruct (Parser.parse p) as [[a p'] | e' |]; try discriminate.
  reflexivity.
Qed.

(** After a successful [parse] the loop calls [Interpreter()] without the
    tree: the call raises [TypeError] outside the [try], nothing is printed
    and the rest of the input is never read. *)
Lemma main_parsed_line_is_fatal (line : string) (stdin : list string) (a : Ast) :
  line <> ":q" -> parse_line line = Ok a ->
  main (line :: stdin) = ([Prompt "pyparser > "], Uncaught TypeError).
Proof.
  intros Hq Hp. cbn [main].
  apply String.eqb_neq in Hq. rewrite Hq.
  unfold parse_line in Hp.
  destruct (Parser.__init__ (Lexer.__init__ line)) as [p | e |];
    try discriminate.
  cbn [bind] in Hp.
  destruct (Parser.parse p) as [[a' p'] | e' |]; try discriminate.
  reflexivity.
Qed.

(** * Further properties of the code *)

(** ** The lexer and the unread text *)

Lemma span_digits_spec (s : string) :
  s = fst (span_digits s) ++ snd (span_digits s)
  /\ str_forallb isdigit (fst (span_digits s)) = true
  /\ ends_run (snd (span_digits s)).
Proof.
  induction s as [| c s IH]; [repeat split |].
  cbn [span_digits]. destruct (isdigit c) eqn:Ec.
  - destruct (span_digits s) as [ds rest]. cbn [fst snd] in *.
    destruct IH as (Hs & Hd & He). repeat split.
    + cbn [append]. congruence.
    + cbn [str_forallb]. rewrite Ec, Hd. reflexivity.
    + exact He.
  - repeat split. exact Ec.
Qed.

(** From a cursor just before a maximal run of [isdigit] characters,
    [get_next_token] converts the whole run with [int]. *)
Lemma get_next_token_digit_run (l : Lexer.t) (pre rest : string) (d : ascii) (ds : string) :
  str_forallb isdigit (String d ds) = true -> ends_run rest ->
  before l pre (String d ds ++ rest) ->
  exists l1,
    before l1 (pre ++ String d ds) rest
    /\ Lexer.get_next_token l
       = (n <- int_of_str (String d ds) ;;
          Ok (mkToken INTEGER (VInt n),
              Lexer.set_curr_token l1 (mkToken INTEGER (VInt n)))).
Proof.
  intros Hdig He Hb.
  pose proof (advance_before_char Hb) as Ha.
  destruct (@take_full_integer_run
              (Lexer.mk (Lexer.source l) (len pre) (Lexer.CChr d)
                        (Lexer.curr_token l)) pre (String d ds) rest)
    as (l1 & Hb1 & Ht); try assumption.
  { destruct Hb as [Hsrc _]. repeat split. exact Hsrc. }
  exists l1. split; [exact Hb1 |].
  unfold Lexer.get_next_token. cbn [Lexer.get_next_token_aux].
  rewrite Ha. cbn [bind Lexer.pos Lexer.source].
  unfold Lexer.token_eq_type. cbn [orb].
  destruct (len pre >=? len (Lexer.source l)) eqn:E.
  { destruct Hb as [Hsrc _]. rewrite Hsrc, len_append in E.
    cbn [append] in E. rewrite len_String in E.
    pose proof (len_nonneg (ds ++ rest)). lia. }
  unfold Lexer.curr_char_is_digit. cbn [Lexer.curr_char bind].
  cbn [str_forallb] in Hdig. apply andb_true_iff in Hdig as [Hdd _].
  rewrite Hdd, Ht.
  destruct (int_of_str (String d ds)); reflexivity.
Qed.

Lemma single_char_token_None (c : ascii) :
  isdigit c = false -> single_char_token c = None -> isspace c = false ->
  unrecognized c = true.
Proof.
  unfold single_char_token, unrecognized, is_operation. intros Hd Hk Hs.
  rewrite Hd in Hk |- *. rewrite Hs.
  destruct (Lexer.lookup c Lexer.operations); [discriminate |].
  destruct (Ascii.eqb c "("); [discriminate |].
  destruct (Ascii.eqb c ")"); [discriminate |].
  reflexivity.
Qed.

Lemma isspace_single_char_token (c : ascii) :
  isspace c = true -> isdigit c = false /\ single_char_token c = None.
Proof.
  intros H. destruct (isspace_not_token _ H) as (Hd & Ho & Hl & Hr).
  split; [exact Hd |]. unfold single_char_token. rewrite Hd, Ho, Hl, Hr.
  reflexivity.
Qed.

(** The lexer does to its state what [next_token] does to the unread
    text. *)
Lemma get_next_token_next_token (s : string) :
  forall (pre : string) (l : Lexer.t),
    before l pre s ->
    match next_token s with
    | Ok (k, s') =>
      exists l', Lexer.get_next_token l = Ok (k, l')
                 /\ (type k = EOF \/ exists pre', before l' pre' s')
    | Raise e => Lexer.get_next_token l = Raise e
    | OutOfFuel => False
    end.
Proof.
  induction s as [| c s IH]; intros pre l Hb.
  - cbn [next_token]. destruct (get_next_token_at_end Hb) as (l' & Hg).
    exists l'. split; [exact Hg | left; reflexivity].
  - cbn [next_token]. destruct (isdigit c) eqn:Ed.
    + pose proof (span_digits_spec (String c s)) as (Hs & Hd & He).
      destruct (span_digits (String c s)) as [ds rest] eqn:Esp.
      cbn [fst snd] in *.
      destruct ds as [| d ds].
      { cbn [span_digits] in Esp. rewrite Ed in Esp.
        destruct (span_digits s); discriminate. }
      rewrite Hs in Hb.
      destruct (@get_next_token_digit_run l pre rest d ds Hd He Hb)
        as (l1 & Hb1 & Hg).
      rewrite Hg. destruct (int_of_str (String d ds)) as [n | e |] eqn:En;
        cbn [bind].
      * eexists. split; [reflexivity |]. right.
        exists (pre ++ String d ds). exact Hb1.
      * reflexivity.
      * exact (int_of_str_not_OutOfFuel _ En).
    + destruct (single_char_token c) as [k |] eqn:Ek.
      * destruct (@get_next_token_char l pre s c k Hb Ek) as (l' & Hg & Hb').
        exists l'. split; [exact Hg |]. right. eauto.
      * destruct (isspace c) eqn:Es.
        { destruct (@get_next_token_skip_space l pre s c Hb Es)
            as (l1 & Hb1 & Hg1).
          rewrite Hg1. apply (IH _ _ Hb1). }
        pose proof (single_char_token_None _ Ed Ek Es) as Hu.
        pose proof (advance_before_char Hb) as Ha.
        eexists. split.
        { unfold Lexer.get_next_token.
          apply get_next_token_aux_unrecognized with (c := c);
            [exact Ha | | reflexivity | exact Hu].
          cbn [Lexer.pos Lexer.source]. destruct Hb as [Hsrc _].
          rewrite Hsrc, len_append, len_String.
          pose proof (len_nonneg s). lia. }
        left. reflexivity.
Qed.

(** ** Texts with the same tokens *)

Lemma results_agree_bind {A B : Type} (R : A -> A -> Prop) (S : B -> B -> Prop)
      (m1 m2 : result A) (k1 k2 : A -> result B) :
  results_agree R m1 m2 ->
  (forall a1 a2, R a1 a2 -> results_agree S (k1 a1) (k2 a2)) ->
  results_agree S (bind m1 k1) (bind m2 k2).
Proof.
  intros Hm Hk. destruct m1 as [a1 | e1 |], m2 as [a2 | e2 |];
    cbn [results_agree bind] in *; try contradiction; auto.
Qed.

Lemma get_next_token_agree (l1 l2 : Lexer.t) :
  lexers_agree l1 l2 ->
  results_agree
    (fun x1 x2 => fst x1 = fst x2
                  /\ (type (fst x1) = EOF \/ lexers_agree (snd x1) (snd x2)))
    (Lexer.get_next_token l1) (Lexer.get_next_token l2).
Proof.
  intros (pre1 & pre2 & s1 & s2 & Hb1 & Hb2 & Hst).
  pose proof (get_next_token_next_token Hb1) as H1.
  pose proof (get_next_token_next_token Hb2) as H2.
  destruct Hst as [s1 s2 e E1 E2 | s1 s2 k r1 r2 E1 E2 Hk | s1 s2 k r1 r2 E1 E2 Hr];
    rewrite E1 in H1; rewrite E2 in H2.
  - rewrite H1, H2. reflexivity.
  - destruct H1 as (l1' & -> & _), H2 as (l2' & -> & _).
    cbn [results_agree fst snd]. auto.
  - destruct H1 as (l1' & -> & Hl1), H2 as (l2' & -> & Hl2).
    cbn [results_agree fst snd]. split; [reflexivity |].
    destruct Hl1 as [Hk | (pre1' & Hb1')]; [left; exact Hk |].
    destruct Hl2 as [Hk | (pre2' & Hb2')]; [left; exact Hk |].
    right. exists pre1', pre2', r1, r2. auto.
Qed.

Lemma eat_agree (p1 p2 : Parser.t) (tys : list TokenType) :
  type_in EOF tys = false -> parsers_agree p1 p2 ->
  results_agree parsers_agree (Parser.eat p1 tys) (Parser.eat p2 tys).
Proof.
  intros Hn [Hk Hl]. unfold Parser.eat. rewrite <- Hk.
  destruct (type_in (type (Parser.curr_token p1)) tys) eqn:Hin;
    [| reflexivity].
  destruct Hl as [He | Hl]; [rewrite He in Hin; congruence |].
  apply results_agree_bind with (1 := get_next_token_agree Hl).
  intros [k1 l1] [k2 l2] [Hk' Hl']. cbn [fst snd] in *. subst k2.
  split; cbn [Parser.curr_token Parser.lexer]; [reflexivity | exact Hl'].
Qed.

Lemma parsers_agree_type (p1 p2 : Parser.t) :
  parsers_agree p1 p2 ->
  type (Parser.curr_token p2) = type (Parser.curr_token p1).
Proof. intros [Hk _]. rewrite Hk. reflexivity. Qed.

Ltac agree_eat :=
  apply results_agree_bind with (R := parsers_agree);
  [apply eat_agree; [reflexivity | assumption] |].

(** Parsers that agree run in step: with the same fuel they build the same
    tree, or raise the same exception, and agree afterwards. *)
Lemma parser_agree (fuel : nat) :
  forall p1 p2 : Parser.t,
    parsers_agree p1 p2 ->
    results_agree trees_agree (Parser.factor fuel p1) (Parser.factor fuel p2)
    /\ (forall f, results_agree trees_agree (Parser.term_loop fuel f p1)
                                (Parser.term_loop fuel f p2))
    /\ results_agree trees_agree (Parser.term fuel p1) (Parser.term fuel p2)
    /\ (forall f, results_agree trees_agree (Parser.expr_loop fuel f p1)
                                (Parser.expr_loop fuel f p2))
    /\ results_agree trees_agree (Parser.expr fuel p1) (Parser.expr fuel p2).
Proof.
  induction fuel as [| fuel IH]; intros p1 p2 Hp.
  { repeat split. }
  pose proof (parsers_agree_type Hp) as Ht.
  pose proof (proj1 Hp) as Hk.
  split; [| split; [| split; [| split]]].
  - rewrite !factor_S. cbv zeta. rewrite Ht, <- Hk.
    destruct (TokenType_eqb (type (Parser.curr_token p1)) INTEGER).
    { agree_eat. intros q1 q2 Hq. split; [reflexivity | exact Hq]. }
    destruct (TokenType_eqb (type (Parser.curr_token p1)) LPAREN).
    { agree_eat. intros q1 q2 Hq.
      apply results_agree_bind with (R := trees_agree); [apply IH, Hq |].
      intros [a1 r1] [a2 r2] [Ha Hr]. cbn [fst snd] in *. subst a2.
      agree_eat. intros t1 t2 Ht'. split; [reflexivity | exact Ht']. }
    destruct (type_in (type (Parser.curr_token p1)) [PLUS; MINUS]);
      [| reflexivity].
    agree_eat. intros q1 q2 Hq.
    apply results_agree_bind with (R := trees_agree); [apply IH, Hq |].
    intros [a1 r1] [a2 r2] [Ha Hr]. cbn [fst snd] in *. subst a2.
    split; [reflexivity | exact Hr].
  - intros f. rewrite !term_loop_S. cbv zeta. rewrite Ht, <- Hk.
    destruct (type_in (type (Parser.curr_token p1)) [MULT; DIV]).
    + agree_eat. intros q1 q2 Hq.
      apply results_agree_bind with (R := trees_agree); [apply IH, Hq |].
      intros [a1 r1] [a2 r2] [Ha Hr]. cbn [fst snd] in *. subst a2.
      apply IH, Hr.
    + split; [reflexivity | exact Hp].
  - rewrite !term_S.
    apply results_agree_bind with (R := trees_agree); [apply IH, Hp |].
    intros [a1 r1] [a2 r2] [Ha Hr]. cbn [fst snd] in *. subst a2.
    apply IH, Hr.
  - intros f. rewrite !expr_loop_S. cbv zeta. rewrite Ht, <- Hk.
    destruct (type_in (type (Parser.curr_token p1)) [PLUS; MINUS]).
    + agree_eat. intros q1 q2 Hq.
      apply results_agree_bind with (R := trees_agree); [apply IH, Hq |].
      intros [a1 r1] [a2 r2] [Ha Hr]. cbn [fst snd] in *. subst a2.
      apply IH, Hr.
    + split; [reflexivity | exact Hp].
  - rewrite !expr_S.
    apply results_agree_bind with (R := trees_agree); [apply IH, Hp |].
    intros [a1 r1] [a2 r2] [Ha Hr]. cbn [fst snd] in *. subst a2.
    apply IH, Hr.
Qed.

Lemma parse_agree (p1 p2 : Parser.t) :
  parsers_agree p1 p2 ->
  results_agree trees_agree (Parser.parse p1) (Parser.parse p2).
Proof.
  intros Hp.
  pose proof (proj2 (proj2 (proj2 (proj2
                (@parser_agree (3 + 3 * Parser.measure p1) p1 p2 Hp))))) as H.
  fold (Parser.parse p1) in H.
  assert (Hn : Parser.expr (3 + 3 * Parser.measure p1) p2 <> OutOfFuel).
  { intros E. rewrite E in H. pose proof (parse_total p1) as Ht.
    destruct (Parser.parse p1); cbn [results_agree] in H;
      first [contradiction | congruence]. }
  rewrite (@parse_fuel_independent _ _ Hn). exact H.
Qed.

(** Lines with the same tokens parse to the same tree, or raise the same
    exception. *)
Lemma parse_line_same_tokens (s1 s2 : string) :
  same_tokens s1 s2 -> parse_line s1 = parse_line s2.
Proof.
  intros Hs.
  assert (Hl : lexers_agree (Lexer.__init__ s1) (Lexer.__init__ s2)).
  { exists "", "", s1, s2. repeat split; assumption. }
  pose proof (get_next_token_agree Hl) as Hg.
  unfold parse_line, Parser.__init__.
  destruct (Lexer.get_next_token (Lexer.__init__ s1)) as [[k1 l1] | e1 |],
           (Lexer.get_next_token (Lexer.__init__ s2)) as [[k2 l2] | e2 |];
    cbn [results_agree fst snd bind] in *; try contradiction;
    [| congruence | reflexivity].
  destruct Hg as [Hk Hl']. subst k2.
  assert (Hp : parsers_agree (Parser.mk l1 k1) (Parser.mk l2 k1)).
  { split; [reflexivity | exact Hl']. }
  apply parse_agree in Hp.
  destruct (Parser.parse (Parser.mk l1 k1)) as [[a1 q1] | x1 |],
           (Parser.parse (Parser.mk l2 k1)) as [[a2 q2] | x2 |];
    cbn [results_agree bind] in *; try contradiction;
    [| congruence | reflexivity].
  destruct Hp as [Ha _]. cbn [fst] in Ha. congruence.
Qed.

Lemma span_digits_head (c : ascii) (s : string) :
  isdigit c = true ->
  exists ds, fst (span_digits (String c s)) = String c ds.
Proof.
  intros Hc. cbn [span_digits]. rewrite Hc.
  destruct (span_digits s) as [ds rest]. exists ds. reflexivity.
Qed.

(** A token other than EOF takes at least one character of the text. *)
Lemma next_token_shorter (s : string) :
  forall k r, next_token s = Ok (k, r) ->
              (String.length r <= String.length s)%nat
              /\ (type k <> EOF -> (String.length r < String.length s)%nat).
Proof.
  induction s as [| c s IH]; intros k r H.
  - injection H as <- <-. split; [reflexivity | intros Hk; exfalso; apply Hk; reflexivity].
  - cbn [next_token] in H. destruct (isdigit c) eqn:Ed.
    + pose proof (span_digits_spec (String c s)) as (Hs & _ & _).
      destruct (@span_digits_head c s Ed) as (ds & Hds).
      destruct (span_digits (String c s)) as [ds' rest]. cbn [fst snd] in *.
      subst ds'. bind_inv H. injection H as <- <-.
      apply (f_equal String.length) in Hs. rewrite length_append in Hs.
      cbn [String.length] in *. lia.
    + destruct (single_char_token c) as [k' |].
      { injection H as <- <-. cbn [String.length]. lia. }
      destruct (isspace c).
      * apply IH in H as [Hle Hlt]. cbn [String.length].
        split; [lia |]. intros Hk. specialize (Hlt Hk). lia.
      * injection H as <- <-. cbn [String.length].
        split; [lia | intros Hk; exfalso; apply Hk; reflexivity].
Qed.

Lemma next_token_not_OutOfFuel (s : string) : next_token s <> OutOfFuel.
Proof.
  induction s as [| c s IH]; cbn [next_token]; [discriminate |].
  destruct (isdigit c).
  - destruct (span_digits (String c s)) as [ds rest].
    apply bind_not_OutOfFuel; [apply int_of_str_not_OutOfFuel | discriminate].
  - destruct (single_char_token c); [discriminate |].
    destruct (isspace c); [exact IH | discriminate].
Qed.

Lemma same_tokens_refl_aux (n : nat) :
  forall s, (String.length s < n)%nat -> same_tokens s s.
Proof.
  induction n as [| n IH]; intros s Hn; [lia |].
  destruct (next_token s) as [[k r] | e |] eqn:E.
  - destruct (TokenType_eqb (type k) EOF) eqn:Ek.
    + apply TokenType_eqb_eq in Ek. exact (@same_EOF _ _ _ _ _ E E Ek).
    + apply (@same_token _ _ _ _ _ E E). apply IH.
      apply next_token_shorter in E as [_ Hlt].
      assert (Hne : type k <> EOF).
      { intros Hk. rewrite Hk in Ek. discriminate. }
      specialize (Hlt Hne). lia.
  - exact (@same_raise _ _ _ E E).
  - exfalso. exact (next_token_not_OutOfFuel _ E).
Qed.

Lemma same_tokens_refl (s : string) : same_tokens s s.
Proof. apply (@same_tokens_refl_aux (S (String.length s))). lia. Qed.

(** Texts whose first token and remaining text coincide have the same
    tokens. *)
Lemma same_tokens_next (s1 s2 t1 t2 : string) :
  next_token s1 = next_token t1 -> next_token s2 = next_token t2 ->
  same_tokens t1 t2 -> same_tokens s1 s2.
Proof.
  intros H1 H2 Ht.
  destruct Ht as [t1 t2 e E1 E2 | t1 t2 k r1 r2 E1 E2 Hk | t1 t2 k r1 r2 E1 E2 Hr];
    rewrite E1 in H1; rewrite E2 in H2.
  - exact (@same_raise _ _ _ H1 H2).
  - exact (@same_EOF _ _ _ _ _ H1 H2 Hk).
  - exact (@same_token _ _ _ _ _ H1 H2 Hr).
Qed.

Lemma next_token_space (c : ascii) (s : string) :
  isspace c = true -> next_token (String c s) = next_token s.
Proof.
  intros Hc. destruct (isspace_single_char_token _ Hc) as [Hd Hk].
  cbn [next_token]. rewrite Hd, Hk, Hc. reflexivity.
Qed.

(** Whitespace at the head of a text adds no token. *)
Lemma same_tokens_leading (ws s : string) :
  str_forallb isspace ws = true -> same_tokens (ws ++ s) s.
Proof.
  induction ws as [| c ws IH]; cbn [str_forallb append]; intros H.
  - apply same_tokens_refl.
  - apply andb_true_iff in H as [Hc Hws].
    apply same_tokens_next with (t1 := ws ++ s) (t2 := s);
      [apply (@next_token_space c _ Hc) | reflexivity | apply IH, Hws].
Qed.

Lemma span_digits_app (s x : string) :
  ends_run x \/ snd (span_digits s) <> "" ->
  span_digits (s ++ x) = (fst (span_digits s), snd (span_digits s) ++ x).
Proof.
  induction s as [| c s IH]; intros H.
  - cbn [span_digits append fst snd].
    destruct H as [H | H]; [| cbn in H; congruence].
    destruct x as [| c x]; [reflexivity |].
    cbn [ends_run] in H. cbn [span_digits]. rewrite H. reflexivity.
  - cbn [append span_digits] in H |- *. destruct (isdigit c); [| reflexivity].
    destruct (span_digits s) as [ds rest] eqn:E. cbn [fst snd] in *.
    rewrite (IH H). reflexivity.
Qed.

Lemma no_tokens_ends_run (r : string) : no_tokens r = true -> ends_run r.
Proof.
  destruct r as [| c r]; [intros _; exact I |].
  cbn [no_tokens ends_run]. destruct (isspace c) eqn:Es.
  - intros _. apply (isspace_not_token _ Es).
  - intros H. apply (unrecognized_inv _ H).
Qed.

Lemma no_tokens_next_token (r : string) :
  no_tokens r = true -> exists r', next_token r = Ok (mkToken EOF VNone, r').
Proof.
  induction r as [| c r IH]; [intros _; exists ""; reflexivity |].
  cbn [no_tokens]. destruct (isspace c) eqn:Es.
  - intros H. rewrite (@next_token_space c _ Es). apply IH, H.
  - intros H. destruct (unrecognized_inv _ H) as (Hd & Ho & Hl & Hr & _).
    cbn [next_token]. unfold single_char_token.
    rewrite Hd, Ho, Hl, Hr, Es. eauto.
Qed.

Lemma next_token_app_digits (c : ascii) (s x : string) :
  isdigit c = true ->
  ends_run x \/ snd (span_digits (String c s)) <> "" ->
  next_token (String c s ++ x)
  = (n <- int_of_str (fst (span_digits (String c s))) ;;
     Ok (mkToken INTEGER (VInt n), snd (span_digits (String c s)) ++ x))
  /\ next_token (String c s)
     = (n <- int_of_str (fst (span_digits (String c s))) ;;
        Ok (mkToken INTEGER (VInt n), snd (span_digits (String c s)))).
Proof.
  intros Hc Hx. split.
  - pose proof (@span_digits_app (String c s) x Hx) as Hsp.
    cbn [append] in Hsp |- *. cbn [next_token]. rewrite Hc, Hsp. reflexivity.
  - cbn [next_token]. rewrite Hc.
    destruct (span_digits (String c s)). reflexivity.
Qed.

Lemma all_digits_ends_with_digit (s : string) :
  s <> "" -> str_forallb isdigit s = true -> ends_with_digit s = true.
Proof.
  induction s as [| c s IH]; [congruence |]. intros _ H.
  cbn [str_forallb] in H. apply andb_true_iff in H as [Hc Hs].
  destruct s as [| c' s]; [exact Hc |].
  change (ends_with_digit (String c' s) = true).
  apply IH; [discriminate | exact Hs].
Qed.

Lemma ends_with_digit_app (a b : string) :
  b <> "" -> ends_with_digit (a ++ b) = ends_with_digit b.
Proof.
  intros Hb. induction a as [| c a IH]; [reflexivity |].
  cbn [append]. destruct (a ++ b) as [| y ys] eqn:E.
  - destruct a; cbn [append] in E; [congruence | discriminate].
  - exact IH.
Qed.

(** Two continuations, [x1] and [x2], of a text [pre] that give the same
    tokens when read on their own give the same tokens after [pre], as long
    as neither is glued to a number that ends [pre]. *)
Lemma same_tokens_app_aux (x1 x2 : string) (n : nat) :
  same_tokens x1 x2 ->
  forall pre,
    (String.length pre < n)%nat ->
    (ends_run x1 /\ ends_run x2) \/ ends_with_digit pre = false ->
    same_tokens (pre ++ x1) (pre ++ x2).
Proof.
  intros Hx. induction n as [| n IH]; intros pre Hn Hc; [lia |].
  destruct pre as [| c pre]; [exact Hx |].
  cbn [String.length] in Hn.
  destruct (isdigit c) eqn:Ed.
  - pose proof (span_digits_spec (String c pre)) as (Hs & Hall & _).
    destruct (@span_digits_head c pre Ed) as (ds & Hds).
    destruct (@next_token_app_digits c pre x1 Ed) as [E1 _];
      [| destruct (@next_token_app_digits c pre x2 Ed) as [E2 _]].
    { destruct Hc as [[H _] | H]; [left; exact H | right].
      intros Erest. rewrite Erest, append_nil_r in Hs.
      rewrite <- Hs in Hall.
      rewrite (@all_digits_ends_with_digit (String c pre)) in H;
        [discriminate | discriminate | exact Hall]. }
    { destruct Hc as [[_ H] | H]; [left; exact H | right].
      intros Erest. rewrite Erest, append_nil_r in Hs.
      rewrite <- Hs in Hall.
      rewrite (@all_digits_ends_with_digit (String c pre)) in H;
        [discriminate | discriminate | exact Hall]. }
    destruct (span_digits (String c pre)) as [ds0 rest]. cbn [fst snd] in *.
    subst ds0.
    destruct (int_of_str (String c ds)) as [v | e |] eqn:Ei;
      cbn [bind] in E1, E2.
    + apply (@same_token _ _ _ _ _ E1 E2). apply IH.
      * apply (f_equal String.length) in Hs. rewrite length_append in Hs.
        cbn [String.length] in Hs. lia.
      * destruct Hc as [Hc | Hc]; [left; exact Hc | right].
        destruct rest as [| y ys]; [reflexivity |].
        rewrite Hs, ends_with_digit_app in Hc; [exact Hc | discriminate].
    + exact (@same_raise _ _ _ E1 E2).
    + exfalso. exact (int_of_str_not_OutOfFuel _ Ei).
  - assert (Hpre : (ends_run x1 /\ ends_run x2) \/ ends_with_digit pre = false).
    { destruct Hc as [Hc | Hc]; [left; exact Hc |]. right.
      destruct pre as [| y ys]; [reflexivity | exact Hc]. }
    destruct (single_char_token c) as [k |] eqn:Ek.
    + apply same_token with (k := k) (r1 := pre ++ x1) (r2 := pre ++ x2);
        [cbn [append next_token]; rewrite Ed, Ek; reflexivity ..
        | apply IH; [lia | exact Hpre]].
    + destruct (isspace c) eqn:Es.
      * apply same_tokens_next with (t1 := pre ++ x1) (t2 := pre ++ x2);
          [apply (@next_token_space c _ Es) ..
          | apply IH; [lia | exact Hpre]].
      * apply same_EOF with (k := mkToken EOF VNone) (r1 := pre ++ x1)
                            (r2 := pre ++ x2);
          [cbn [append next_token]; rewrite Ed, Ek, Es; reflexivity ..
          | reflexivity].
Qed.

(** The same, for every text [pre]. *)
Lemma same_tokens_app (pre x1 x2 : string) :
  same_tokens x1 x2 ->
  (ends_run x1 /\ ends_run x2) \/ ends_with_digit pre = false ->
  same_tokens (pre ++ x1) (pre ++ x2).
Proof.
  intros Hx Hc.
  apply (@same_tokens_app_aux x1 x2 (S (String.length pre)) Hx pre); [lia | exact Hc].
Qed.

(** Evaluation depends on a line only through its tokens. *)
Lemma evaluate_same_tokens (s1 s2 : string) :
  same_tokens s1 s2 -> evaluate s1 = evaluate s2.
Proof.
  intros H. rewrite !evaluate_parse_line, (parse_line_same_tokens H).
  reflexivity.
Qed.

(** ** The tokens and the exceptions of the lexer *)

Lemma digit_value_bounds (c : ascii) :
  isdecimal c = true -> 0 <= digit_value c <= 9.
Proof.
  unfold isdecimal, digit_value. intros H.
  apply andb_true_iff in H as [H1 H2].
  apply Z.leb_le in H1. apply Z.leb_le in H2. lia.
Qed.

Lemma int_acc_nonneg (s : string) :
  forall acc, 0 <= acc -> str_forallb isdecimal s = true -> 0 <= int_acc acc s.
Proof.
  induction s as [| c s IH]; intros acc Ha H; [exact Ha |].
  cbn [str_forallb] in H. apply andb_true_iff in H as [Hc Hs].
  cbn [int_acc]. apply IH; [| exact Hs].
  pose proof (digit_value_bounds _ Hc). lia.
Qed.

Lemma int_of_str_nonneg (s : string) (n : Z) : int_of_str s = Ok n -> 0 <= n.
Proof.
  unfold int_of_str. destruct s as [| c s]; [discriminate |].
  destruct (str_forallb isdecimal (String c s)) eqn:E; [| discriminate].
  intros H. injection H as <-.
  exact (@int_acc_nonneg (String c s) 0 (Z.le_refl 0) E).
Qed.

Lemma int_of_str_raise (s : string) (e : exn) :
  int_of_str s = Raise e -> e = ValueError.
Proof.
  unfold int_of_str. destruct s as [| c s]; [congruence |].
  destruct (str_forallb isdecimal (String c s)); congruence.
Qed.

Lemma single_char_token_valid (c : ascii) (k : Token) :
  single_char_token c = Some k -> valid_token k = true /\ type k <> EOF.
Proof.
  destruct c as [b0 b1 b2 b3 b4 b5 b6 b7].
  destruct b0, b1, b2, b3, b4, b5, b6, b7; vm_compute; intros H;
    try discriminate; injection H as <-; (split; [reflexivity | discriminate]).
Qed.

Lemma next_token_valid (s : string) :
  forall k r, next_token s = Ok (k, r) -> valid_token k = true.
Proof.
  induction s as [| c s IH]; intros k r H.
  - injection H as <- _. reflexivity.
  - cbn [next_token] in H. destruct (isdigit c).
    + destruct (span_digits (String c s)) as [ds rest].
      bind_inv H. injection H as <- _.
      apply int_of_str_nonneg in Ha. unfold valid_token. cbn [type value].
      apply Z.leb_le. exact Ha.
    + destruct (single_char_token c) as [k' |] eqn:Ek.
      { injection H as <- _. apply (single_char_token_valid _ Ek). }
      destruct (isspace c); [apply (IH _ _ H) |].
      injection H as <- _. reflexivity.
Qed.

Lemma next_token_raise (s : string) (e : exn) :
  next_token s = Raise e -> e = ValueError.
Proof.
  induction s as [| c s IH]; cbn [next_token]; [discriminate |].
  destruct (isdigit c).
  - destruct (span_digits (String c s)) as [ds rest].
    destruct (int_of_str ds) as [n | x |] eqn:E; cbn [bind]; try discriminate.
    intros H. injection H as <-. apply (int_of_str_raise _ E).
  - destruct (single_char_token c); [discriminate |].
    destruct (isspace c); [exact IH | discriminate].
Qed.

Lemma split_at (n : nat) :
  forall s, (n <= String.length s)%nat ->
            exists pre suf, s = pre ++ suf /\ String.length pre = n.
Proof.
  induction n as [| n IH]; intros s Hn.
  - exists "", s. split; reflexivity.
  - destruct s as [| c s]; [simpl in Hn; lia |].
    destruct (IH s) as (pre & suf & Hs & Hl); [simpl in Hn; lia |].
    exists (String c pre), suf. split; [cbn [append]; congruence |].
    cbn [String.length]. lia.
Qed.

(** A lexer whose cursor is at [-1] or later stands before a text, or past
    the end of its source. *)
Lemma cursor_cases (l : Lexer.t) :
  -1 <= Lexer.pos l ->
  (exists pre s, before l pre s) \/ len (Lexer.source l) <= Lexer.pos l + 1.
Proof.
  intros Hp.
  destruct (Z_lt_le_dec (Lexer.pos l + 1) (len (Lexer.source l))) as [Hlt | Hge];
    [left | right; exact Hge].
  destruct (@split_at (Z.to_nat (Lexer.pos l + 1)) (Lexer.source l))
    as (pre & suf & Hs & Hl).
  { unfold len in Hlt. lia. }
  exists pre, suf. split; [exact Hs |]. unfold len. lia.
Qed.

(** ** The exceptions of the parser *)

Lemma parse_result_bind {A B : Type} (P : A -> Prop) (Q : B -> Prop)
      (m : result A) (k : A -> result B) :
  parse_result P m ->
  (forall a, P a -> parse_result Q (k a)) ->
  parse_result Q (bind m k).
Proof.
  intros Hm Hk. destruct m as [a | e |]; cbn [parse_result bind] in *; auto.
Qed.

Lemma get_next_token_in_text (l : Lexer.t) (pre s : string) :
  before l pre s ->
  parse_result
    (fun x => valid_token (fst x) = true
              /\ (type (fst x) = EOF \/ exists pre' s', before (snd x) pre' s'))
    (Lexer.get_next_token l).
Proof.
  intros Hb. pose proof (get_next_token_next_token Hb) as H.
  destruct (next_token s) as [[k r] | e |] eqn:E; [| | contradiction].
  - destruct H as (l' & -> & Hl). cbn [parse_result fst snd].
    split; [apply (next_token_valid _ E) |].
    destruct Hl as [Hk | (pre' & Hb')]; [left; exact Hk | right; eauto].
  - rewrite H. left. apply (next_token_raise _ E).
Qed.

Lemma eat_in_text (p : Parser.t) (tys : list TokenType) :
  in_text p -> type_in EOF tys = false ->
  type_in (type (Parser.curr_token p)) tys = true \/ tys = [RPAREN] ->
  parse_result in_text (Parser.eat p tys).
Proof.
  intros Hp Hn Ht. unfold Parser.eat.
  destruct (type_in (type (Parser.curr_token p)) tys) eqn:Hin.
  - destruct Hp as [He | (pre & s & Hb)]; [rewrite He in Hin; congruence |].
    apply parse_result_bind with (1 := get_next_token_in_text Hb).
    intros [k l] [_ Hl]. cbn [fst snd parse_result] in *. exact Hl.
  - destruct Ht as [Ht | ->]; [discriminate |].
    right. right. exists (type (Parser.curr_token p)). reflexivity.
Qed.

Ltac result_eat :=
  apply parse_result_bind with (P := in_text);
  [apply eat_in_text; [assumption | reflexivity | auto] |].

(** From a parser that stands in a text, each function of the parser
    returns a parser that stands in the text or raises one of the three
    exceptions of parsing. *)
Lemma parser_results (fuel : nat) :
  forall p : Parser.t,
    in_text p ->
    parse_result (fun x => in_text (snd x)) (Parser.factor fuel p)
    /\ (forall f, parse_result (fun x => in_text (snd x))
                               (Parser.term_loop fuel f p))
    /\ parse_result (fun x => in_text (snd x)) (Parser.term fuel p)
    /\ (forall f, parse_result (fun x => in_text (snd x))
                               (Parser.expr_loop fuel f p))
    /\ parse_result (fun x => in_text (snd x)) (Parser.expr fuel p).
Proof.
  induction fuel as [| fuel IH]; intros p Hp.
  { repeat split. }
  split; [| split; [| split; [| split]]].
  - rewrite factor_S. cbv zeta.
    destruct (TokenType_eqb (type (Parser.curr_token p)) INTEGER) eqn:Ei.
    { result_eat.
      - left. cbn [type_in existsb]. rewrite Ei. reflexivity.
      - intros q Hq. exact Hq. }
    destruct (TokenType_eqb (type (Parser.curr_token p)) LPAREN) eqn:El.
    { result_eat.
      - left. cbn [type_in existsb]. rewrite El. reflexivity.
      - intros q Hq.
        apply parse_result_bind with (P := fun x => in_text (snd x));
          [apply IH, Hq |].
        intros [a r] Hr. cbn [snd] in Hr. result_eat.
        intros t Ht. exact Ht. }
    destruct (type_in (type (Parser.curr_token p)) [PLUS; MINUS]) eqn:Es.
    + result_eat. intros q Hq.
      apply parse_result_bind with (P := fun x => in_text (snd x));
        [apply IH, Hq |].
      intros [a r] Hr. exact Hr.
    + right. left. reflexivity.
  - intros f. rewrite term_loop_S. cbv zeta.
    destruct (type_in (type (Parser.curr_token p)) [MULT; DIV]) eqn:Eo.
    + result_eat. intros q Hq.
      apply parse_result_bind with (P := fun x => in_text (snd x));
        [apply IH, Hq |].
      intros [a r] Hr. apply IH, Hr.
    + exact Hp.
  - rewrite term_S.
    apply parse_result_bind with (P := fun x => in_text (snd x));
      [apply IH, Hp |].
    intros [a r] Hr. apply IH, Hr.
  - intros f. rewrite expr_loop_S. cbv zeta.
    destruct (type_in (type (Parser.curr_token p)) [PLUS; MINUS]) eqn:Eo.
    + result_eat. intros q Hq.
      apply parse_result_bind with (P := fun x => in_text (snd x));
        [apply IH, Hq |].
      intros [a r] Hr. apply IH, Hr.
    + exact Hp.
  - rewrite expr_S.
    apply parse_result_bind with (P := fun x => in_text (snd x));
      [apply IH, Hp |].
    intros [a r] Hr. apply IH, Hr.
Qed.

Lemma Parser_init_result (s : string) :
  parse_result in_text (Parser.__init__ (Lexer.__init__ s)).
Proof.
  unfold Parser.__init__.
  apply parse_result_bind with (1 := get_next_token_in_text (before_init s)).
  intros [k l] [_ Hl]. exact Hl.
Qed.

Lemma parse_line_raise (s : string) (e : exn) :
  parse_line s = Raise e -> parse_exn e.
Proof.
  unfold parse_line. intros H.
  pose proof (Parser_init_result s) as Hi.
  destruct (Parser.__init__ (Lexer.__init__ s)) as [p | x |];
    cbn [bind parse_result] in *; [| congruence | discriminate].
  pose proof (proj2 (proj2 (proj2 (proj2
                (@parser_results (3 + 3 * Parser.measure p) p Hi))))) as Hr.
  fold (Parser.parse p) in Hr.
  destruct (Parser.parse p) as [[a q] | x |]; cbn [bind parse_result] in *;
    [discriminate | congruence | discriminate].
Qed.

(** ** The parser and the grammar *)

Lemma reads_app (s s1 s2 : string) (ts1 ts2 : list Token) :
  reads s ts1 s1 -> reads s1 ts2 s2 -> reads s (ts1 ++ ts2)%list s2.
Proof.
  intros H1 H2. induction H1 as [s | s r s' k ts Hn Hr IH]; [exact H2 |].
  cbn [app]. apply reads_cons with (r := r); [exact Hn | apply IH, H2].
Qed.

Lemma reads_nil_inv (s s' : string) : reads s [] s' -> s' = s.
Proof. intros H. inversion H. reflexivity. Qed.

Lemma reads_cons_inv (s s' : string) (k : Token) (ts : list Token) :
  reads s (k :: ts) s' -> exists r, next_token s = Ok (k, r) /\ reads r ts s'.
Proof. intros H. inversion H; subst. eauto. Qed.

Lemma reads_app_inv (ts1 ts2 : list Token) :
  forall s s2, reads s (ts1 ++ ts2)%list s2 ->
               exists s1, reads s ts1 s1 /\ reads s1 ts2 s2.
Proof.
  induction ts1 as [| k ts1 IH]; intros s s2 H.
  - exists s. split; [constructor | exact H].
  - cbn [app] in H. inversion H as [| s0 r s' k0 ts Hn Hr]; subst.
    destruct (IH _ _ Hr) as (s1 & H1 & H2).
    exists s1. split; [apply reads_cons with (r := r); assumption | exact H2].
Qed.

(** When the text after the tokens has a first token, so has the text
    itself. *)
Lemma reads_first (s s' : string) (ts : list Token) :
  reads s ts s' ->
  (exists k r, next_token s' = Ok (k, r)) ->
  exists k r, next_token s = Ok (k, r).
Proof.
  intros H Hs'. destruct H as [s | s r s' k ts Hn Hr]; [exact Hs' | eauto].
Qed.

Lemma stands_at_token (p : Parser.t) (s r : string) (k : Token) :
  stands_at p s -> next_token s = Ok (k, r) -> Parser.curr_token p = k.
Proof. intros (r' & Hn & _) H. congruence. Qed.

(** A parser is made at the text of its line. *)
Lemma Parser_init_stands_at (s : string) (p : Parser.t) :
  Parser.__init__ (Lexer.__init__ s) = Ok p -> stands_at p s.
Proof.
  unfold Parser.__init__. intros H.
  pose proof (get_next_token_next_token (before_init s)) as Hg.
  destruct (next_token s) as [[k r] | e |] eqn:E.
  - destruct Hg as (l' & Hg & Hl). rewrite Hg in H. cbn [bind] in H.
    injection H as <-. exists r. split; [exact E | exact Hl].
  - rewrite Hg in H. discriminate.
  - contradiction.
Qed.

Lemma Parser_init_at (s r : string) (k : Token) :
  next_token s = Ok (k, r) ->
  exists p, Parser.__init__ (Lexer.__init__ s) = Ok p /\ stands_at p s.
Proof.
  intros E. pose proof (get_next_token_next_token (before_init s)) as Hg.
  rewrite E in Hg. destruct Hg as (l' & Hg & Hl).
  exists (Parser.mk l' k). split.
  - unfold Parser.__init__. rewrite Hg. reflexivity.
  - exists r. split; [exact E | exact Hl].
Qed.

(** [eat] moves the parser over its lookahead. *)
Lemma eat_reads (p p' : Parser.t) (s : string) (tys : list TokenType) :
  stands_at p s -> Parser.eat p tys = Ok p' -> type_in EOF tys = false ->
  type_in (type (Parser.curr_token p)) tys = true
  /\ exists r, next_token s = Ok (Parser.curr_token p, r) /\ stands_at p' r.
Proof.
  intros (r & Hn & Hl) He Hn'. apply eat_Ok in He as [Ht Hg].
  split; [exact Ht |]. exists r. split; [exact Hn |].
  destruct Hl as [Hk | (pre & Hb)]; [rewrite Hk in Ht; congruence |].
  pose proof (get_next_token_next_token Hb) as H.
  destruct (next_token r) as [[k2 r2] | e |] eqn:E.
  - destruct H as (l' & Hg' & Hl'). rewrite Hg in Hg'.
    injection Hg' as Hk Hl2. exists r2. rewrite Hk, Hl2.
    split; [exact E | exact Hl'].
  - rewrite Hg in H. discriminate.
  - contradiction.
Qed.

Lemma eat_at (p : Parser.t) (s r r2 : string) (k k2 : Token) (tys : list TokenType) :
  stands_at p s -> next_token s = Ok (k, r) -> next_token r = Ok (k2, r2) ->
  type_in (type k) tys = true -> type_in EOF tys = false ->
  exists p', Parser.eat p tys = Ok p' /\ stands_at p' r.
Proof.
  intros (r' & Hn & Hl) Hs Hr Ht Hn'. rewrite Hs in Hn.
  injection Hn as Hk <-.
  destruct Hl as [He | (pre & Hb)].
  { rewrite Hk, He in Ht. congruence. }
  pose proof (get_next_token_next_token Hb) as H. rewrite Hr in H.
  destruct H as (l' & Hg & Hl').
  exists (Parser.mk l' k2). split.
  - apply eat_match; [rewrite <- Hk; exact Ht | exact Hg].
  - exists r2. split; [exact Hr | exact Hl'].
Qed.

Lemma type_in_operators (ty : TokenType) :
  type_in ty [PLUS; MINUS] = false -> type_in ty [MULT; DIV] = false ->
  type_in ty [PLUS; MINUS; MULT; DIV] = false.
Proof. destruct ty; cbn; intros; congruence. Qed.

Lemma type_in_operators_inv (ty : TokenType) :
  type_in ty [PLUS; MINUS; MULT; DIV] = false ->
  type_in ty [PLUS; MINUS] = false /\ type_in ty [MULT; DIV] = false.
Proof. destruct ty; cbn; intros; split; congruence. Qed.

(** Whatever the parser returns, it has read tokens of the grammar for the
    tree it returns, and stands at the text after them. *)
Lemma parser_sound (fuel : nat) :
  forall (p : Parser.t) (s : string),
    stands_at p s ->
    (forall a p', Parser.factor fuel p = Ok (a, p') ->
                  exists ts s', derives 2 ts a /\ reads s ts s' /\ stands_at p' s')
    /\ (forall f a p' ts0 s0,
           Parser.term_loop fuel f p = Ok (a, p') ->
           derives 1 ts0 f -> reads s0 ts0 s ->
           exists ts s',
             derives 1 ts a /\ reads s0 ts s' /\ stands_at p' s'
             /\ type_in (type (Parser.curr_token p')) [MULT; DIV] = false)
    /\ (forall a p',
           Parser.term fuel p = Ok (a, p') ->
           exists ts s',
             derives 1 ts a /\ reads s ts s' /\ stands_at p' s'
             /\ type_in (type (Parser.curr_token p')) [MULT; DIV] = false)
    /\ (forall f a p' ts0 s0,
           Parser.expr_loop fuel f p = Ok (a, p') ->
           derives 0 ts0 f -> reads s0 ts0 s ->
           type_in (type (Parser.curr_token p)) [MULT; DIV] = false ->
           exists ts s',
             derives 0 ts a /\ reads s0 ts s' /\ stands_at p' s'
             /\ type_in (type (Parser.curr_token p')) [PLUS; MINUS; MULT; DIV]
                = false)
    /\ (forall a p',
           Parser.expr fuel p = Ok (a, p') ->
           exists ts s',
             derives 0 ts a /\ reads s ts s' /\ stands_at p' s'
             /\ type_in (type (Parser.curr_token p')) [PLUS; MINUS; MULT; DIV]
                = false).
Proof.
  induction fuel as [| fuel IH]; intros p s Hs.
  { repeat split; intros; discriminate. }
  split; [| split; [| split; [| split]]].
  - intros a p' H. rewrite factor_S in H. cbv zeta in H.
    destruct (TokenType_eqb (type (Parser.curr_token p)) INTEGER) eqn:Ei.
    { apply TokenType_eqb_eq in Ei.
      apply bind_Ok in H. destruct H as (q & He & H).
      destruct (@eat_reads _ _ _ _ Hs He eq_refl) as (Ht & r & Hn & Hs').
      injection H as <- <-.
      exists [Parser.curr_token p], r. split; [| split].
      - apply derives_integer, Ei.
      - apply reads_cons with (r := r); [exact Hn | constructor].
      - exact Hs'. }
    destruct (TokenType_eqb (type (Parser.curr_token p)) LPAREN) eqn:El.
    { apply TokenType_eqb_eq in El.
      apply bind_Ok in H. destruct H as (q & He & H).
      destruct (@eat_reads _ _ _ _ Hs He eq_refl) as (Ht & r & Hn & Hs').
      bind_inv H. destruct a0 as [n q1].
      apply bind_Ok in H. destruct H as (q2 & He2 & H).
      injection H as <- <-.
      destruct (proj2 (proj2 (proj2 (proj2 (IH q r Hs')))) _ _ Ha)
        as (ts & s1 & Hd & Hr & Hs1 & _).
      destruct (@eat_reads _ _ _ _ Hs1 He2 eq_refl) as (Ht2 & r2 & Hn2 & Hs2).
      exists (Parser.curr_token p :: ts ++ [Parser.curr_token q1])%list, r2.
      split; [| split].
      - apply derives_paren; [exact El | exact Hd |].
        destruct (type (Parser.curr_token q1)); try discriminate; reflexivity.
      - apply reads_cons with (r := r); [exact Hn |].
        apply reads_app with (s1 := s1); [exact Hr |].
        apply reads_cons with (r := r2); [exact Hn2 | constructor].
      - exact Hs2. }
    destruct (type_in (type (Parser.curr_token p)) [PLUS; MINUS]) eqn:Es;
      [| discriminate].
    apply bind_Ok in H. destruct H as (q & He & H).
    destruct (@eat_reads _ _ _ _ Hs He eq_refl) as (Ht & r & Hn & Hs').
    bind_inv H. destruct a0 as [n q1]. injection H as <- <-.
    destruct (proj1 (IH q r Hs') _ _ Ha) as (ts & s1 & Hd & Hr & Hs1).
    exists (Parser.curr_token p :: ts), s1. split; [| split].
    + apply derives_sign; assumption.
    + apply reads_cons with (r := r); assumption.
    + exact Hs1.
  - intros f a p' ts0 s0 H Hd0 Hr0. rewrite term_loop_S in H.
    destruct (type_in (type (Parser.curr_token p)) [MULT; DIV]) eqn:Eo.
    + cbv zeta in H.
      apply bind_Ok in H. destruct H as (q & He & H).
      destruct (@eat_reads _ _ _ _ Hs He eq_refl) as (Ht & r & Hn & Hs').
      bind_inv H. destruct a0 as [n q1].
      destruct (proj1 (IH q r Hs') _ _ Ha) as (ts & s1 & Hd & Hr & Hs1).
      apply (proj1 (proj2 (IH q1 s1 Hs1)) _ _ _
                   (ts0 ++ Parser.curr_token p :: ts)%list s0 H).
      * apply derives_mult; assumption.
      * apply reads_app with (s1 := s); [exact Hr0 |].
        apply reads_cons with (r := r); assumption.
    + injection H as <- <-. exists ts0, s. auto.
  - intros a p' H. rewrite term_S in H.
    bind_inv H. destruct a0 as [n q1].
    destruct (proj1 (IH p s Hs) _ _ Ha) as (ts & s1 & Hd & Hr & Hs1).
    apply (proj1 (proj2 (IH q1 s1 Hs1)) _ _ _ ts s H);
      [apply derives_factor, Hd | exact Hr].
  - intros f a p' ts0 s0 H Hd0 Hr0 Hm. rewrite expr_loop_S in H.
    destruct (type_in (type (Parser.curr_token p)) [PLUS; MINUS]) eqn:Eo.
    + cbv zeta in H.
      apply bind_Ok in H. destruct H as (q & He & H).
      destruct (@eat_reads _ _ _ _ Hs He eq_refl) as (Ht & r & Hn & Hs').
      bind_inv H. destruct a0 as [n q1].
      destruct (proj1 (proj2 (proj2 (IH q r Hs'))) _ _ Ha)
        as (ts & s1 & Hd & Hr & Hs1 & Hm1).
      apply (proj1 (proj2 (proj2 (proj2 (IH q1 s1 Hs1)))) _ _ _
                   (ts0 ++ Parser.curr_token p :: ts)%list s0 H).
      * apply derives_add; assumption.
      * apply reads_app with (s1 := s); [exact Hr0 |].
        apply reads_cons with (r := r); assumption.
      * exact Hm1.
    + injection H as <- <-. exists ts0, s.
      repeat split; try assumption. apply type_in_operators; assumption.
  - intros a p' H. rewrite expr_S in H.
    bind_inv H. destruct a0 as [n q1].
    destruct (proj1 (proj2 (proj2 (IH p s Hs))) _ _ Ha)
      as (ts & s1 & Hd & Hr & Hs1 & Hm1).
    apply (proj1 (proj2 (proj2 (proj2 (IH q1 s1 Hs1)))) _ _ _ ts s H);
      [apply derives_term, Hd | exact Hr | exact Hm1].
Qed.

Lemma derives_nonempty (lvl : nat) (ts : list Token) (a : Ast) :
  derives lvl ts a -> ts <> [].
Proof.
  intros H. induction H; try discriminate; try assumption;
    intros E; apply app_eq_nil in E as [_ E]; discriminate.
Qed.

(** The parser reads every token sequence of the grammar: from a text that
    starts with the tokens of a tree it builds that tree, as [parsed] says
    for the level, provided that a token follows (which [eat] reads) and, at
    the level of [expr], that this token is not MULT or DIV. *)
Lemma derives_parsed (lvl : nat) (ts : list Token) (a : Ast) :
  derives lvl ts a ->
  forall (p : Parser.t) (s s' r : string) (k : Token),
    stands_at p s -> reads s ts s' -> next_token s' = Ok (k, r) ->
    (lvl = 0%nat -> type_in (type k) [MULT; DIV] = false) ->
    exists p', stands_at p' s' /\ parsed lvl a p p'.
Proof.
  intros H.
  induction H as [t Ht | t ts a Ht Hd IH | lp rp ts a Hl Hd IH Hr
                  | ts a Hd IH | ts1 ts2 t a b Hd1 IH1 Ht Hd2 IH2
                  | ts a Hd IH | ts1 ts2 t a b Hd1 IH1 Ht Hd2 IH2];
    intros p s s' r k Hs Hrd Hk Hlv.
  - apply reads_cons_inv in Hrd as (r0 & Hn & Hr0).
    apply reads_nil_inv in Hr0. subst s'.
    pose proof (stands_at_token Hs Hn) as Hc.
    destruct (@eat_at p s r0 r t k [INTEGER] Hs Hn Hk) as (p' & He & Hs');
      [rewrite Ht; reflexivity | reflexivity |].
    exists p'. split; [exact Hs' |]. cbn [parsed]. rewrite <- Hc.
    apply Factor_integer; [rewrite Hc; exact Ht | exact He].
  - apply reads_cons_inv in Hrd as (r0 & Hn & Hr0).
    pose proof (stands_at_token Hs Hn) as Hc.
    destruct (@reads_first _ _ _ Hr0 (ex_intro _ k (ex_intro _ r Hk)))
      as (k1 & r1 & Hn1).
    destruct (@eat_at p s r0 r1 t k1 [PLUS; MINUS] Hs Hn Hn1 Ht eq_refl)
      as (p1 & He & Hs1).
    destruct (IH p1 r0 s' r k Hs1 Hr0 Hk) as (p' & Hs' & Hp); [discriminate |].
    exists p'. split; [exact Hs' |]. cbn [parsed] in *. rewrite <- Hc.
    apply Factor_unary with (p1 := p1); [rewrite Hc; exact Ht | exact He | exact Hp].
  - apply reads_cons_inv in Hrd as (r0 & Hn & Hr0).
    pose proof (stands_at_token Hs Hn) as Hc.
    apply reads_app_inv in Hr0 as (s1 & Hr1 & Hr2).
    apply reads_cons_inv in Hr2 as (r2 & Hn2 & Hr3).
    apply reads_nil_inv in Hr3. subst s'.
    destruct (@reads_first _ _ _ Hr1 (ex_intro _ rp (ex_intro _ r2 Hn2)))
      as (k1 & r1 & Hn1).
    destruct (@eat_at p s r0 r1 lp k1 [LPAREN] Hs Hn Hn1) as (p1 & He & Hs1);
      [rewrite Hl; reflexivity | reflexivity |].
    destruct (IH p1 r0 s1 r2 rp Hs1 Hr1 Hn2) as (p2 & Hs2 & Hp).
    { intros _. rewrite Hr. reflexivity. }
    pose proof (stands_at_token Hs2 Hn2) as Hc2.
    destruct (@eat_at p2 s1 r2 r rp k [RPAREN] Hs2 Hn2 Hk) as (p3 & He3 & Hs3);
      [rewrite Hr; reflexivity | reflexivity |].
    exists p3. split; [exact Hs3 |]. cbn [parsed] in *.
    apply Factor_paren with (p1 := p1) (p2 := p2);
      [rewrite Hc; exact Hl | exact He | | exact He3].
    apply Hp, ExprLoop_exit. rewrite Hc2, Hr. reflexivity.
  - destruct (IH p s s' r k Hs Hrd Hk) as (p' & Hs' & Hp); [discriminate |].
    exists p'. split; [exact Hs' |]. cbn [parsed] in *.
    intros x Hx. apply Term_intro with (f := a) (p1 := p'); assumption.
  - apply reads_app_inv in Hrd as (s1 & Hr1 & Hr2).
    apply reads_cons_inv in Hr2 as (r2 & Hn2 & Hr3).
    destruct (IH1 p s s1 r2 t Hs Hr1 Hn2) as (p1 & Hs1 & Hp1); [discriminate |].
    pose proof (stands_at_token Hs1 Hn2) as Hc1.
    destruct (@reads_first _ _ _ Hr3 (ex_intro _ k (ex_intro _ r Hk)))
      as (k3 & r3 & Hn3).
    destruct (@eat_at p1 s1 r2 r3 t k3 [MULT; DIV] Hs1 Hn2 Hn3 Ht eq_refl)
      as (p2 & He & Hs2).
    destruct (IH2 p2 r2 s' r k Hs2 Hr3 Hk) as (p3 & Hs3 & Hp3); [discriminate |].
    exists p3. split; [exact Hs3 |]. cbn [parsed] in *.
    intros x Hx. apply Hp1.
    apply TermLoop_step with (a := b) (p1 := p2) (p2 := p3);
      [rewrite Hc1; exact Ht | exact He | exact Hp3 | rewrite Hc1; exact Hx].
  - destruct (IH p s s' r k Hs Hrd Hk) as (p' & Hs' & Hp); [discriminate |].
    exists p'. split; [exact Hs' |]. cbn [parsed] in *.
    intros x Hx. apply Expr_intro with (f := a) (p1 := p'); [| exact Hx].
    apply Hp, TermLoop_exit.
    rewrite (stands_at_token Hs' Hk). apply Hlv. reflexivity.
  - apply reads_app_inv in Hrd as (s1 & Hr1 & Hr2).
    apply reads_cons_inv in Hr2 as (r2 & Hn2 & Hr3).
    destruct (IH1 p s s1 r2 t Hs Hr1 Hn2) as (p1 & Hs1 & Hp1).
    { intros _. destruct (type t); try discriminate; reflexivity. }
    pose proof (stands_at_token Hs1 Hn2) as Hc1.
    destruct (@reads_first _ _ _ Hr3 (ex_intro _ k (ex_intro _ r Hk)))
      as (k3 & r3 & Hn3).
    destruct (@eat_at p1 s1 r2 r3 t k3 [PLUS; MINUS] Hs1 Hn2 Hn3 Ht eq_refl)
      as (p2 & He & Hs2).
    destruct (IH2 p2 r2 s' r k Hs2 Hr3 Hk) as (p3 & Hs3 & Hp3); [discriminate |].
    exists p3. split; [exact Hs3 |]. cbn [parsed] in *.
    intros x Hx. apply Hp1.
    apply ExprLoop_step with (a := b) (p1 := p2) (p2 := p3);
      [rewrite Hc1; exact Ht | exact He | | rewrite Hc1; exact Hx].
    apply Hp3, TermLoop_exit.
    rewrite (stands_at_token Hs3 Hk). apply Hlv. reflexivity.
Qed.

Lemma parse_line_total (s : string) : parse_line s <> OutOfFuel.
Proof.
  unfold parse_line.
  apply bind_not_OutOfFuel; [apply Parser_init_total |]. intros p _.
  apply bind_not_OutOfFuel; [apply parse_total |]. intros [a q] _.
  discriminate.
Qed.

(** [parse] returns a tree for exactly the lines that begin with an
    expression of the grammar followed by a token that is not an operator,
    and the tree is that of the expression. *)
Lemma parse_line_begins_with (s : string) (a : Ast) :
  parse_line s = Ok a <-> begins_with s a.
Proof.
  split.
  - unfold parse_line. intros H.
    bind_inv H. rename a0 into p. rename Ha into Hi.
    bind_inv H. destruct a0 as [a' p']. injection H as ->.
    apply Parser_init_stands_at in Hi.
    unfold Parser.parse in Ha.
    destruct (proj2 (proj2 (proj2 (proj2 (@parser_sound _ p s Hi)))) _ _ Ha)
      as (ts & s' & Hd & Hr & (r & Hn & _) & Ht).
    exists ts, s'. split; [exact Hd |]. split; [exact Hr |].
    exists (Parser.curr_token p'), r. split; assumption.
  - intros (ts & s' & Hd & Hr & k & r & Hn & Ht).
    destruct (@reads_first _ _ _ Hr (ex_intro _ k (ex_intro _ r Hn)))
      as (k0 & r0 & Hn0).
    destruct (@Parser_init_at _ _ _ Hn0) as (p & Hi & Hs).
    apply type_in_operators_inv in Ht as [Hpm Hmd].
    destruct (@derives_parsed _ _ _ Hd p s s' r k Hs Hr Hn (fun _ => Hmd))
      as (p' & Hs' & Hp).
    cbn [parsed] in Hp.
    assert (He : Expr p (Ok (a, p'))).
    { apply Hp, ExprLoop_exit. rewrite (stands_at_token Hs' Hn). exact Hpm. }
    apply Expr_parse in He.
    unfold parse_line. rewrite Hi. cbn [bind]. rewrite He. reflexivity.
Qed.

(** On every other line [parse] raises. *)
Lemma parse_line_rejects (s : string) :
  (forall a, ~ begins_with s a) ->
  exists e, parse_line s = Raise e /\ evaluate s = Raise e /\ parse_exn e.
Proof.
  intros Hn. destruct (parse_line s) as [a | e |] eqn:E.
  - exfalso. apply (Hn a), parse_line_begins_with, E.
  - exists e. split; [reflexivity |]. split.
    + rewrite evaluate_parse_line, E. reflexivity.
    + apply (@parse_line_raise _ _ E).
  - exfalso. exact (@parse_line_total _ E).
Qed.

(** * The claims *)

(** C1, as stated, fails: the line ["2 2"] is malformed, yet evaluation
    raises nothing and returns 2, because [parse] returns after the first
    expression without looking at the token that follows. *)
Lemma C1_trailing_literal_is_accepted :
  evaluate "2 2" = Ok (VInt 2) /\ (forall e, evaluate "2 2" <> Raise e).
Proof.
  assert (H : evaluate "2 2" = Ok (VInt 2)) by (vm_compute; reflexivity).
  split; [exact H |]. intros e He. rewrite H in He. discriminate.
Qed.

(** C1, amended.  [parse] returns a tree for exactly the lines that begin
    with an expression of the grammar followed by a token that is not an
    operator (EOF, an integer or a parenthesis), and the tree is that of the
    expression.  On every other line [parse] raises, with 'Invalid Factor',
    the message of [eat] for a missing right parenthesis, or the
    [ValueError] of the lexer, and evaluation raises the same exception and
    returns no value: so do ["2 +"], ["(2 + 3"] and [")"].  A lookahead that
    cannot start a factor raises 'Invalid Factor'; [eat] raises on a
    lookahead of another kind.  [parse] does not check that the token stream
    is exhausted: a line that begins with an expression evaluates as that
    expression, whatever follows the token after it; of two integer
    literals separated by a space only the first is evaluated. *)
Theorem C1_unexpected_token_raises :
  evaluate "2 +" = Raise (Exception "Invalid Factor")
  /\ evaluate "(2 + 3"
     = Raise (Exception "I was expecting for RPAREN but got EOF.")
  /\ evaluate ")" = Raise (Exception "Invalid Factor")
  /\ (forall s a, parse_line s = Ok a <-> begins_with s a)
  /\ (forall s, (forall a, ~ begins_with s a) ->
                exists e, parse_line s = Raise e /\ evaluate s = Raise e
                          /\ parse_exn e)
  /\ (forall s a, begins_with s a -> evaluate s = Interpreter.visit a)
  /\ (forall s e, parse_line s = Raise e -> evaluate s = Raise e)
  /\ (forall p,
         type_in (type (Parser.curr_token p)) [INTEGER; LPAREN; PLUS; MINUS]
         = false ->
         Parser.parse p = Raise (Exception "Invalid Factor"))
  /\ (forall p tys,
         type_in (type (Parser.curr_token p)) tys = false ->
         exists msg, Parser.eat p tys = Raise (Exception msg))
  /\ (forall a as_ b bs,
         str_forallb isdecimal (String a as_) = true ->
         str_forallb isdecimal (String b bs) = true ->
         evaluate (String a as_ ++ " " ++ String b bs)
         = Ok (VInt (int_acc 0 (String a as_)))).
Proof.
  split; [vm_compute; reflexivity |].
  split; [vm_compute; reflexivity |].
  split; [vm_compute; reflexivity |].
  split; [exact parse_line_begins_with |].
  split; [exact parse_line_rejects |].
  split.
  { intros s a H. apply parse_line_begins_with in H.
    rewrite evaluate_parse_line, H. reflexivity. }
  split.
  { intros s e H. rewrite evaluate_parse_line, H. reflexivity. }
  split; [exact parse_invalid_factor |].
  split.
  { intros p tys H. rewrite (eat_mismatch _ _ H). eauto. }
  intros a as_ b bs. apply evaluate_two_literals.
Qed.

Lemma C1_unexpected_token_raises_witness :
  evaluate "12 34" = Ok (VInt 12)
  /\ Parser.parse (Parser.mk (Lexer.__init__ "") (mkToken RPAREN (VStr ")")))
     = Raise (Exception "Invalid Factor")
  /\ parse_line "(1 + 2) 7"
     = Ok (BinOp (mkToken PLUS (VStr "+")) (Num (mkToken INTEGER (VInt 1)))
                 (Num (mkToken INTEGER (VInt 2))))
  /\ evaluate "(1 + 2) 7" = Ok (VInt 3)
  /\ exists e, parse_line "2 *" = Raise e /\ evaluate "2 *" = Raise e
               /\ parse_exn e.
Proof.
  assert (Hb : begins_with "(1 + 2) 7"
                 (BinOp (mkToken PLUS (VStr "+")) (Num (mkToken INTEGER (VInt 1)))
                        (Num (mkToken INTEGER (VInt 2))))).
  { exists ([mkToken LPAREN (VStr "(")]
            ++ ([mkToken INTEGER (VInt 1)] ++ mkToken PLUS (VStr "+")
                  :: [mkToken INTEGER (VInt 2)])
            ++ [mkToken RPAREN (VStr ")")])%list, " 7".
    split; [| split].
    - apply derives_term, derives_factor.
      apply derives_paren; [reflexivity | | reflexivity].
      apply derives_add; [| reflexivity |].
      + apply derives_term, derives_factor, derives_integer. reflexivity.
      + apply derives_factor, derives_integer. reflexivity.
    - repeat (eapply reads_cons; [vm_compute; reflexivity |]). apply reads_nil.
    - exists (mkToken INTEGER (VInt 7)), "". split; reflexivity. }
  split; [| split; [| split; [| split]]].
  - exact (proj2 (proj2 (proj2 (proj2 (proj2 (proj2 (proj2 (proj2 (proj2
             C1_unexpected_token_raises))))))))
             "1"%char "2" "3"%char "4" eq_refl eq_refl).
  - exact (proj1 (proj2 (proj2 (proj2 (proj2 (proj2 (proj2 (proj2
             C1_unexpected_token_raises)))))))
             (Parser.mk (Lexer.__init__ "") (mkToken RPAREN (VStr ")"))) eq_refl).
  - exact (proj2 (proj1 (proj2 (proj2 (proj2 C1_unexpected_token_raises))) _ _)
                 Hb).
  - exact (proj1 (proj2 (proj2 (proj2 (proj2 (proj2 C1_unexpected_token_raises)))))
                 _ _ Hb).
  - apply (proj1 (proj2 (proj2 (proj2 (proj2 C1_unexpected_token_raises))))).
    intros a Ha.
    apply (proj1 (proj2 (proj2 (proj2 C1_unexpected_token_raises)))) in Ha.
    vm_compute in Ha. discriminate.
Defined.

(** C2 fails on the code: on the source ["a1"] the first call of
    [get_next_token] returns EOF (for the unrecognized [a]) and the second
    call returns the INTEGER token 1. *)
Theorem C2_token_after_EOF :
  exists l1 l2,
    Lexer.get_next_token (Lexer.__init__ "a1") = Ok (mkToken EOF VNone, l1)
    /\ Lexer.get_next_token l1 = Ok (mkToken INTEGER (VInt 1), l2).
Proof.
  eexists. eexists. split; vm_compute; reflexivity.
Qed.

(** C3 fails on the code: on the lines ["1"] and ["2 +"] the loop prints
    nothing for ["1"], ends with an uncaught [TypeError] and never reads
    ["2 +"]. *)
Theorem C3_main_dies_after_successful_parse :
  main ["1"; "2 +"] = ([Prompt "pyparser > "], Uncaught TypeError).
Proof.
  apply main_parsed_line_is_fatal with (a := Num (mkToken INTEGER (VInt 1))).
  - discriminate.
  - vm_compute. reflexivity.
Qed.

(** C4: the evaluator respects precedence and left associativity.  For
    every expression, its text (operands of [+] and [-] grouped from the
    left, [*] and [/] binding tighter, parentheses only where the grouping
    departs from that) parses to the tree of the expression and evaluates
    to its value.  In particular ["8 - 3 - 2"] is the text of [(8 - 3) - 2]
    and is 3, ["2 + 3 * 4"] is the text of [2 + (3 * 4)] and is 14, and
    ["(2 + 3) * 4"] is the text of [(2 + 3) * 4] and is 20. *)
Theorem C4_precedence_and_associativity (e : expression) :
  literals_ok e = true ->
  parse_line (print 0 e) = Ok (to_ast e)
  /\ evaluate (print 0 e)
     = match denote e with
       | Some z => Ok (VInt z)
       | None => Raise ZeroDivisionError
       end
  /\ print 0 (Binary Sub (Binary Sub (Lit "8" "") (Lit "3" "")) (Lit "2" ""))
     = "8 - 3 - 2"
  /\ evaluate "8 - 3 - 2" = Ok (VInt 3)
  /\ print 0 (Binary Add (Lit "2" "") (Binary Mul (Lit "3" "") (Lit "4" "")))
     = "2 + 3 * 4"
  /\ evaluate "2 + 3 * 4" = Ok (VInt 14)
  /\ print 0 (Binary Mul (Binary Add (Lit "2" "") (Lit "3" "")) (Lit "4" ""))
     = "(2 + 3) * 4"
  /\ evaluate "(2 + 3) * 4" = Ok (VInt 20).
Proof.
  intros Hok.
  split; [apply parse_line_print, Hok |].
  split; [apply evaluate_print, Hok |].
  repeat split; vm_compute; reflexivity.
Qed.

Lemma C4_precedence_and_associativity_witness :
  parse_line "8 - (3 - 2) * 4"
  = Ok (BinOp (mkToken MINUS (VStr "-"))
              (Num (mkToken INTEGER (VInt 8)))
              (BinOp (mkToken MULT (VStr "*"))
                     (BinOp (mkToken MINUS (VStr "-"))
                            (Num (mkToken INTEGER (VInt 3)))
                            (Num (mkToken INTEGER (VInt 2))))
                     (Num (mkToken INTEGER (VInt 4)))))
  /\ evaluate "8 - (3 - 2) * 4" = Ok (VInt 4).
Proof.
  pose proof (@C4_precedence_and_associativity
                (Binary Sub (Lit "8" "")
                        (Binary Mul (Binary Sub (Lit "3" "") (Lit "2" ""))
                                (Lit "4" "")))
                eq_refl) as (Hp & He & _).
  split; [exact Hp | exact He].
Defined.

(** C5: binary division is floor division.  When the operands of a DIV node
    evaluate to the integers [a] and [b] with [b <> 0], the node evaluates
    to the integer [q] with [a = b * q + r] for a remainder [r] between 0
    and [b] ([b] excluded), that is, to the quotient rounded toward
    negative infinity; ["7 / 2"] is 3 and ["-7 / 2"] is -4. *)
Theorem C5_floor_division (v : Value) (l r : Ast) (a b : Z) :
  Interpreter.visit l = Ok (VInt a) ->
  Interpreter.visit r = Ok (VInt b) ->
  b <> 0 ->
  (exists q,
      Interpreter.visit (BinOp (mkToken DIV v) l r) = Ok (VInt q)
      /\ (0 < b -> b * q <= a < b * (q + 1))
      /\ (b < 0 -> b * (q + 1) < a <= b * q))
  /\ evaluate "7 / 2" = Ok (VInt 3)
  /\ evaluate "-7 / 2" = Ok (VInt (-4)).
Proof.
  intros Hl Hr Hb. split; [| split; vm_compute; reflexivity].
  exists (a / b). cbn [Interpreter.visit type Interpreter.lookup
                       Interpreter.operations TokenType_eqb bind].
  rewrite Hl, Hr. cbn [bind py_floordiv].
  destruct (b =? 0) eqn:E; [lia |].
  split; [reflexivity |].
  pose proof (Z.div_mod a b Hb) as Hdm.
  split; intros Hs.
  - pose proof (Z.mod_pos_bound a b Hs). lia.
  - pose proof (Z.mod_neg_bound a b Hs). lia.
Qed.

Lemma C5_floor_division_witness :
  (exists q,
      Interpreter.visit
        (BinOp (mkToken DIV (VStr "/"))
               (UnaryOp (mkToken MINUS (VStr "-")) (Num (mkToken INTEGER (VInt 7))))
               (Num (mkToken INTEGER (VInt 2))))
      = Ok (VInt q)
      /\ (0 < 2 -> 2 * q <= -7 < 2 * (q + 1))
      /\ (2 < 0 -> 2 * (q + 1) < -7 <= 2 * q))
  /\ evaluate "7 / 2" = Ok (VInt 3)
  /\ evaluate "-7 / 2" = Ok (VInt (-4)).
Proof.
  apply (@C5_floor_division (VStr "/")
           (UnaryOp (mkToken MINUS (VStr "-")) (Num (mkToken INTEGER (VInt 7))))
           (Num (mkToken INTEGER (VInt 2))) (-7) 2).
  - reflexivity.
  - reflexivity.
  - discriminate.
Defined.

(** C6: a DIV node whose right operand evaluates to zero raises
    [ZeroDivisionError] and returns no value, whatever its left operand (a
    tree of the parser) does; ["5 / 0"] raises [ZeroDivisionError]. *)
Theorem C6_division_by_zero (v : Value) (l r : Ast) :
  well_formed l = true ->
  Interpreter.visit r = Ok (VInt 0) ->
  Interpreter.visit (BinOp (mkToken DIV v) l r) = Raise ZeroDivisionError
  /\ evaluate "5 / 0" = Raise ZeroDivisionError.
Proof.
  intros Hl Hr. split; [| vm_compute; reflexivity].
  cbn [Interpreter.visit type Interpreter.lookup
         Interpreter.operations TokenType_eqb bind].
  destruct (visit_well_formed _ Hl) as [[a Ha] | Ha]; rewrite Ha;
    [| reflexivity].
  rewrite Hr. reflexivity.
Qed.

Lemma C6_division_by_zero_witness :
  Interpreter.visit
    (BinOp (mkToken DIV (VStr "/")) (Num (mkToken INTEGER (VInt 5)))
           (Num (mkToken INTEGER (VInt 0))))
  = Raise ZeroDivisionError
  /\ evaluate "5 / 0" = Raise ZeroDivisionError.
Proof.
  apply (@C6_division_by_zero (VStr "/") (Num (mkToken INTEGER (VInt 5)))
           (Num (mkToken INTEGER (VInt 0)))); reflexivity.
Defined.

(** C7: for every node [n] that evaluates to an integer [a], the unary
    minus of [n] evaluates to [-a] and the unary plus of [n] to [a]; an
    exception of [n] passes through both.  Unary operators nest: a sign
    written before the text of any operand [e] (a literal, a signed operand
    or a parenthesized expression) negates or keeps the value of [e];
    ["--5"] is 5, ["-(-5)"] is 5, ["+-3"] is -3. *)
Theorem C7_unary_operators (v : Value) (n : Ast) (e : expression) (z : Z) :
  literals_ok e = true ->
  denote e = Some z ->
  (forall a,
      Interpreter.visit n = Ok (VInt a) ->
      Interpreter.visit (UnaryOp (mkToken MINUS v) n) = Ok (VInt (- a))
      /\ Interpreter.visit (UnaryOp (mkToken PLUS v) n) = Ok (VInt a))
  /\ (forall x,
         Interpreter.visit n = Raise x ->
         Interpreter.visit (UnaryOp (mkToken MINUS v) n) = Raise x
         /\ Interpreter.visit (UnaryOp (mkToken PLUS v) n) = Raise x)
  /\ evaluate (String "-" (print 2 e)) = Ok (VInt (- z))
  /\ evaluate (String "+" (print 2 e)) = Ok (VInt z)
  /\ evaluate "--5" = Ok (VInt 5)
  /\ evaluate "-(-5)" = Ok (VInt 5)
  /\ evaluate "+-3" = Ok (VInt (-3)).
Proof.
  intros Hok Hz.
  split; [| split; [| split; [| split]]].
  - intros a Ha. cbn [Interpreter.visit type TokenType_eqb].
    rewrite Ha. split; reflexivity.
  - intros x Hx. cbn [Interpreter.visit type TokenType_eqb].
    rewrite Hx. split; reflexivity.
  - pose proof (@evaluate_print (Unary true e) Hok) as H.
    cbn [print denote] in H. rewrite Hz in H. exact H.
  - pose proof (@evaluate_print (Unary false e) Hok) as H.
    cbn [print denote] in H. rewrite Hz in H. exact H.
  - repeat split; vm_compute; reflexivity.
Qed.

Lemma C7_unary_operators_witness :
  Interpreter.visit
    (UnaryOp (mkToken MINUS (VStr "-"))
             (UnaryOp (mkToken MINUS (VStr "-")) (Num (mkToken INTEGER (VInt 5)))))
  = Ok (VInt 5)
  /\ evaluate "-+-(1 - 4)" = Ok (VInt (-3))
  /\ evaluate "++-(1 - 4)" = Ok (VInt 3).
Proof.
  pose proof (@C7_unary_operators
                (VStr "-")
                (UnaryOp (mkToken MINUS (VStr "-")) (Num (mkToken INTEGER (VInt 5))))
                (Unary false (Unary true (Binary Sub (Lit "1" "") (Lit "4" ""))))
                3 eq_refl eq_refl) as (Ha & _ & Hm & Hp & _).
  split; [exact (proj1 (Ha (-5) eq_refl)) |].
  split; [exact Hm | exact Hp].
Defined.

(** C8: when the character that [get_next_token] looks at (the current
    character after its [advance]) is not a digit, not one of [+ - * /],
    not a parenthesis and not whitespace, the call returns an EOF token and
    raises nothing. *)
Theorem C8_unrecognized_character_is_EOF (l l1 : Lexer.t) (c : ascii) :
  Lexer.advance false l = Ok l1 ->
  Lexer.pos l1 < len (Lexer.source l1) ->
  Lexer.curr_char l1 = Lexer.CChr c ->
  unrecognized c = true ->
  Lexer.get_next_token l
  = Ok (mkToken EOF VNone, Lexer.set_curr_token l1 (mkToken EOF VNone)).
Proof.
  intros Ha Hp Hc Hu. unfold Lexer.get_next_token.
  eapply get_next_token_aux_unrecognized; eassumption.
Qed.

Lemma C8_unrecognized_character_is_EOF_witness :
  Lexer.get_next_token (Lexer.__init__ "2 x 3")
  = Ok (mkToken INTEGER (VInt 2),
        Lexer.mk "2 x 3" 0 (Lexer.CTok (mkToken START VNone))
                 (mkToken INTEGER (VInt 2)))
  /\ Lexer.get_next_token
       (Lexer.mk "2 x 3" 1 (Lexer.CChr " ") (mkToken INTEGER (VInt 2)))
     = Ok (mkToken EOF VNone,
           Lexer.mk "2 x 3" 2 (Lexer.CChr "x") (mkToken EOF VNone)).
Proof.
  split; [vm_compute; reflexivity |].
  apply (@C8_unrecognized_character_is_EOF
           (Lexer.mk "2 x 3" 1 (Lexer.CChr " ") (mkToken INTEGER (VInt 2)))
           (Lexer.mk "2 x 3" 2 (Lexer.CChr "x") (mkToken INTEGER (VInt 2)))
           "x"%char).
  - vm_compute. reflexivity.
  - vm_compute. reflexivity.
  - reflexivity.
  - vm_compute. reflexivity.
Defined.

(** C9 fails on the code: the line that starts with the base-10 digits
    ["12"] and goes on with a superscript three and ["+1"].  The run of
    base-10 digits is ["12"], but the superscript passes [str.isdigit], so
    [take_full_integer] takes it too and [int] rejects the run: the first
    call of [get_next_token] raises [ValueError] where the claim has the
    INTEGER token 12, evaluation of the line raises as well, and [main]
    dies on it.  Without the superscript the line evaluates to 13. *)
Theorem C9_superscript_joins_the_digit_run :
  str_forallb isdecimal "12" = true
  /\ isdecimal (ascii_of_nat 179) = false
  /\ isdigit (ascii_of_nat 179) = true
  /\ Lexer.take_full_integer
       (Lexer.mk (String "1" (String "2" (String (ascii_of_nat 179) "+1")))
                 0 (Lexer.CChr "1") (mkToken START VNone))
     = Raise ValueError
  /\ Lexer.get_next_token
       (Lexer.__init__ (String "1" (String "2" (String (ascii_of_nat 179) "+1"))))
     = Raise ValueError
  /\ evaluate (String "1" (String "2" (String (ascii_of_nat 179) "+1")))
     = Raise ValueError
  /\ main [String "1" (String "2" (String (ascii_of_nat 179) "+1")); ":q"]
     = ([Prompt "pyparser > "], Uncaught ValueError)
  /\ evaluate "12+1" = Ok (VInt 13).
Proof. repeat split; vm_compute; reflexivity. Qed.

(** C10: for a line without a token (empty, whitespace only, or with an
    unrecognized character after the leading whitespace) the first token is
    EOF, [parse] raises 'Invalid Factor', and neither a tree nor a value is
    returned. *)
Theorem C10_no_token_is_invalid_factor (s : string) :
  no_tokens s = true ->
  (exists l, Lexer.get_next_token (Lexer.__init__ s) = Ok (mkToken EOF VNone, l))
  /\ parse_line s = Raise (Exception "Invalid Factor")
  /\ evaluate s = Raise (Exception "Invalid Factor").
Proof.
  intros H.
  assert (Hg : exists l, Lexer.get_next_token (Lexer.__init__ s)
                         = Ok (mkToken EOF VNone, l)).
  { pose proof (@get_next_token_aux_no_tokens s ""
                  (S (Lexer.remaining (Lexer.__init__ s)))
                  (Lexer.__init__ s) (before_init s)) as Hn.
    rewrite H in Hn. apply Hn.
    unfold Lexer.remaining, len. cbn [Lexer.source Lexer.pos Lexer.__init__].
    lia. }
  split; [exact Hg |]. destruct Hg as [l Hg].
  assert (Hp : parse_line s = Raise (Exception "Invalid Factor")).
  { unfold parse_line, Parser.__init__. rewrite Hg. cbn [bind].
    rewrite parse_invalid_factor; reflexivity. }
  split; [exact Hp |].
  rewrite evaluate_parse_line, Hp. reflexivity.
Qed.

Lemma C10_no_token_is_invalid_factor_witness :
  (exists l, Lexer.get_next_token (Lexer.__init__ "   ?1")
             = Ok (mkToken EOF VNone, l))
  /\ parse_line "   ?1" = Raise (Exception "Invalid Factor")
  /\ evaluate "   ?1" = Raise (Exception "Invalid Factor").
Proof.
  apply (@C10_no_token_is_invalid_factor "   ?1"). reflexivity.
Defined.

(** * Properties beyond the claims *)

(** X1: a call of [get_next_token] that returns a token keeps the source,
    moves the cursor strictly forward, stores the token it returns in
    [curr_token], and leaves the cursor inside the source unless the token
    is EOF. *)
Theorem lexer_moves_forward (l l' : Lexer.t) (k : Token) :
  Lexer.get_next_token l = Ok (k, l') ->
  Lexer.source l' = Lexer.source l
  /\ Lexer.pos l < Lexer.pos l'
  /\ (type k <> EOF -> Lexer.pos l' < len (Lexer.source l))
  /\ Lexer.curr_token l' = k.
Proof.
  unfold Lexer.get_next_token. apply get_next_token_aux_cursor.
Qed.

Lemma lexer_moves_forward_witness :
  let l := Lexer.mk "7+12*3" 1 (Lexer.CChr "+") (mkToken PLUS (VStr "+")) in
  let l' := Lexer.mk "7+12*3" 3 (Lexer.CChr "2") (mkToken INTEGER (VInt 12)) in
  Lexer.source l' = Lexer.source l
  /\ Lexer.pos l < Lexer.pos l'
  /\ (type (mkToken INTEGER (VInt 12)) <> EOF -> Lexer.pos l' < len (Lexer.source l))
  /\ Lexer.curr_token l' = mkToken INTEGER (VInt 12).
Proof.
  apply (@lexer_moves_forward
           (Lexer.mk "7+12*3" 1 (Lexer.CChr "+") (mkToken PLUS (VStr "+")))
           (Lexer.mk "7+12*3" 3 (Lexer.CChr "2") (mkToken INTEGER (VInt 12)))
           (mkToken INTEGER (VInt 12))).
  vm_compute. reflexivity.
Defined.

(** X2: from every state whose cursor is at [-1] or later, [get_next_token]
    returns one of the tokens the lexer makes (never START or SPACE; an
    INTEGER carries a non-negative [int], an operator or a parenthesis its
    character, EOF [None]) or raises [ValueError]; it raises nothing else. *)
Theorem lexer_returns_valid_token_or_ValueError (l : Lexer.t) :
  -1 <= Lexer.pos l ->
  (exists k l', Lexer.get_next_token l = Ok (k, l') /\ valid_token k = true)
  \/ Lexer.get_next_token l = Raise ValueError.
Proof.
  intros Hp. destruct (cursor_cases l Hp) as [(pre & s & Hb) | Hend].
  - pose proof (get_next_token_in_text Hb) as H.
    destruct (Lexer.get_next_token l) as [[k l'] | e |] eqn:E.
    + left. exists k, l'. split; [reflexivity | apply H].
    + right. cbn [parse_result] in H. pose proof (get_next_token_next_token Hb) as Hn.
      destruct (next_token s) as [[k r] | x |] eqn:En.
      * destruct Hn as (l' & Hg & _). congruence.
      * rewrite (next_token_raise _ En) in Hn. congruence.
      * contradiction.
    + exfalso. exact (@get_next_token_total l E).
  - destruct (eof_at_end_is_sticky l Hend) as (l' & Hg & _).
    left. exists (mkToken EOF VNone), l'. split; [exact Hg | reflexivity].
Qed.

Lemma lexer_returns_valid_token_or_ValueError_witness :
  (exists k l', Lexer.get_next_token (Lexer.__init__ "  (41") = Ok (k, l')
                /\ valid_token k = true)
  \/ Lexer.get_next_token (Lexer.__init__ "  (41") = Raise ValueError.
Proof.
  apply (@lexer_returns_valid_token_or_ValueError (Lexer.__init__ "  (41")).
  vm_compute. discriminate.
Defined.

(** X3: the lexer does to its state what [next_token] does to the unread
    text.  From a cursor just before a text [s], [get_next_token] returns
    the first token of [s] and leaves the cursor just before the rest of
    [s] (unless that token is EOF), or raises what [next_token] raises: the
    answer does not depend on the text already read. *)
Theorem lexer_reads_the_unread_text (l : Lexer.t) (pre s : string) :
  before l pre s ->
  match next_token s with
  | Ok (k, s') =>
    exists l', Lexer.get_next_token l = Ok (k, l')
               /\ (type k = EOF \/ exists pre', before l' pre' s')
  | Raise e => Lexer.get_next_token l = Raise e
  | OutOfFuel => False
  end.
Proof. apply get_next_token_next_token. Qed.

Lemma lexer_reads_the_unread_text_witness :
  exists l',
    Lexer.get_next_token
      (Lexer.mk "(1 +  23)*4" 3 (Lexer.CChr "+") (mkToken PLUS (VStr "+")))
    = Ok (mkToken INTEGER (VInt 23), l')
    /\ (type (mkToken INTEGER (VInt 23)) = EOF \/ exists pre', before l' pre' ")*4").
Proof.
  apply (@lexer_reads_the_unread_text
           (Lexer.mk "(1 +  23)*4" 3 (Lexer.CChr "+") (mkToken PLUS (VStr "+")))
           "(1 +" "  23)*4").
  split; reflexivity.
Defined.

(** X4: a maximal run of [isdigit] characters that holds a character [int]
    does not accept (a superscript digit) makes [get_next_token] raise
    [ValueError]. *)
Theorem digit_run_with_superscript_raises
        (l : Lexer.t) (pre rest : string) (d : ascii) (ds : string) :
  before l pre (String d ds ++ rest) ->
  str_forallb isdigit (String d ds) = true ->
  ends_run rest ->
  str_forallb isdecimal (String d ds) = false ->
  Lexer.get_next_token l = Raise ValueError.
Proof.
  intros Hb Hd He Hn.
  destruct (@get_next_token_digit_run l pre rest d ds Hd He Hb) as (l1 & _ & Hg).
  rewrite Hg. unfold int_of_str. rewrite Hn. reflexivity.
Qed.

Lemma digit_run_with_superscript_raises_witness :
  Lexer.get_next_token
    (Lexer.__init__ (String "2" (String (ascii_of_nat 179) "+1")))
  = Raise ValueError.
Proof.
  apply (@digit_run_with_superscript_raises
           (Lexer.__init__ (String "2" (String (ascii_of_nat 179) "+1")))
           "" "+1" "2"%char (String (ascii_of_nat 179) "")).
  - split; reflexivity.
  - reflexivity.
  - reflexivity.
  - reflexivity.
Defined.

(** X5: once the cursor has reached the last character of the source,
    [get_next_token] returns EOF, and does so again from the state it
    leaves. *)
Theorem eof_at_end_of_source_repeats (l : Lexer.t) :
  len (Lexer.source l) <= Lexer.pos l + 1 ->
  exists l' l'',
    Lexer.get_next_token l = Ok (mkToken EOF VNone, l')
    /\ Lexer.get_next_token l' = Ok (mkToken EOF VNone, l'')
    /\ len (Lexer.source l'') <= Lexer.pos l'' + 1.
Proof.
  intros H. destruct (eof_at_end_is_sticky l H) as (l' & Hg & H').
  destruct (eof_at_end_is_sticky l' H') as (l'' & Hg' & H'').
  exists l', l''. auto.
Qed.

Lemma eof_at_end_of_source_repeats_witness :
  exists l' l'',
    Lexer.get_next_token
      (Lexer.mk "1+2" 2 (Lexer.CChr "2") (mkToken INTEGER (VInt 2)))
    = Ok (mkToken EOF VNone, l')
    /\ Lexer.get_next_token l' = Ok (mkToken EOF VNone, l'')
    /\ len (Lexer.source l'') <= Lexer.pos l'' + 1.
Proof.
  apply (@eof_at_end_of_source_repeats
           (Lexer.mk "1+2" 2 (Lexer.CChr "2") (mkToken INTEGER (VInt 2)))).
  vm_compute. discriminate.
Defined.

(** X6: the iterator stops at EOF.  When [__next__] yields an EOF token, the
    next [__next__] raises [StopIteration] and calls the lexer no more. *)
Theorem iteration_stops_after_EOF (l l' : Lexer.t) (k : Token) :
  Lexer.__next__ l = Ok (Some (k, l')) ->
  type k = EOF ->
  Lexer.__next__ l' = Ok None.
Proof.
  unfold Lexer.__next__ at 1. intros H Hk.
  destruct (TokenType_eqb (type (Lexer.curr_token l)) EOF); [discriminate |].
  bind_inv H. destruct a as [k0 l0]. injection H as -> ->.
  unfold Lexer.get_next_token in Ha.
  apply get_next_token_aux_cursor in Ha as (_ & _ & _ & Hc).
  apply next_stops_at_EOF. rewrite Hc. exact Hk.
Qed.

Lemma iteration_stops_after_EOF_witness :
  Lexer.__next__ (Lexer.mk "a1" 0 (Lexer.CChr "a") (mkToken EOF VNone)) = Ok None.
Proof.
  apply (@iteration_stops_after_EOF (Lexer.__init__ "a1")
           (Lexer.mk "a1" 0 (Lexer.CChr "a") (mkToken EOF VNone))
           (mkToken EOF VNone)).
  - vm_compute. reflexivity.
  - reflexivity.
Defined.

(** X7: when an integer ends at index 0 of the source, the step back of
    [take_full_integer] stores a START [Token] in [curr_char] (the test of
    [advance] is [pos > 0]); the lexer still returns the INTEGER token and
    stands just before the rest of the source. *)
Theorem integer_at_index_0_leaves_a_token_in_curr_char (d : ascii) (rest : string) :
  isdecimal d = true ->
  ends_run rest ->
  Lexer.get_next_token (Lexer.__init__ (String d rest))
  = Ok (mkToken INTEGER (VInt (digit_value d)),
        Lexer.mk (String d rest) 0 (Lexer.CTok (mkToken START VNone))
                 (mkToken INTEGER (VInt (digit_value d))))
  /\ before (Lexer.mk (String d rest) 0 (Lexer.CTok (mkToken START VNone))
                      (mkToken INTEGER (VInt (digit_value d))))
            (String d "") rest.
Proof.
  intros Hd He. split; [| split; reflexivity].
  pose proof (advance_before_char (before_init (String d rest))) as Ha.
  cbn [Lexer.source Lexer.curr_token Lexer.__init__] in Ha.
  change (len "") with 0 in Ha.
  set (l1 := Lexer.mk (String d rest) 0 (Lexer.CChr d) (mkToken START VNone)) in *.
  destruct (@take_digits_run (String d "") "" rest
              (S (S (Lexer.remaining l1))) "" l1)
    as (l2 & Ht & Hsrc & Hpos & _).
  { cbn [str_forallb]. rewrite (isdecimal_isdigit _ Hd). reflexivity. }
  { exact He. }
  { repeat split. }
  { cbn [String.length]. lia. }
  cbn [append] in Ht, Hsrc, Hpos. change (len (String d "")) with 1 in Hpos.
  unfold Lexer.get_next_token. cbn [Lexer.get_next_token_aux].
  rewrite Ha. cbn [bind]. unfold Lexer.token_eq_type. cbn [orb].
  assert (E : (Lexer.pos l1 >=? len (Lexer.source l1)) = false).
  { unfold l1. cbn [Lexer.pos Lexer.source]. rewrite len_String.
    pose proof (len_nonneg rest). lia. }
  rewrite E. unfold Lexer.curr_char_is_digit.
  replace (Lexer.curr_char l1) with (Lexer.CChr d) by reflexivity.
  cbn [bind]. rewrite (isdecimal_isdigit _ Hd).
  unfold Lexer.take_full_integer. rewrite Ht. cbn [bind].
  unfold Lexer.advance. cbn [Lexer.pos Lexer.source]. rewrite Hpos, Hsrc.
  change (1 - 1 >? 0) with false. cbn [bind].
  unfold int_of_str. cbn [str_forallb]. rewrite Hd. cbn [andb bind int_acc].
  reflexivity.
Qed.

Lemma integer_at_index_0_leaves_a_token_in_curr_char_witness :
  Lexer.get_next_token (Lexer.__init__ "5+3")
  = Ok (mkToken INTEGER (VInt (digit_value "5")),
        Lexer.mk "5+3" 0 (Lexer.CTok (mkToken START VNone))
                 (mkToken INTEGER (VInt (digit_value "5"))))
  /\ before (Lexer.mk "5+3" 0 (Lexer.CTok (mkToken START VNone))
                      (mkToken INTEGER (VInt (digit_value "5"))))
            "5" "+3".
Proof.
  apply (@integer_at_index_0_leaves_a_token_in_curr_char "5"%char "+3");
    reflexivity.
Defined.

(** X8: evaluation depends on a line only through its tokens: two lines
    whose texts give the same tokens up to the first EOF parse to the same
    tree, or raise the same exception, and evaluate alike. *)
Theorem lines_with_the_same_tokens_evaluate_alike (s1 s2 : string) :
  same_tokens s1 s2 ->
  parse_line s1 = parse_line s2 /\ evaluate s1 = evaluate s2.
Proof.
  intros H. split; [apply parse_line_same_tokens | apply evaluate_same_tokens];
    exact H.
Qed.

Lemma lines_with_the_same_tokens_evaluate_alike_witness :
  parse_line "  2   +   3 " = parse_line "2+3"
  /\ evaluate "  2   +   3 " = evaluate "2+3".
Proof.
  apply (@lines_with_the_same_tokens_evaluate_alike "  2   +   3 " "2+3").
  apply same_token with (k := mkToken INTEGER (VInt 2))
                        (r1 := "   +   3 ") (r2 := "+3");
    [reflexivity | reflexivity |].
  apply same_token with (k := mkToken PLUS (VStr "+"))
                        (r1 := "   3 ") (r2 := "3");
    [reflexivity | reflexivity |].
  apply same_token with (k := mkToken INTEGER (VInt 3))
                        (r1 := " ") (r2 := "");
    [reflexivity | reflexivity |].
  apply same_EOF with (k := mkToken EOF VNone) (r1 := "") (r2 := "");
    reflexivity.
Defined.

(** X9: whitespace is ignored wherever it does not split a number.
    Inserting whitespace [ws] between two parts [pre] and [post] of a line
    leaves its value unchanged, unless [pre] ends with a digit and [post]
    begins with one. *)
Theorem whitespace_between_tokens_is_ignored (pre ws post : string) :
  str_forallb isspace ws = true ->
  ends_with_digit pre = false \/ ends_run post ->
  evaluate (pre ++ ws ++ post) = evaluate (pre ++ post).
Proof.
  intros Hws Hc. apply evaluate_same_tokens, same_tokens_app.
  - apply same_tokens_leading, Hws.
  - destruct Hc as [Hc | Hc]; [right; exact Hc | left].
    split; [| exact Hc].
    destruct ws as [| c ws]; [exact Hc |].
    cbn [str_forallb] in Hws. apply andb_true_iff in Hws as [Hc' _].
    cbn [append ends_run]. apply (isspace_not_token _ Hc').
Qed.

Lemma whitespace_between_tokens_is_ignored_witness :
  evaluate ("(12 -" ++ "   " ++ "5)*2") = evaluate ("(12 -" ++ "5)*2")
  /\ evaluate ("(12" ++ "  " ++ "- 5)*2") = evaluate ("(12" ++ "- 5)*2").
Proof.
  split.
  - apply (@whitespace_between_tokens_is_ignored "(12 -" "   " "5)*2");
      [reflexivity | left; reflexivity].
  - apply (@whitespace_between_tokens_is_ignored "(12" "  " "- 5)*2");
      [reflexivity | right; reflexivity].
Defined.

(** X10: a tail without a token is ignored.  When the end [r] of a line is
    whitespace, or whitespace and then an unrecognized character followed by
    anything, the line evaluates as the part before [r] does. *)
Theorem tail_without_token_is_ignored (pre r : string) :
  no_tokens r = true ->
  evaluate (pre ++ r) = evaluate pre.
Proof.
  intros Hr.
  rewrite <- (append_nil_r pre) at 2.
  apply evaluate_same_tokens, same_tokens_app.
  - destruct (no_tokens_next_token _ Hr) as (r' & E).
    apply same_EOF with (k := mkToken EOF VNone) (r1 := r') (r2 := "");
      [exact E | reflexivity | reflexivity].
  - left. split; [apply no_tokens_ends_run, Hr | exact I].
Qed.

Lemma tail_without_token_is_ignored_witness :
  evaluate ("2 * (3 + 4)" ++ "  # 5 + ") = evaluate "2 * (3 + 4)".
Proof.
  apply (@tail_without_token_is_ignored "2 * (3 + 4)" "  # 5 + ").
  reflexivity.
Defined.

(** X11: the loops of the lexer and the recursive descent of the parser
    terminate on every state: [take_full_integer], [get_next_token], [parse]
    and the whole pipeline never exhaust the fuel they run on, and [parse]
    returns what [expr] returns with any fuel that lets it finish. *)
Theorem lexer_and_parser_terminate
        (l : Lexer.t) (p : Parser.t) (s : string) (fuel : nat) :
  Parser.expr fuel p <> OutOfFuel ->
  Parser.parse p = Parser.expr fuel p
  /\ Parser.parse p <> OutOfFuel
  /\ Lexer.take_full_integer l <> OutOfFuel
  /\ Lexer.get_next_token l <> OutOfFuel
  /\ parse_line s <> OutOfFuel
  /\ evaluate s <> OutOfFuel.
Proof.
  intros H.
  split; [apply parse_fuel_independent, H |].
  split; [apply parse_total |].
  split; [apply take_full_integer_not_OutOfFuel |].
  split; [apply get_next_token_total |].
  split; [| apply evaluate_total].
  intros E. pose proof (evaluate_total s) as He.
  rewrite evaluate_parse_line, E in He. apply He. reflexivity.
Qed.

Lemma lexer_and_parser_terminate_witness :
  let p := Parser.mk (Lexer.mk "(1+2)*3" 0 (Lexer.CChr "(") (mkToken LPAREN (VStr "(")))
                     (mkToken LPAREN (VStr "(")) in
  Parser.parse p = Parser.expr 12 p
  /\ Parser.parse p <> OutOfFuel
  /\ Lexer.take_full_integer (Lexer.__init__ "") <> OutOfFuel
  /\ Lexer.get_next_token (Lexer.__init__ "") <> OutOfFuel
  /\ parse_line "((" <> OutOfFuel
  /\ evaluate "((" <> OutOfFuel.
Proof.
  apply (@lexer_and_parser_terminate
           (Lexer.__init__ "")
           (Parser.mk (Lexer.mk "(1+2)*3" 0 (Lexer.CChr "(") (mkToken LPAREN (VStr "(")))
                      (mkToken LPAREN (VStr "(")))
           "((" 12%nat).
  vm_compute. discriminate.
Defined.

(** X12: every tree that [parse] returns for a line is well formed: its
    numbers carry INTEGER tokens with an [int], its unary nodes a sign, its
    binary nodes one of the four operators, and no node is a bare [Ast]. *)
Theorem parsed_trees_are_well_formed (s : string) (a : Ast) :
  parse_line s = Ok a -> well_formed a = true.
Proof. apply parse_line_well_formed. Qed.

Lemma parsed_trees_are_well_formed_witness :
  well_formed
    (BinOp (mkToken MULT (VStr "*"))
           (UnaryOp (mkToken MINUS (VStr "-"))
                    (BinOp (mkToken PLUS (VStr "+"))
                           (Num (mkToken INTEGER (VInt 2)))
                           (Num (mkToken INTEGER (VInt 3)))))
           (Num (mkToken INTEGER (VInt 4))))
  = true.
Proof.
  apply (@parsed_trees_are_well_formed "-(2+3)*4"). vm_compute. reflexivity.
Defined.

(** X13: a line evaluates to an [int], or raises [ZeroDivisionError], or
    raises one of the exceptions of parsing ([ValueError], 'Invalid
    Factor', or the message of [eat] for a missing right parenthesis).  No
    other value and no other exception (no [IndexError], [AttributeError],
    [KeyError] or [TypeError], no other message of [eat]) leaves the
    pipeline. *)
Theorem evaluate_outcomes (s : string) :
  (exists z, evaluate s = Ok (VInt z))
  \/ evaluate s = Raise ZeroDivisionError
  \/ (exists e, evaluate s = Raise e /\ parse_exn e).
Proof.
  rewrite evaluate_parse_line.
  destruct (parse_line s) as [a | e |] eqn:E; cbn [bind].
  - apply parse_line_well_formed, visit_well_formed in E.
    destruct E as [[z Hz] | Hz]; rewrite Hz; eauto.
  - right. right. exists e. split; [reflexivity | apply (parse_line_raise _ E)].
  - exfalso. pose proof (evaluate_total s) as He.
    rewrite evaluate_parse_line, E in He. apply He. reflexivity.
Qed.

Lemma get_next_token_raise (l : Lexer.t) (pre s : string) (e : exn) :
  before l pre s -> Lexer.get_next_token l = Raise e -> e = ValueError.
Proof.
  intros Hb H. pose proof (get_next_token_next_token Hb) as Hn.
  destruct (next_token s) as [[k r] | x |] eqn:En.
  - destruct Hn as (l' & Hg & _). congruence.
  - rewrite (next_token_raise _ En) in Hn. congruence.
  - contradiction.
Qed.

Lemma Parser_init_raise (s : string) (e : exn) :
  Parser.__init__ (Lexer.__init__ s) = Raise e -> e = ValueError.
Proof.
  unfold Parser.__init__. intros H.
  destruct (Lexer.get_next_token (Lexer.__init__ s)) as [[k l] | x |] eqn:E;
    cbn [bind] in H; try discriminate.
  injection H as <-. apply (get_next_token_raise (before_init s) E).
Qed.

Ltac event_ok :=
  first [left; reflexivity | right; left; reflexivity | right; right; reflexivity].

Ltac events_ok := repeat (constructor; [event_ok |]); constructor.

(** X14: whatever the input, [main] writes only its prompt, 'Invalid Input'
    and 'Oui oui': it never prints a value.  It ends by returning (at
    [:q]) or with an uncaught [EOFError] (end of the input), [TypeError]
    (after a line that parses) or [ValueError] (from the lexer). *)
Theorem main_never_prints_a_value (stdin : list string) :
  Forall (fun ev => ev = Prompt "pyparser > " \/ ev = Print "Invalid Input"
                    \/ ev = Print "Oui oui")
         (fst (main stdin))
  /\ (snd (main stdin) = Returned
      \/ snd (main stdin) = Uncaught EOFError
      \/ snd (main stdin) = Uncaught TypeError
      \/ snd (main stdin) = Uncaught ValueError).
Proof.
  induction stdin as [| line stdin [IHev IHex]]; cbn [main emit fst snd].
  - split; [events_ok | auto].
  - destruct (String.eqb line ":q"); cbn [fst snd].
    { split; [events_ok | auto]. }
    destruct (Parser.__init__ (Lexer.__init__ line)) as [p | e |] eqn:Ei;
      cbn [fst snd].
    + destruct (Parser.parse p) as [[a q] | e |] eqn:Ep; cbn [fst snd emit].
      * split; [events_ok | auto].
      * split; [| exact IHex].
        constructor; [event_ok |]. constructor; [event_ok | exact IHev].
      * exfalso. exact (@parse_total p Ep).
    + apply Parser_init_raise in Ei. subst e.
      split; [events_ok | auto].
    + exfalso. exact (@Parser_init_total _ Ei).
Qed.

(** X15: lines that are rejected are answered one by one with 'Invalid
    Input', and the loop goes on: after any number of rejected lines, [:q]
    makes [main] print 'Oui oui' and return, leaving the rest of the input
    unread. *)
Theorem main_answers_rejected_lines_and_quits (lines rest : list string) :
  forallb rejected lines = true ->
  main (lines ++ ":q" :: rest)%list
  = ((flat_map (fun _ => invalid_input) lines
      ++ [Prompt "pyparser > "; Print "Oui oui"])%list, Returned).
Proof.
  induction lines as [| line lines IH]; intros H.
  - reflexivity.
  - cbn [forallb] in H. apply andb_true_iff in H as [Hl Hls].
    unfold rejected in Hl. apply andb_true_iff in Hl as [Hq Hp].
    apply negb_true_iff in Hq.
    change ((line :: lines) ++ ":q" :: rest)%list
      with (line :: (lines ++ ":q" :: rest))%list.
    cbn [main]. rewrite Hq.
    destruct (Parser.__init__ (Lexer.__init__ line)) as [p | e |];
      try discriminate.
    destruct (Parser.parse p) as [[a q] | e |]; try discriminate.
    rewrite (IH Hls). reflexivity.
Qed.

Lemma main_answers_rejected_lines_and_quits_witness :
  main (["2 +"; ")"; ""; "(1"] ++ ":q" :: ["1"])%list
  = ((flat_map (fun _ => invalid_input) ["2 +"; ")"; ""; "(1"]
      ++ [Prompt "pyparser > "; Print "Oui oui"])%list, Returned).
Proof.
  apply (@main_answers_rejected_lines_and_quits ["2 +"; ")"; ""; "(1"] ["1"]).
  vm_compute. reflexivity.
Defined.

(** X16: a line that begins with a run of [isdigit] characters that [int]
    does not accept ends the loop: [Parser(lexer)] reads the first token
    outside the [try], so the [ValueError] is not caught, nothing is printed
    and the rest of the input is not read. *)
Theorem main_dies_on_a_superscript_digit
        (d : ascii) (ds rest : string) (stdin : list string) :
  str_forallb isdigit (String d ds) = true ->
  ends_run rest ->
  str_forallb isdecimal (String d ds) = false ->
  main ((String d ds ++ rest) :: stdin)
  = ([Prompt "pyparser > "], Uncaught ValueError).
Proof.
  intros Hd He Hn.
  destruct (@get_next_token_digit_run
              (Lexer.__init__ (String d ds ++ rest)) "" rest d ds Hd He
              (before_init _)) as (l1 & _ & Hg).
  unfold int_of_str in Hg. rewrite Hn in Hg. cbn [bind] in Hg.
  cbn [main].
  assert (Hq : String.eqb (String d ds ++ rest) ":q" = false).
  { cbn [append String.eqb]. destruct (Ascii.eqb d ":") eqn:E; [| reflexivity].
    apply Ascii.eqb_eq in E. subst d. discriminate. }
  rewrite Hq. unfold Parser.__init__. rewrite Hg. reflexivity.
Qed.

Lemma main_dies_on_a_superscript_digit_witness :
  main [String (ascii_of_nat 178) " + 1"; ":q"]
  = ([Prompt "pyparser > "], Uncaught ValueError).
Proof.
  apply (@main_dies_on_a_superscript_digit
           (ascii_of_nat 178) "" " + 1" [":q"]); reflexivity.
Defined.

(** X17: parentheses around a whole expression change nothing: the text of
    an expression between [(] and [)] parses to the tree of the
    expression and evaluates to its value. *)
Theorem parentheses_around_an_expression (e : expression) :
  literals_ok e = true ->
  parse_line (String "(" (print 0 e ++ ")")) = Ok (to_ast e)
  /\ evaluate (String "(" (print 0 e ++ ")")) = evaluate (print 0 e).
Proof.
  intros Hok.
  assert (Hp : parse_line (String "(" (print 0 e ++ ")")) = Ok (to_ast e)).
  { destruct (@get_next_token_char
                (Lexer.__init__ (String "(" (print 0 e ++ ")")))
                "" (print 0 e ++ ")") "("%char (mkToken LPAREN (VStr "("))
                (before_init _) eq_refl) as (l0 & Hg0 & Hb0).
    assert (Ht : type_in (type (Parser.curr_token
                                  (Parser.mk l0 (mkToken LPAREN (VStr "(")))))
                         [LPAREN] = true) by reflexivity.
    destruct (@eat_ready (Parser.mk l0 (mkToken LPAREN (VStr "("))) _ _ _ Ht Hb0
                (@print_readable e Hok 0%nat ")" eq_refl))
      as (p1 & He1 & Hp1).
    destruct (@parse_print_level e Hok 0%nat _ ")" p1 (follows_rparen "") Hp1)
      as (p2 & pre2 & Hp2 & Hpar).
    pose proof Hp2 as Hp2'.
    apply (@ready_char p2 pre2 "" ")"%char (mkToken RPAREN (VStr ")")) eq_refl)
      in Hp2' as [Hk2 Hb2].
    assert (Ht2 : type_in (type (Parser.curr_token p2)) [RPAREN] = true).
    { rewrite Hk2. reflexivity. }
    destruct (@eat_ready p2 _ _ _ Ht2 Hb2 (follows_readable follows_end))
      as (p3 & He3 & Hp3).
    assert (Hf : Factor (Parser.mk l0 (mkToken LPAREN (VStr "("))) (Ok (to_ast e, p3))).
    { apply Factor_paren with (p1 := p1) (p2 := p2);
        [reflexivity | exact He1 | | exact He3].
      apply Hpar, ExprLoop_exit. rewrite Hk2. reflexivity. }
    pose proof (@parsed_lift 0 _ _ _ _ _ Hf Hp3 follows_end) as Hl.
    destruct Hp3 as (l3 & Hb3 & Hg3).
    destruct (get_next_token_at_end Hb3) as (l4 & Hg4).
    rewrite Hg3 in Hg4. injection Hg4 as Hk3 _.
    assert (Hx : Expr (Parser.mk l0 (mkToken LPAREN (VStr "("))) (Ok (to_ast e, p3))).
    { apply Hl, ExprLoop_exit. rewrite Hk3. reflexivity. }
    apply Expr_parse in Hx.
    unfold parse_line, Parser.__init__. rewrite Hg0. cbn [bind].
    rewrite Hx. reflexivity. }
  split; [exact Hp |].
  rewrite !evaluate_parse_line, Hp, (parse_line_print _ Hok). reflexivity.
Qed.

Lemma parentheses_around_an_expression_witness :
  parse_line "(1 - 2 * 3)"
  = Ok (to_ast (Binary Sub (Lit "1" "") (Binary Mul (Lit "2" "") (Lit "3" ""))))
  /\ evaluate "(1 - 2 * 3)" = evaluate "1 - 2 * 3".
Proof.
  apply (@parentheses_around_an_expression
           (Binary Sub (Lit "1" "") (Binary Mul (Lit "2" "") (Lit "3" "")))).
  reflexivity.
Defined.

Lemma eat_cursor (p p' : Parser.t) (tys : list TokenType) :
  Parser.eat p tys = Ok p' ->
  Lexer.source (Parser.lexer p') = Lexer.source (Parser.lexer p)
  /\ Lexer.pos (Parser.lexer p) < Lexer.pos (Parser.lexer p').
Proof.
  intros H. apply eat_Ok in H as [_ H]. unfold Lexer.get_next_token in H.
  apply get_next_token_aux_cursor in H as (Hs & Hp & _). auto.
Qed.

Ltac eat_forward H Hc :=
  let p1 := fresh "p" in
  let He := fresh "He" in
  apply bind_Ok in H; destruct H as (p1 & He & H);
  pose proof (eat_cursor _ _ He) as Hc.

Lemma parser_cursor (fuel : nat) :
  forall (p p' : Parser.t) (a : Ast),
    (Parser.factor fuel p = Ok (a, p') ->
     Lexer.source (Parser.lexer p') = Lexer.source (Parser.lexer p)
     /\ Lexer.pos (Parser.lexer p) < Lexer.pos (Parser.lexer p'))
    /\ (forall f, Parser.term_loop fuel f p = Ok (a, p') ->
        Lexer.source (Parser.lexer p') = Lexer.source (Parser.lexer p)
        /\ Lexer.pos (Parser.lexer p) <= Lexer.pos (Parser.lexer p'))
    /\ (Parser.term fuel p = Ok (a, p') ->
        Lexer.source (Parser.lexer p') = Lexer.source (Parser.lexer p)
        /\ Lexer.pos (Parser.lexer p) < Lexer.pos (Parser.lexer p'))
    /\ (forall f, Parser.expr_loop fuel f p = Ok (a, p') ->
        Lexer.source (Parser.lexer p') = Lexer.source (Parser.lexer p)
        /\ Lexer.pos (Parser.lexer p) <= Lexer.pos (Parser.lexer p'))
    /\ (Parser.expr fuel p = Ok (a, p') ->
        Lexer.source (Parser.lexer p') = Lexer.source (Parser.lexer p)
        /\ Lexer.pos (Parser.lexer p) < Lexer.pos (Parser.lexer p')).
Proof.
  induction fuel as [| fuel IH]; intros p p' a.
  { repeat split; intros; discriminate. }
  split; [| split; [| split; [| split]]].
  - intros H. rewrite factor_S in H. cbv zeta in H.
    destruct (TokenType_eqb (type (Parser.curr_token p)) INTEGER).
    { eat_forward H Hc. injection H as _ <-. exact Hc. }
    destruct (TokenType_eqb (type (Parser.curr_token p)) LPAREN).
    { eat_forward H Hc. bind_inv H. destruct a0 as [n p1].
      eat_forward H Hc2. injection H as _ <-.
      apply IH in Ha as [Hs Hp]. destruct Hc, Hc2. split; [congruence | lia]. }
    destruct (type_in (type (Parser.curr_token p)) [PLUS; MINUS]);
      [| discriminate].
    eat_forward H Hc. bind_inv H. destruct a0 as [n p1]. injection H as _ <-.
    apply IH in Ha as [Hs Hp]. destruct Hc. split; [congruence | lia].
  - intros f H. rewrite term_loop_S in H. cbv zeta in H.
    destruct (type_in (type (Parser.curr_token p)) [MULT; DIV]).
    + eat_forward H Hc. bind_inv H. destruct a0 as [n p1].
      apply IH in Ha as [Hs Hp]. apply IH in H as [Hs' Hp']. destruct Hc.
      split; [congruence | lia].
    + injection H as _ <-. split; [reflexivity | lia].
  - intros H. rewrite term_S in H. bind_inv H. destruct a0 as [n p1].
    apply IH in Ha as [Hs Hp]. apply IH in H as [Hs' Hp'].
    split; [congruence | lia].
  - intros f H. rewrite expr_loop_S in H. cbv zeta in H.
    destruct (type_in (type (Parser.curr_token p)) [PLUS; MINUS]).
    + eat_forward H Hc. bind_inv H. destruct a0 as [n p1].
      apply IH in Ha as [Hs Hp]. apply IH in H as [Hs' Hp']. destruct Hc.
      split; [congruence | lia].
    + injection H as _ <-. split; [reflexivity | lia].
  - intros H. rewrite expr_S in H. bind_inv H. destruct a0 as [n p1].
    apply IH in Ha as [Hs Hp]. apply IH in H as [Hs' Hp'].
    split; [congruence | lia].
Qed.

(** X18: a [parse] that returns a tree has read at least one more token:
    the lexer keeps its source, its cursor has moved strictly forward, and
    the parser is strictly closer to the end of the source. *)
Theorem parse_reads_forward (p p' : Parser.t) (a : Ast) :
  Parser.parse p = Ok (a, p') ->
  Lexer.source (Parser.lexer p') = Lexer.source (Parser.lexer p)
  /\ Lexer.pos (Parser.lexer p) < Lexer.pos (Parser.lexer p')
  /\ (Parser.measure p' < Parser.measure p)%nat.
Proof.
  unfold Parser.parse. intros H.
  pose proof H as H'. apply parser_cursor in H as [Hs Hp].
  apply parser_measure in H'. auto.
Qed.

Lemma parse_reads_forward_witness :
  let p := Parser.mk (Lexer.mk "7*(2+3)" 0 (Lexer.CTok (mkToken START VNone))
                               (mkToken INTEGER (VInt 7)))
                     (mkToken INTEGER (VInt 7)) in
  let p' := Parser.mk (Lexer.mk "7*(2+3)" 7 Lexer.CNone (mkToken EOF VNone))
                      (mkToken EOF VNone) in
  Lexer.source (Parser.lexer p') = Lexer.source (Parser.lexer p)
  /\ Lexer.pos (Parser.lexer p) < Lexer.pos (Parser.lexer p')
  /\ (Parser.measure p' < Parser.measure p)%nat.
Proof.
  apply (@parse_reads_forward
           (Parser.mk (Lexer.mk "7*(2+3)" 0 (Lexer.CTok (mkToken START VNone))
                                (mkToken INTEGER (VInt 7)))
                      (mkToken INTEGER (VInt 7)))
           (Parser.mk (Lexer.mk "7*(2+3)" 7 Lexer.CNone (mkToken EOF VNone))
                      (mkToken EOF VNone))
           (BinOp (mkToken MULT (VStr "*"))
                  (Num (mkToken INTEGER (VInt 7)))
                  (BinOp (mkToken PLUS (VStr "+"))
                         (Num (mkToken INTEGER (VInt 2)))
                         (Num (mkToken INTEGER (VInt 3)))))).
  vm_compute. reflexivity.
Defined.

(** X19: a right parenthesis with no partner ends the expression: the text
    of an expression followed by [)] and anything at all parses to the tree
    of the expression, and the line evaluates as the expression alone. *)
Theorem unmatched_right_parenthesis_ends_the_expression
        (e : expression) (junk : string) :
  literals_ok e = true ->
  parse_line (print 0 e ++ String ")" junk) = Ok (to_ast e)
  /\ evaluate (print 0 e ++ String ")" junk) = evaluate (print 0 e).
Proof.
  intros Hok.
  assert (Hp : parse_line (print 0 e ++ String ")" junk) = Ok (to_ast e)).
  { pose proof (before_init (print 0 e ++ String ")" junk)) as Hb.
    destruct (@print_readable e Hok 0%nat (String ")" junk) eq_refl "" _ Hb)
      as (k & l' & Hg).
    assert (Hr : ready (Parser.mk l' k) "" (print 0 e ++ String ")" junk)).
    { exists (Lexer.__init__ (print 0 e ++ String ")" junk)).
      split; [exact Hb | exact Hg]. }
    destruct (@parse_print_level e Hok 0%nat "" (String ")" junk) _
                (follows_rparen junk) Hr)
      as (p' & pre' & Hp' & Hpar).
    apply (@ready_char p' pre' junk ")"%char (mkToken RPAREN (VStr ")")) eq_refl)
      in Hp' as [Hk _].
    cbn [parsed] in Hpar.
    assert (He : Expr (Parser.mk l' k) (Ok (to_ast e, p'))).
    { apply Hpar, ExprLoop_exit. rewrite Hk. reflexivity. }
    apply Expr_parse in He.
    unfold parse_line, Parser.__init__. rewrite Hg. cbn [bind].
    rewrite He. reflexivity. }
  split; [exact Hp |].
  rewrite !evaluate_parse_line, Hp, (parse_line_print _ Hok). reflexivity.
Qed.

Lemma unmatched_right_parenthesis_ends_the_expression_witness :
  parse_line ("2 + 3" ++ ") * 4")
  = Ok (to_ast (Binary Add (Lit "2" "") (Lit "3" "")))
  /\ evaluate ("2 + 3" ++ ") * 4") = evaluate "2 + 3".
Proof.
  apply (@unmatched_right_parenthesis_ends_the_expression
           (Binary Add (Lit "2" "") (Lit "3" "")) " * 4").
  reflexivity.
Defined.

(** X20: a line that is the decimal notation of a non-negative integer [z]
    evaluates to [z], and a line of base-10 digits evaluates to their
    base-10 value.  From a cursor just before a run of base-10 digits that
    ends at the end of the source or at a character that [str.isdigit]
    rejects, the lexer reads the whole run, returns the INTEGER token of
    its base-10 value and leaves the cursor on the last digit of the run. *)
Theorem decimal_literal_is_read
        (z : Z) (l : Lexer.t) (pre rest : string) (d : ascii) (ds : string) :
  0 <= z ->
  str_forallb isdecimal (String d ds) = true ->
  ends_run rest ->
  before l pre (String d ds ++ rest) ->
  evaluate (str (VInt z)) = Ok (VInt z)
  /\ evaluate (String d ds) = Ok (VInt (int_acc 0 (String d ds)))
  /\ exists l',
      Lexer.get_next_token l
      = Ok (mkToken INTEGER (VInt (int_acc 0 (String d ds))), l')
      /\ before l' (pre ++ String d ds) rest.
Proof.
  intros Hz Hd He Hb. split; [| split].
  - destruct (str_nonneg Hz) as (c & cs & Hs & Hc & Hv).
    rewrite Hs, (@evaluate_decimal c cs Hc), Hv. reflexivity.
  - apply evaluate_decimal, Hd.
  - destruct (@get_next_token_digits l pre rest d ds Hd He Hb)
      as (l' & Hb' & Hg).
    exists l'. split; assumption.
Qed.

Lemma decimal_literal_is_read_witness :
  evaluate (str (VInt 2026)) = Ok (VInt 2026)
  /\ evaluate "007" = Ok (VInt (int_acc 0 "007"))
  /\ exists l',
      Lexer.get_next_token (Lexer.mk "1+007*2" 1 (Lexer.CChr "+") (mkToken PLUS (VStr "+")))
      = Ok (mkToken INTEGER (VInt (int_acc 0 "007")), l')
      /\ before l' ("1+" ++ "007") "*2".
Proof.
  apply (@decimal_literal_is_read 2026
           (Lexer.mk "1+007*2" 1 (Lexer.CChr "+") (mkToken PLUS (VStr "+")))
           "1+" "*2" "0"%char "07").
  - discriminate.
  - reflexivity.
  - reflexivity.
  - split; reflexivity.
Defined.
